(** * CloudyHost process supervisor (server/botManager.ts)

    A shallow embedding of the [BotManager] class, of the part of
    [FileStorage] it calls and of [LogStorage], followed by the properties
    of the supervisor's lifecycle, health-check, retry and termination
    logic.

    Modelling conventions.
    - JavaScript objects that are shared by reference (the [ChildProcess]
      handed out by [spawn], the [HealthCheckInfo] and [RetryInfo] records
      captured by timer closures) live in heaps indexed by a [handle]; the
      three [Map]s of the class hold handles, as the source holds references.
    - A pending [setTimeout] is an entry of [timers]; [clearTimeout] removes
      it; the event loop fires it with [fireTimer].
    - In a handler of the monad [M] every [await] on the storage or the
      log files completes in place: the handler runs from its first to its
      last statement without another event in between, and the backing
      files can be read and written.  That is one schedule of the event
      loop.  The schedules in which a listener starts while another waits
      in [storage.updateBotStatus], between its read and its write of
      [bots.json], are those of [overlapped].
    - Values the platform supplies--the result of [Math.random], a fresh
      health-check token, what the file system and the operating system
      answer--are arguments of the function that consumes them.
    - Strings are ASCII text; numbers that the source keeps integral are
      [Z]; delays are doubles, held as [Q] milliseconds and rounded as
      IEEE 754 rounds them ([Double.round]). *)

From Stdlib Require Import ZArith QArith Qround Qpower Qabs Lqa Ascii.
From stdpp Require Import gmap strings list fin_maps pretty.

Close Scope Q_scope.
Open Scope Z_scope.

(** ** Data model *)

(** [BotStatus] of shared/schema: the [status] column of a bot. *)
Inductive BotStatus :=
  | st_running | st_stopped | st_starting | st_error | st_unresponsive.

#[global] Instance BotStatus_eq_dec : EqDecision BotStatus.
Proof. solve_decision. Defined.

(** [LogEntry['level']]. *)
Inductive LogLevel := lvl_info | lvl_warn | lvl_error | lvl_debug.

#[global] Instance LogLevel_eq_dec : EqDecision LogLevel.
Proof. solve_decision. Defined.

(** [interface LogEntry]; the random [id] is left out, the timestamp is the
    clock reading in milliseconds. *)
Record LogEntry := mkLogEntry {
  timestamp : Z;
  level : LogLevel;
  message : string
}.

(** The columns of a row of [bots] that the supervisor reads or writes. *)
Record Bot := mkBot {
  name : string;
  mainFile : string;
  status : BotStatus;
  processId : option string;
  lastActivity : Z
}.

(** References to heap objects and timers. *)
Abbreviation handle := nat (only parsing).

(** [interface HealthCheckInfo]. *)
Record HealthCheckInfo := mkHealthCheckInfo {
  lastCheck : Z;
  lastResponse : option Z;
  consecutiveFailures : Z;
  isWaitingForResponse : bool;
  healthCheckId : option string;
  timeoutHandle : option handle
}.

(** [interface RetryInfo]. *)
Record RetryInfo := mkRetryInfo {
  attempts : Z;
  lastAttempt : Z;
  nextRetryAt : option Z;
  retryTimeoutHandle : option handle
}.

(** The part of a Node [ChildProcess] the manager looks at.  [owner] is the
    [botId] the listeners installed by [startBot] close over.  [killed] is
    Node's flag: it is set by a call of [kill] that delivered its signal,
    and says nothing about whether the process has ended. *)
Record ChildProcess := mkChildProcess {
  owner : string;
  spawnfile : string;
  pid : option Z;
  killed : bool;
  stdinUsable : bool
}.

(** Signal names, as Node passes them: ["SIGTERM"], ["SIGKILL"], ... *)
Abbreviation Signal := string (only parsing).

(** What the operating system answers when [ChildProcess.kill] sends a
    signal, as Node distinguishes the cases: the signal was delivered
    ([kill] sets [killed] and returns [true]); there is no such process any
    more ([kill] returns [false]); the platform rejects the signal ([kill]
    throws); any other failure ([kill] emits ['error'] on the child and
    returns [false]). *)
Inductive KillOutcome :=
  | Delivered
  | NoSuchProcess
  | Rejected (msg : string)
  | Failed (msg : string).

(** What [startBot] finds when it launches: whether [fs.access] succeeds on
    the main file and on the virtual environment's interpreter, and the
    pid and stdin of the child that [spawn] returns. *)
Record LaunchEnv := mkLaunchEnv {
  mainFileExists : bool;
  venvPythonExists : bool;
  spawnedPid : option Z;
  spawnedStdin : bool
}.

(** The closure state of one call of [stopBot] that reached its
    [new Promise]: the [isResolved] flag, the value the promise was resolved
    with, which of the listeners it attached to the child are still
    attached, and whether [deleteBot] is awaiting it (then with the answer
    [fs.rm] will give that call). *)
Record StopCall := mkStopCall {
  isResolved : bool;
  resolved : option bool;
  onExitAttached : bool;
  onErrorAttached : bool;
  clearOnExit : option handle;
  awaitedByDelete : option bool
}.

(** The callbacks handed to [setTimeout], with what each closes over. *)
Inductive TimerTask :=
  | MarkRunning (botId : string) (child : handle)
  | HealthTimeout (botId : string) (info : handle) (healthCheckId : string)
  | RetryRestart (botId : string) (info : handle)
  | ForceKill (botId : string) (child : handle).

Record Timer := mkTimer {
  delay : Q;
  task : TimerTask
}.

(** The state of the [BotManager] instance together with the collaborators
    it drives: storage rows, log files, the ['log'] events emitted, and the
    traces of signals delivered and lines written to children. *)
Record Manager := mkManager {
  runningBots : gmap string handle;
  healthCheckData : gmap string handle;
  retryData : gmap string handle;
  children : gmap handle ChildProcess;
  healthInfos : gmap handle HealthCheckInfo;
  retryInfos : gmap handle RetryInfo;
  stopCalls : gmap handle StopCall;
  timers : gmap handle Timer;
  bots : gmap string Bot;
  logs : gmap string (list LogEntry);
  emitted : list (string * LogEntry);
  signals : list (handle * Signal);
  stdinWrites : list (handle * string);
  nextHandle : handle;
  now : Z
}.

Definition set_runningBots (v : gmap string handle) (s : Manager) : Manager :=
  mkManager v (healthCheckData s) (retryData s) (children s) (healthInfos s)
    (retryInfos s) (stopCalls s) (timers s) (bots s) (logs s) (emitted s)
    (signals s) (stdinWrites s) (nextHandle s) (now s).

Definition set_healthCheckData (v : gmap string handle) (s : Manager) : Manager :=
  mkManager (runningBots s) v (retryData s) (children s) (healthInfos s)
    (retryInfos s) (stopCalls s) (timers s) (bots s) (logs s) (emitted s)
    (signals s) (stdinWrites s) (nextHandle s) (now s).

Definition set_retryData (v : gmap string handle) (s : Manager) : Manager :=
  mkManager (runningBots s) (healthCheckData s) v (children s) (healthInfos s)
    (retryInfos s) (stopCalls s) (timers s) (bots s) (logs s) (emitted s)
    (signals s) (stdinWrites s) (nextHandle s) (now s).

Definition set_children (v : gmap handle ChildProcess) (s : Manager) : Manager :=
  mkManager (runningBots s) (healthCheckData s) (retryData s) v
    (healthInfos s) (retryInfos s) (stopCalls s) (timers s) (bots s) (logs s)
    (emitted s) (signals s) (stdinWrites s) (nextHandle s) (now s).

Definition set_healthInfos (v : gmap handle HealthCheckInfo) (s : Manager) : Manager :=
  mkManager (runningBots s) (healthCheckData s) (retryData s) (children s) v
    (retryInfos s) (stopCalls s) (timers s) (bots s) (logs s) (emitted s)
    (signals s) (stdinWrites s) (nextHandle s) (now s).

Definition set_retryInfos (v : gmap handle RetryInfo) (s : Manager) : Manager :=
  mkManager (runningBots s) (healthCheckData s) (retryData s) (children s)
    (healthInfos s) v (stopCalls s) (timers s) (bots s) (logs s) (emitted s)
    (signals s) (stdinWrites s) (nextHandle s) (now s).

Definition set_stopCalls (v : gmap handle StopCall) (s : Manager) : Manager :=
  mkManager (runningBots s) (healthCheckData s) (retryData s) (children s)
    (healthInfos s) (retryInfos s) v (timers s) (bots s) (logs s) (emitted s)
    (signals s) (stdinWrites s) (nextHandle s) (now s).

Definition set_timers (v : gmap handle Timer) (s : Manager) : Manager :=
  mkManager (runningBots s) (healthCheckData s) (retryData s) (children s)
    (healthInfos s) (retryInfos s) (stopCalls s) v (bots s) (logs s)
    (emitted s) (signals s) (stdinWrites s) (nextHandle s) (now s).

Definition set_bots (v : gmap string Bot) (s : Manager) : Manager :=
  mkManager (runningBots s) (healthCheckData s) (retryData s) (children s)
    (healthInfos s) (retryInfos s) (stopCalls s) (timers s) v (logs s)
    (emitted s) (signals s) (stdinWrites s) (nextHandle s) (now s).

Definition set_logs (v : gmap string (list LogEntry)) (s : Manager) : Manager :=
  mkManager (runningBots s) (healthCheckData s) (retryData s) (children s)
    (healthInfos s) (retryInfos s) (stopCalls s) (timers s) (bots s) v
    (emitted s) (signals s) (stdinWrites s) (nextHandle s) (now s).

Definition set_emitted (v : list (string * LogEntry)) (s : Manager) : Manager :=
  mkManager (runningBots s) (healthCheckData s) (retryData s) (children s)
    (healthInfos s) (retryInfos s) (stopCalls s) (timers s) (bots s) (logs s)
    v (signals s) (stdinWrites s) (nextHandle s) (now s).

Definition set_signals (v : list (handle * Signal)) (s : Manager) : Manager :=
  mkManager (runningBots s) (healthCheckData s) (retryData s) (children s)
    (healthInfos s) (retryInfos s) (stopCalls s) (timers s) (bots s) (logs s)
    (emitted s) v (stdinWrites s) (nextHandle s) (now s).

Definition set_stdinWrites (v : list (handle * string)) (s : Manager) : Manager :=
  mkManager (runningBots s) (healthCheckData s) (retryData s) (children s)
    (healthInfos s) (retryInfos s) (stopCalls s) (timers s) (bots s) (logs s)
    (emitted s) (signals s) v (nextHandle s) (now s).

Definition set_nextHandle (v : handle) (s : Manager) : Manager :=
  mkManager (runningBots s) (healthCheckData s) (retryData s) (children s)
    (healthInfos s) (retryInfos s) (stopCalls s) (timers s) (bots s) (logs s)
    (emitted s) (signals s) (stdinWrites s) v (now s).

Definition set_now (v : Z) (s : Manager) : Manager :=
  mkManager (runningBots s) (healthCheckData s) (retryData s) (children s)
    (healthInfos s) (retryInfos s) (stopCalls s) (timers s) (bots s) (logs s)
    (emitted s) (signals s) (stdinWrites s) (nextHandle s) v.

(** The manager before any bot was started, over given storage rows. *)
Definition emptyManager (rows : gmap string Bot) (clock : Z) : Manager :=
  mkManager ∅ ∅ ∅ ∅ ∅ ∅ ∅ ∅ rows ∅ [] [] [] 0%nat clock.

(** ** Constants of the class *)

Definition HEALTH_CHECK_TIMEOUT : Z := 30000.
Definition HEALTH_CHECK_INTERVAL : Z := 60000.
Definition MAX_CONSECUTIVE_FAILURES : Z := 3.
Definition MAX_RETRY_ATTEMPTS : Z := 5.
Definition BASE_RETRY_DELAY : Z := 2000.

(** ** The monad of handlers: a handler reads and updates the manager *)

Definition M (A : Type) : Type := Manager → A * Manager.

Definition ret {A} (a : A) : M A := λ s, (a, s).

Definition bind {A B} (c : M A) (k : A → M B) : M B :=
  λ s, let (a, s') := c s in k a s'.

Definition gets {A} (f : Manager → A) : M A := λ s, (f s, s).

Definition modify (f : Manager → Manager) : M unit := λ s, (tt, f s).

Definition exec {A} (c : M A) (s : Manager) : Manager := snd (c s).

Definition result {A} (c : M A) (s : Manager) : A := fst (c s).

Notation "x <- c ;; k" := (bind c (λ x, k))
  (at level 100, c at next level, k at level 200, right associativity).
Notation "c ;; k" := (bind c (λ _, k))
  (at level 100, k at level 200, right associativity).

(** [if (h) clearTimeout(h)] and its like: run [k] on a defined value. *)
Definition whenSome {A} (o : option A) (k : A → M unit) : M unit :=
  match o with Some a => k a | None => ret tt end.

(** ** Strings: the few [String.prototype] methods the manager calls *)

Module Str.

Definition chars (s : string) : list ascii := String.list_ascii_of_string s.
Definition ofChars (l : list ascii) : string := String.string_of_list_ascii l.

Fixpoint takeWhile (p : ascii → bool) (l : list ascii) : list ascii :=
  match l with
  | c :: l' => if p c then c :: takeWhile p l' else []
  | [] => []
  end.

Fixpoint dropWhile (p : ascii → bool) (l : list ascii) : list ascii :=
  match l with
  | c :: l' => if p c then dropWhile p l' else l
  | [] => []
  end.

Definition isChar (c d : ascii) : bool := bool_decide (c = d).
Definition isNot (c d : ascii) : bool := negb (isChar c d).

(** [s.trim()] *)
Definition trimStart (l : list ascii) : list ascii :=
  dropWhile Ascii.is_space l.
Definition trim (s : string) : string :=
  ofChars (reverse (trimStart (reverse (trimStart (chars s))))).

(** [l] starts with [p] *)
Fixpoint startsWith (p l : list ascii) : bool :=
  match p, l with
  | [], _ => true
  | a :: p', b :: l' => bool_decide (a = b) && startsWith p' l'
  | _ :: _, [] => false
  end.

(** [hay.includes(needle)] *)
Fixpoint includesChars (needle hay : list ascii) : bool :=
  startsWith needle hay ||
  match hay with
  | [] => false
  | _ :: hay' => includesChars needle hay'
  end.
Definition includes (hay needle : string) : bool :=
  includesChars (chars needle) (chars hay).

(** [s.split('\n')] *)
Fixpoint splitChars (sep : ascii) (cur : list ascii) (l : list ascii)
  : list (list ascii) :=
  match l with
  | [] => [reverse cur]
  | c :: l' =>
      if bool_decide (c = sep) then reverse cur :: splitChars sep [] l'
      else splitChars sep (c :: cur) l'
  end.
Definition splitLines (s : string) : list string :=
  ofChars <$> splitChars "010"%char [] (chars s).

(** The longest prefix matching [\S+], if it is not empty. *)
Definition nonSpaceRun (l : list ascii) : option (list ascii) :=
  match takeWhile (λ c, negb (Ascii.is_space c)) l with
  | [] => None
  | r => Some r
  end.

(** [s.match(/<marker>(\S+)/)]: capture group 1 of the leftmost match. *)
Fixpoint matchAfter (marker l : list ascii) : option (list ascii) :=
  match (if startsWith marker l
         then nonSpaceRun (drop (length marker) l) else None) with
  | Some r => Some r
  | None => match l with
            | [] => None
            | _ :: l' => matchAfter marker l'
            end
  end.

(** ASCII [s.toLowerCase()] *)
Definition lowerChar (c : ascii) : ascii :=
  let n := Ascii.N_of_ascii c in
  if ((65 <=? n)%N && (n <=? 90)%N)%bool
  then Ascii.ascii_of_N (n + 32) else c.
Definition toLowerCase (s : string) : string :=
  ofChars (lowerChar <$> chars s).

(** POSIX [path.extname]: from the last dot of the last path segment,
    unless that dot opens the segment or the segment is [..]. *)
Definition lastSegment (l : list ascii) : list ascii :=
  let noSlash := dropWhile (isChar "/"%char) (reverse l) in
  reverse (takeWhile (isNot "/"%char) noSlash).
Definition extname (p : string) : string :=
  let seg := lastSegment (chars p) in
  let afterDot := reverse (takeWhile (isNot "."%char) (reverse seg)) in
  if bool_decide (seg = [".";"."]%char) then ""
  else if bool_decide (length afterDot = length seg) then ""
  else if bool_decide (S (length afterDot) = length seg) then ""
  else ofChars ("."%char :: afterDot).

End Str.

(** The line feed as a string. *)
Definition newline : string := String "010"%char EmptyString.

(** ** Collaborators *)

(** [new Date()] / [Date.now()] *)
Definition dateNow : M Z := gets now.

(** [FileStorage]: the rows of [bots.json] as a map from id to row.  Every
    method reads the whole file and, if it changes a row, writes the whole
    file back. *)
Module storage.

(** [readBots]: the rows parsed from the file. *)
Definition readBots : M (gmap string Bot) := gets bots.

(** [writeBots]: the file is replaced by the rows given. *)
Definition writeBots (rows : gmap string Bot) : M unit :=
  modify (set_bots rows).

Definition getBot (id : string) : M (option Bot) :=
  rows <- readBots ;;
  ret (rows !! id).

Definition getAllBots : M (list Bot) :=
  rows <- readBots ;;
  ret (map_to_list rows).*2.

(** [processId || bot.processId] *)
Definition orElse (a b : option string) : option string :=
  match a with
  | Some x => if bool_decide (x = "") then b else Some x
  | None => b
  end.

(** [updateBotStatus] from its [await this.readBots()] up to its
    [await this.writeBots(bots)]: the updated row and the rows it is about
    to write, made from the rows it has read. *)
Definition prepareUpdate (id : string) (st : BotStatus)
    (pid' : option string) : M (option (Bot * gmap string Bot)) :=
  rows <- readBots ;;
  match rows !! id with
  | None => ret None
  | Some bot =>
      t <- dateNow ;;
      let updatedBot :=
        mkBot (name bot) (mainFile bot) st (orElse pid' (processId bot)) t in
      ret (Some (updatedBot, <[id := updatedBot]> rows))
  end.

(** The rest of [updateBotStatus]: the write, and the row returned. *)
Definition finishUpdate (prepared : option (Bot * gmap string Bot))
    : M (option Bot) :=
  match prepared with
  | None => ret None
  | Some (updatedBot, rows) => writeBots rows ;; ret (Some updatedBot)
  end.

Definition updateBotStatus (id : string) (st : BotStatus)
    (pid' : option string) : M (option Bot) :=
  prepared <- prepareUpdate id st pid' ;;
  finishUpdate prepared.

Definition deleteBot (id : string) : M bool :=
  rows <- readBots ;;
  match rows !! id with
  | None => ret false
  | Some _ => writeBots (delete id rows) ;; ret true
  end.

End storage.

(** [LogStorage], the class of ./logStorage.  The log of a bot is a file;
    a bot without a file has no entry in [logs]. *)
Module LogStorage.

Definition getLogs (botId : string) : M (list LogEntry) :=
  gets (λ s, default [] (logs s !! botId)).

(** [logs.push(log); if (logs.length > 1000) logs.shift()] *)
Definition push (log : LogEntry) (logs : list LogEntry) : list LogEntry :=
  let logs' := logs ++ [log] in
  if bool_decide (1000 < length logs')%nat then drop 1 logs' else logs'.

Definition addLog (botId : string) (log : LogEntry) : M unit :=
  logs0 <- getLogs botId ;;
  modify (λ s, set_logs (<[botId := push log logs0]> (logs s)) s).

Definition clearLogs (botId : string) : M unit :=
  modify (λ s, set_logs (<[botId := []]> (logs s)) s).

Definition deleteBotLogs (botId : string) : M unit :=
  modify (λ s, set_logs (delete botId (logs s)) s).

(** The last [n] elements of a list. *)
Definition lastN {A} (n : nat) (l : list A) : list A :=
  drop (length l - n) l.

(** The files hold the last 1000 entries of the logs of [ideal]. *)
Definition windowOf (ideal files : gmap string (list LogEntry)) : Prop :=
  ∀ botId, files !! botId = lastN 1000 <$> ideal !! botId.

End LogStorage.

(** [setTimeout] and [clearTimeout]; objects are allocated at the next free
    handle. *)
Definition fresh : M handle :=
  h <- gets nextHandle ;;
  modify (set_nextHandle (S h)) ;;
  ret h.

Definition setTimeout (t : TimerTask) (d : Q) : M handle :=
  h <- fresh ;;
  modify (λ s, set_timers (<[h := mkTimer d t]> (timers s)) s) ;;
  ret h.

Definition clearTimeout (h : handle) : M unit :=
  modify (λ s, set_timers (delete h (timers s)) s).

(** ** BotManager *)

(** [addLog]: the entry is stored and a ['log'] event is emitted. *)
Definition addLog (botId : string) (lvl : LogLevel) (msg : string) : M unit :=
  t <- dateNow ;;
  let logEntry := mkLogEntry t lvl msg in
  LogStorage.addLog botId logEntry ;;
  modify (λ s, set_emitted (emitted s ++ [(botId, logEntry)]) s).

(** [this.healthCheckData.get(botId)], with the object it refers to. *)
Definition healthInfoOf (botId : string)
    : M (option (handle * HealthCheckInfo)) :=
  gets (λ s, h ← healthCheckData s !! botId;
             i ← healthInfos s !! h; Some (h, i)).

Definition storeHealth (h : handle) (i : HealthCheckInfo) : M unit :=
  modify (λ s, set_healthInfos (<[h := i]> (healthInfos s)) s).

(** [this.runningBots.get(botId)], with the object it refers to. *)
Definition childOf (botId : string) : M (option (handle * ChildProcess)) :=
  gets (λ s, c ← runningBots s !! botId;
             p ← children s !! c; Some (c, p)).

Definition storeChild (c : handle) (p : ChildProcess) : M unit :=
  modify (λ s, set_children (<[c := p]> (children s)) s).

Definition handleHealthCheckFailure (botId reason : string) : M unit :=
  r <- healthInfoOf botId ;;
  match r with
  | None => ret tt
  | Some (h, healthInfo) =>
      whenSome (timeoutHandle healthInfo) clearTimeout ;;
      let failures := consecutiveFailures healthInfo + 1 in
      storeHealth h
        (mkHealthCheckInfo (lastCheck healthInfo) (lastResponse healthInfo)
           failures false (healthCheckId healthInfo) None) ;;
      addLog botId lvl_warn
        ("Health check failed: " +:+ reason +:+ " (failures: "
           +:+ pretty failures +:+ ")") ;;
      if bool_decide (MAX_CONSECUTIVE_FAILURES ≤ failures) then
        storage.updateBotStatus botId st_unresponsive None ;;
        addLog botId lvl_error
          ("Bot marked as unresponsive after " +:+ pretty failures
             +:+ " consecutive failures")
      else ret tt
  end.

Definition handleHealthCheckSuccess (botId checkId : string) : M unit :=
  r <- healthInfoOf botId ;;
  match r with
  | None => ret tt
  | Some (h, healthInfo) =>
      if bool_decide (healthCheckId healthInfo ≠ Some checkId) then ret tt
      else
        whenSome (timeoutHandle healthInfo) clearTimeout ;;
        t <- dateNow ;;
        storeHealth h
          (mkHealthCheckInfo (lastCheck healthInfo) (Some t) 0 false
             (healthCheckId healthInfo) None) ;;
        bot <- storage.getBot botId ;;
        (match bot with
         | Some b =>
             if bool_decide (status b = st_unresponsive) then
               storage.updateBotStatus botId st_running None ;;
               addLog botId lvl_info "Bot is now responsive again"
             else ret tt
         | None => ret tt
         end) ;;
        addLog botId lvl_debug ("Health check passed: " +:+ checkId)
  end.

(** [performBotHealthCheck]; [token] is what [generateHealthCheckId]
    returns for this probe. *)
Definition performBotHealthCheck (botId token : string) : M unit :=
  cp <- childOf botId ;;
  match cp with
  | Some (c, childProcess) =>
      if killed childProcess then
        modify (λ s, set_runningBots (delete botId (runningBots s)) s) ;;
        modify (λ s, set_healthCheckData (delete botId (healthCheckData s)) s) ;;
        storage.updateBotStatus botId st_error None ;;
        addLog botId lvl_error "Bot process no longer exists"
      else
        known <- healthInfoOf botId ;;
        hi <- (match known with
               | Some hi => ret hi
               | None =>
                   t <- dateNow ;;
                   h <- fresh ;;
                   let healthInfo := mkHealthCheckInfo t None 0 false None None in
                   storeHealth h healthInfo ;;
                   modify (λ s, set_healthCheckData
                                  (<[botId := h]> (healthCheckData s)) s) ;;
                   ret (h, healthInfo)
               end) ;;
        let (h, healthInfo) := hi : handle * HealthCheckInfo in
        if isWaitingForResponse healthInfo then
          t <- dateNow ;;
          if bool_decide (HEALTH_CHECK_TIMEOUT < t - lastCheck healthInfo)
          then handleHealthCheckFailure botId "Health check timeout"
          else ret tt
        else
          t <- dateNow ;;
          let sent :=
            mkHealthCheckInfo t (lastResponse healthInfo)
              (consecutiveFailures healthInfo) true (Some token)
              (timeoutHandle healthInfo) in
          storeHealth h sent ;;
          if stdinUsable childProcess then
            modify (λ s, set_stdinWrites
              (stdinWrites s
                 ++ [(c, "__HEALTH_CHECK__:" +:+ token +:+ newline)]) s) ;;
            th <- setTimeout (HealthTimeout botId h token)
                    (inject_Z HEALTH_CHECK_TIMEOUT) ;;
            storeHealth h
              (mkHealthCheckInfo t (lastResponse healthInfo)
                 (consecutiveFailures healthInfo) true (Some token) (Some th)) ;;
            addLog botId lvl_debug ("Health check sent: " +:+ token)
          else
            handleHealthCheckFailure botId
              "Cannot send health check - stdin not available"
  | None =>
      modify (λ s, set_runningBots (delete botId (runningBots s)) s) ;;
      modify (λ s, set_healthCheckData (delete botId (healthCheckData s)) s) ;;
      storage.updateBotStatus botId st_error None ;;
      addLog botId lvl_error "Bot process no longer exists"
  end.

Definition isHealthCheckResponse (message : string) : bool :=
  Str.includes message "__HEALTH_CHECK_RESPONSE__:".

(** The capture of [/__HEALTH_CHECK_RESPONSE__:(\S+)/] in [message]. *)
Definition responseToken (message : string) : option string :=
  Str.ofChars <$>
    Str.matchAfter (Str.chars "__HEALTH_CHECK_RESPONSE__:") (Str.chars message).

Definition processHealthCheckResponse (botId message : string) : M unit :=
  match responseToken message with
  | Some tok => handleHealthCheckSuccess botId (Str.trim tok)
  | None => addLog botId lvl_warn "Malformed health check response received"
  end.

(** The body of the loop of the [stdout] listener, for one line. *)
Definition onStdoutLine (botId line : string) : M unit :=
  let message := Str.trim line in
  if bool_decide (message = "") then ret tt
  else if isHealthCheckResponse message
       then processHealthCheckResponse botId message
       else addLog botId lvl_info message.

(** The [stdout] listener of [startBot]. *)
Definition onStdoutData (botId data : string) : M unit :=
  foldr (λ line k, onStdoutLine botId line ;; k) (ret tt) (Str.splitLines data).

(** The [stderr] listener of [startBot]. *)
Definition onStderrData (botId data : string) : M unit :=
  let message := Str.trim data in
  if bool_decide (message = "") then ret tt
  else addLog botId lvl_error message.

(** *** Retry scheduler *)

Definition retryInfoOf (botId : string) : M (option (handle * RetryInfo)) :=
  gets (λ s, r ← retryData s !! botId;
             i ← retryInfos s !! r; Some (r, i)).

Definition storeRetry (r : handle) (i : RetryInfo) : M unit :=
  modify (λ s, set_retryInfos (<[r := i]> (retryInfos s)) s).

(** The numbers of the source are IEEE 754 doubles.  Sums and products of
    the integers that occur here are exact; the delay of a retry is not,
    so the arithmetic that makes it is rounded as the machine rounds it:
    to the nearest double, to the even mantissa on a tie.  A double is a
    rational here; the numbers of the scheduler are far below the largest
    double, and no overflow to [Infinity] is modelled. *)
Module Double.

(** The integer nearest to [q], the even one of two that are equally
    near. *)
Definition roundHalfEven (q : Q) : Z :=
  let f := Qfloor q in
  match (q - inject_Z f ?= 1 # 2)%Q with
  | Lt => f
  | Gt => f + 1
  | Eq => if Z.even f then f else f + 1
  end.

(** The exponent [e] of the binade [2 ^ e <= q < 2 ^ (e + 1)] of a
    positive [q], and -1022 for a subnormal one. *)
Definition exponent (q : Q) : Z :=
  let c := Z.log2 (Qnum q) - Z.log2 (Zpos (Qden q)) in
  Z.max (-1022) (if Qle_bool (2 ^ c) q then c else c - 1).

(** A positive number rounded to 53 significant bits. *)
Definition roundPositive (q : Q) : Q :=
  let e := exponent q in
  (inject_Z (roundHalfEven (q * 2 ^ (52 - e))) * 2 ^ (e - 52))%Q.

(** The double nearest to [q], as a fraction in lowest terms. *)
Definition round (q : Q) : Q :=
  Qred (match Qnum q with
        | Z0 => 0
        | Zpos _ => roundPositive q
        | Zneg _ => - roundPositive (- q)
        end)%Q.

(** The numbers a double can hold: a mantissa of at most 53 bits times a
    power of two that is not below the smallest subnormal. *)
Definition representable (q : Q) : Prop :=
  ∃ m k : Z, -1074 ≤ k ∧ Z.abs m ≤ 2 ^ 53 ∧ (q == inject_Z m * 2 ^ k)%Q.

End Double.

Arguments Double.round : simpl never.

(** [BASE_RETRY_DELAY * Math.pow(2, attempts)], which is exact for the
    counts below the cap. *)
Definition baseDelay (attempts : Z) : Z := BASE_RETRY_DELAY * 2 ^ attempts.

(** [Math.random() * 1000] for the draw [rnd] of [Math.random]. *)
Definition jitterOf (rnd : Q) : Q := Double.round (rnd * 1000).

(** [baseDelay + jitter] for a record with [attempts] attempts. *)
Definition retryDelayOf (attempts : Z) (rnd : Q) : Q :=
  Double.round (inject_Z (baseDelay attempts) + jitterOf rnd).

(** [Math.round] *)
Definition mathRound (q : Q) : Z := Qfloor (q + (1 # 2))%Q.

(** The time value of [new Date(t)] for a fractional [t]. *)
Definition timeClip (q : Q) : Z :=
  if Qle_bool 0 q then Qfloor q else Qceiling q.

(** [scheduleSmartRetry]; [rnd] is the draw of [Math.random]. *)
Definition scheduleSmartRetry (botId : string) (rnd : Q) : M unit :=
  known <- retryInfoOf botId ;;
  ri <- (match known with
         | Some ri => ret ri
         | None =>
             t <- dateNow ;;
             r <- fresh ;;
             let retryInfo := mkRetryInfo 0 t None None in
             storeRetry r retryInfo ;;
             ret (r, retryInfo)
         end) ;;
  let (r, retryInfo) := ri : handle * RetryInfo in
  if bool_decide (MAX_RETRY_ATTEMPTS ≤ attempts retryInfo) then
    addLog botId lvl_error
      ("Max retry attempts (" +:+ pretty MAX_RETRY_ATTEMPTS
         +:+ ") reached. Bot will not restart automatically.") ;;
    modify (λ s, set_retryData (delete botId (retryData s)) s)
  else
    let retryDelay := retryDelayOf (attempts retryInfo) rnd in
    t <- dateNow ;;
    let attempts' := attempts retryInfo + 1 in
    let nextRetry := timeClip (Double.round (inject_Z t + retryDelay)) in
    storeRetry r
      (mkRetryInfo attempts' t (Some nextRetry) (retryTimeoutHandle retryInfo)) ;;
    whenSome (retryTimeoutHandle retryInfo) clearTimeout ;;
    addLog botId lvl_info
      ("Scheduling restart attempt " +:+ pretty attempts' +:+ "/"
         +:+ pretty MAX_RETRY_ATTEMPTS +:+ " in "
         +:+ pretty (mathRound (Double.round (retryDelay / 1000))) +:+ "s") ;;
    th <- setTimeout (RetryRestart botId r) retryDelay ;;
    storeRetry r (mkRetryInfo attempts' t (Some nextRetry) (Some th)) ;;
    modify (λ s, set_retryData (<[botId := r]> (retryData s)) s).

(** [cancelRetries]; no method of the class and no route calls it. *)
Definition cancelRetries (botId : string) : M unit :=
  known <- retryInfoOf botId ;;
  whenSome (known ≫= λ ri, retryTimeoutHandle ri.2) clearTimeout ;;
  modify (λ s, set_retryData (delete botId (retryData s)) s).

(** *** Launching *)

(** [startBot]; the directory of a bot is [bots/<botId>] (POSIX paths). *)
Definition startBot (botId : string) (env : LaunchEnv) : M bool :=
  found <- storage.getBot botId ;;
  match found with
  | None =>
      (* [throw new Error(...)], caught by the method's own [catch] *)
      storage.updateBotStatus botId st_error None ;;
      addLog botId lvl_error
        ("Failed to start bot: Bot " +:+ botId +:+ " not found") ;;
      ret false
  | Some bot =>
      live <- gets (λ s, runningBots s !! botId) ;;
      if bool_decide (is_Some live) then
        addLog botId lvl_warn "Bot already running" ;;
        ret false
      else
        storage.updateBotStatus botId st_starting None ;;
        addLog botId lvl_info ("Starting bot: " +:+ name bot) ;;
        if negb (mainFileExists env) then
          storage.updateBotStatus botId st_error None ;;
          addLog botId lvl_error ("Main file not found: " +:+ mainFile bot) ;;
          ret false
        else
          let ext := Str.toLowerCase (Str.extname (mainFile bot)) in
          command <-
            (if bool_decide (ext = ".js" ∨ ext = ".ts") then ret (Some "node")
             else if bool_decide (ext = ".py") then
               if venvPythonExists env then
                 addLog botId lvl_info "Using Python virtual environment" ;;
                 ret (Some ("bots/" +:+ botId +:+ "/venv/bin/python"))
               else
                 addLog botId lvl_warn
                   "Virtual environment not found, using system Python" ;;
                 ret (Some "python3")
             else
               storage.updateBotStatus botId st_error None ;;
               addLog botId lvl_error ("Unsupported file type: " +:+ ext) ;;
               ret None) ;;
          match command with
          | None => ret false
          | Some cmd =>
              c <- fresh ;;
              modify (λ s, set_children
                (<[c := mkChildProcess botId cmd (spawnedPid env) false
                          (spawnedStdin env)]> (children s)) s) ;;
              modify (λ s, set_runningBots (<[botId := c]> (runningBots s)) s) ;;
              setTimeout (MarkRunning botId c) 1000%Q ;;
              ret true
          end
  end.

(** [`${code}`] and [if (signal)] for the arguments of an ['exit'] event. *)
Definition showCode (code : option Z) : string :=
  match code with Some n => pretty n | None => "null" end.

Definition truthy (signal : option Signal) : option Signal :=
  match signal with
  | Some sg => if bool_decide (sg = "") then None else Some sg
  | None => None
  end.

(** The condition under which the ['exit'] listener attempts a retry:
    [code !== 0 && signal !== 'SIGTERM']. *)
Definition crashedUnexpectedly (code : option Z) (signal : option Signal)
    : bool :=
  bool_decide (code ≠ Some 0) && bool_decide (signal ≠ Some "SIGTERM").

(** The statements of the ['exit'] listener that [startBot] installs on the
    child of [botId], up to its last [if]. *)
Definition exitCleanup (botId : string) (code : option Z)
    (signal : option Signal) : M unit :=
  modify (λ s, set_runningBots (delete botId (runningBots s)) s) ;;
  modify (λ s, set_healthCheckData (delete botId (healthCheckData s)) s) ;;
  let st := if bool_decide (code = Some 0) then st_stopped else st_error in
  storage.updateBotStatus botId st None ;;
  match truthy signal with
  | Some sg =>
      addLog botId lvl_warn ("Bot process terminated by signal: " +:+ sg)
  | None =>
      addLog botId lvl_info
        ("Bot process exited with code: " +:+ showCode code)
  end.

(** The ['exit'] listener. *)
Definition onChildExit (botId : string) (code : option Z)
    (signal : option Signal) (rnd : Q) : M unit :=
  exitCleanup botId code signal ;;
  if crashedUnexpectedly code signal
  then scheduleSmartRetry botId rnd
  else ret tt.

(** The ['error'] listener that [startBot] installs on the child of
    [botId]. *)
Definition onChildError (botId errorMessage : string) : M unit :=
  modify (λ s, set_runningBots (delete botId (runningBots s)) s) ;;
  known <- healthInfoOf botId ;;
  whenSome (known ≫= λ hi, timeoutHandle hi.2) clearTimeout ;;
  modify (λ s, set_healthCheckData (delete botId (healthCheckData s)) s) ;;
  storage.updateBotStatus botId st_error None ;;
  addLog botId lvl_error ("Process error: " +:+ errorMessage).

(** The timer that [startBot] arms for one second after the spawn. *)
Definition markRunning (botId : string) (c : handle) : M unit :=
  live <- gets (λ s, runningBots s !! botId) ;;
  cp <- gets (λ s, children s !! c) ;;
  match cp with
  | Some childProcess =>
      if bool_decide (is_Some live) && negb (killed childProcess) then
        storage.updateBotStatus botId st_running (pretty <$> pid childProcess) ;;
        addLog botId lvl_info "Bot is now running"
      else ret tt
  | None => ret tt
  end.

(** *** Deleting: the statements of [deleteBot] after its [await stopBot] *)

Definition deleteBotRest (botId : string) (rmOk : bool) : M bool :=
  bot <- storage.getBot botId ;;
  (match bot with
   | Some _ =>
       if rmOk
       then addLog botId lvl_info ("Removed bot files: bots/" +:+ botId)
       else ret tt
   | None => ret tt
   end) ;;
  storage.deleteBot botId ;;
  LogStorage.deleteBotLogs botId ;;
  ret true.

(** *** Termination controller *)

(** How a call that may throw completes. *)
Inductive Completion (A : Type) :=
  | Normal (a : A)
  | Threw (msg : string).
Arguments Normal {A} a.
Arguments Threw {A} msg.

Definition stopCallOf (c : handle) : M (option StopCall) :=
  gets (λ s, stopCalls s !! c).

Definition updateStopCall (c : handle) (f : StopCall → StopCall) : M unit :=
  modify (λ s, set_stopCalls (alter f c (stopCalls s)) s).

Definition markResolved (sc : StopCall) : StopCall :=
  mkStopCall true (resolved sc) (onExitAttached sc) (onErrorAttached sc)
    (clearOnExit sc) (awaitedByDelete sc).

(** [resolve(v)]: only the first call settles the promise. *)
Definition resolveWith (v : bool) (sc : StopCall) : StopCall :=
  mkStopCall (isResolved sc)
    (match resolved sc with Some w => Some w | None => Some v end)
    (onExitAttached sc) (onErrorAttached sc) (clearOnExit sc)
    (awaitedByDelete sc).

Definition detachOnExit (sc : StopCall) : StopCall :=
  mkStopCall (isResolved sc) (resolved sc) false (onErrorAttached sc)
    (clearOnExit sc) (awaitedByDelete sc).

Definition detachOnError (sc : StopCall) : StopCall :=
  mkStopCall (isResolved sc) (resolved sc) (onExitAttached sc) false
    (clearOnExit sc) (awaitedByDelete sc).

Definition setClearOnExit (th : option handle) (sc : StopCall) : StopCall :=
  mkStopCall (isResolved sc) (resolved sc) (onExitAttached sc)
    (onErrorAttached sc) th (awaitedByDelete sc).

Definition setAwaited (a : option bool) (sc : StopCall) : StopCall :=
  mkStopCall (isResolved sc) (resolved sc) (onExitAttached sc)
    (onErrorAttached sc) (clearOnExit sc) a.

(** [onExit] of [stopBot], for the call that stops child [c]. *)
Definition stopOnExit (botId : string) (c : handle) (code : option Z)
    (signal : option Signal) : M unit :=
  sc <- stopCallOf c ;;
  match sc with
  | Some call =>
      if isResolved call then ret tt
      else
        updateStopCall c markResolved ;;
        (match truthy signal with
         | Some sg => addLog botId lvl_info ("Bot stopped by signal: " +:+ sg)
         | None =>
             addLog botId lvl_info ("Bot stopped with code: " +:+ showCode code)
         end) ;;
        updateStopCall c (resolveWith true)
  | None => ret tt
  end.

(** [onError] of [stopBot]. *)
Definition stopOnError (botId : string) (c : handle) (errorMessage : string)
    : M unit :=
  sc <- stopCallOf c ;;
  match sc with
  | Some call =>
      if isResolved call then ret tt
      else
        updateStopCall c markResolved ;;
        addLog botId lvl_error ("Error stopping bot: " +:+ errorMessage) ;;
        updateStopCall c (resolveWith false)
  | None => ret tt
  end.

(** The listeners of ['error'] on child [c], in the order they were added:
    the one of [startBot], then [onError] of a [stopBot] in progress. *)
Definition errorListeners (c : handle) (errorMessage : string) : M unit :=
  cp <- gets (λ s, children s !! c) ;;
  match cp with
  | Some childProcess =>
      onChildError (owner childProcess) errorMessage ;;
      sc <- stopCallOf c ;;
      whenSome sc (λ call,
        if onErrorAttached call then
          updateStopCall c detachOnError ;;
          stopOnError (owner childProcess) c errorMessage
        else ret tt)
  | None => ret tt
  end.

(** The child once a [kill] has delivered a signal to it. *)
Definition withKilled (p : ChildProcess) : ChildProcess :=
  mkChildProcess (owner p) (spawnfile p) (pid p) true (stdinUsable p).

(** [childProcess.kill(sig)] when the operating system answers [k]. *)
Definition kill (c : handle) (sig : Signal) (k : KillOutcome)
    : M (Completion bool) :=
  match k with
  | Delivered =>
      cp <- gets (λ s, children s !! c) ;;
      whenSome cp (λ p, storeChild c (withKilled p)) ;;
      modify (λ s, set_signals (signals s ++ [(c, sig)]) s) ;;
      ret (Normal true)
  | NoSuchProcess => ret (Normal false)
  | Rejected msg => ret (Threw msg)
  | Failed msg => errorListeners c msg ;; ret (Normal false)
  end.

(** [stopBot]; [k] is the answer to its [kill('SIGTERM')].  The result is
    the value of the returned promise if it is settled when the
    synchronous part ends, and [None] while it is pending; the value it
    is settled with later is [resolved] of the child's [StopCall]. *)
Definition stopBot (botId : string) (k : KillOutcome) : M (option bool) :=
  cp <- childOf botId ;;
  match cp with
  | None =>
      addLog botId lvl_warn "Bot is not running" ;;
      ret (Some false)
  | Some (c, _) =>
      addLog botId lvl_info "Stopping bot..." ;;
      modify (λ s, set_runningBots (delete botId (runningBots s)) s) ;;
      storage.updateBotStatus botId st_stopped None ;;
      modify (λ s, set_stopCalls
        (<[c := mkStopCall false None true true None None]> (stopCalls s)) s) ;;
      sent <- kill c "SIGTERM" k ;;
      match sent with
      | Threw msg =>
          sc <- stopCallOf c ;;
          (if default false (isResolved <$> sc) then ret tt
           else
             updateStopCall c markResolved ;;
             addLog botId lvl_error ("Failed to send SIGTERM: " +:+ msg) ;;
             updateStopCall c (resolveWith false)) ;;
          sc' <- stopCallOf c ;;
          ret (sc' ≫= resolved)
      | Normal _ =>
          forceKillTimeout <- setTimeout (ForceKill botId c) 5000%Q ;;
          updateStopCall c (setClearOnExit (Some forceKillTimeout)) ;;
          sc' <- stopCallOf c ;;
          ret (sc' ≫= resolved)
      end
  end.

(** The force-kill timer of [stopBot]; [k] is the answer to its
    [kill('SIGKILL')]. *)
Definition forceKill (botId : string) (c : handle) (k : KillOutcome) : M unit :=
  sc <- stopCallOf c ;;
  cp <- gets (λ s, children s !! c) ;;
  match sc, cp with
  | Some call, Some childProcess =>
      if isResolved call then ret tt
      else
        (if negb (killed childProcess) then
           sent <- kill c "SIGKILL" k ;;
           match sent with
           | Normal _ => addLog botId lvl_warn "Bot force-killed after timeout"
           | Threw msg =>
               addLog botId lvl_error ("Failed to force kill: " +:+ msg)
           end
         else ret tt) ;;
        sc' <- stopCallOf c ;;
        if default true (isResolved <$> sc') then ret tt
        else
          updateStopCall c markResolved ;;
          updateStopCall c detachOnExit ;;
          updateStopCall c detachOnError ;;
          updateStopCall c (resolveWith true)
  | _, _ => ret tt
  end.

(** When the promise of the [stopBot] on child [c] is settled and
    [deleteBot] awaits it, [deleteBot] goes on. *)
Definition resume (c : handle) : M unit :=
  sc <- stopCallOf c ;;
  cp <- gets (λ s, children s !! c) ;;
  match sc, cp with
  | Some call, Some childProcess =>
      match resolved call, awaitedByDelete call with
      | Some _, Some rmOk =>
          updateStopCall c (setAwaited None) ;;
          deleteBotRest (owner childProcess) rmOk ;;
          ret tt
      | _, _ => ret tt
      end
  | _, _ => ret tt
  end.

(** [deleteBot]; [k] answers the [kill('SIGTERM')] of the [stopBot] it may
    call, [rmOk] tells whether [fs.rm] succeeds.  The result is [None]
    while the method awaits the stop. *)
Definition deleteBot (botId : string) (k : KillOutcome) (rmOk : bool)
    : M (option bool) :=
  live <- gets (λ s, runningBots s !! botId) ;;
  match live with
  | Some c =>
      stopped <- stopBot botId k ;;
      match stopped with
      | Some _ => r <- deleteBotRest botId rmOk ;; ret (Some r)
      | None => updateStopCall c (setAwaited (Some rmOk)) ;; ret None
      end
  | None => r <- deleteBotRest botId rmOk ;; ret (Some r)
  end.

(** *** Events delivered by the event loop *)

(** Node emits ['exit'] on child [c]: the listener of [startBot], then
    [onExit] and the timer-clearing listener of a [stopBot] in progress. *)
Definition emitExit (c : handle) (code : option Z) (signal : option Signal)
    (rnd : Q) : M unit :=
  cp <- gets (λ s, children s !! c) ;;
  match cp with
  | Some childProcess =>
      onChildExit (owner childProcess) code signal rnd ;;
      sc <- stopCallOf c ;;
      whenSome sc (λ call,
        (if onExitAttached call then
           updateStopCall c detachOnExit ;;
           stopOnExit (owner childProcess) c code signal
         else ret tt) ;;
        whenSome (clearOnExit call) (λ th,
          clearTimeout th ;;
          updateStopCall c (setClearOnExit None))) ;;
      resume c
  | None => ret tt
  end.

(** Node emits ['error'] on child [c]. *)
Definition emitError (c : handle) (errorMessage : string) : M unit :=
  errorListeners c errorMessage ;;
  resume c.

(** The callback of [scheduleSmartRetry]'s timer. *)
Definition retryRestart (botId : string) (r : handle) (env : LaunchEnv)
    : M unit :=
  ri <- gets (λ s, retryInfos s !! r) ;;
  addLog botId lvl_info
    ("Attempting automatic restart ("
       +:+ pretty (default 0 (attempts <$> ri)) +:+ "/"
       +:+ pretty MAX_RETRY_ATTEMPTS +:+ ")") ;;
  success <- startBot botId env ;;
  if success then
    addLog botId lvl_info "Automatic restart successful" ;;
    modify (λ s, set_retryData (delete botId (retryData s)) s)
  else
    addLog botId lvl_warn "Automatic restart failed".

(** The callback of [performBotHealthCheck]'s timer. *)
Definition healthTimeout (botId : string) (h : handle) (token : string)
    : M unit :=
  hi <- gets (λ s, healthInfos s !! h) ;;
  whenSome hi (λ healthInfo,
    if isWaitingForResponse healthInfo
       && bool_decide (healthCheckId healthInfo = Some token)
    then handleHealthCheckFailure botId "Health check response timeout"
    else ret tt).

(** The event loop fires timer [th], if it is still pending.  [env] and [k]
    answer the launch and the kill the callback may perform. *)
Definition fireTimer (th : handle) (env : LaunchEnv) (k : KillOutcome)
    : M unit :=
  tm <- gets (λ s, timers s !! th) ;;
  whenSome tm (λ t,
    clearTimeout th ;;
    match task t with
    | MarkRunning botId c => markRunning botId c
    | HealthTimeout botId h token => healthTimeout botId h token
    | RetryRestart botId r => retryRestart botId r env
    | ForceKill botId c => forceKill botId c k ;; resume c
    end).

Definition getLogs (botId : string) : M (list LogEntry) :=
  LogStorage.getLogs botId.

Definition clearLogs (botId : string) : M unit :=
  LogStorage.clearLogs botId ;;
  addLog botId lvl_info "Logs cleared".

(** The clock advances by [ms] milliseconds between two events. *)
Definition tick (ms : Z) : M unit := modify (λ s, set_now (now s + ms) s).

(** ** A run of the supervisor, used to instantiate the statements below *)

Module Scenario.

Definition rows : gmap string Bot :=
  {[ "bot-1" := mkBot "Echo" "index.js" st_stopped None 0 ]}.

Definition boot : Manager := emptyManager rows 1000.

Definition launch : LaunchEnv := mkLaunchEnv true false (Some 4242) true.

(** [startBot] spawns child 0 and arms timer 1. *)
Definition started : Manager := exec (startBot "bot-1" launch) boot.

(** One second later timer 1 marks the bot as running. *)
Definition running : Manager :=
  exec (tick 1000 ;; fireTimer 1 launch Delivered) started.

(** A probe is sent (record 2, timer 3) and is not answered. *)
Definition probed1 : Manager :=
  exec (tick 60000 ;; performBotHealthCheck "bot-1" "hc_62000_a") running.
Definition failed1 : Manager :=
  exec (tick 30000 ;; fireTimer 3 launch Delivered) probed1.

(** So is the second probe (timer 4). *)
Definition probed2 : Manager :=
  exec (tick 30000 ;; performBotHealthCheck "bot-1" "hc_122000_b") failed1.
Definition failed2 : Manager :=
  exec (tick 30000 ;; fireTimer 4 launch Delivered) probed2.

(** The third probe (timer 5) is outstanding. *)
Definition probed3 : Manager :=
  exec (tick 30000 ;; performBotHealthCheck "bot-1" "hc_182000_c") failed2.

(** Its timeout is the third failure in a row. *)
Definition failed3 : Manager :=
  exec (tick 30000 ;; fireTimer 5 launch Delivered) probed3.

(** The running bot crashes with exit code 1: retry record 2, timer 3. *)
Definition crashed : Manager :=
  exec (tick 5000 ;; emitExit 0 (Some 1) None (1 # 2)) running.

(** A record that has used up its attempts. *)
Definition exhausted : Manager :=
  set_retryInfos (<[2%nat := mkRetryInfo 5 0 None None]> (retryInfos crashed))
    crashed.

(** While the retry is pending the user asks to stop the crashed bot. *)
Definition stopAfterCrash : M (option bool) := stopBot "bot-1" Delivered.

(** Or starts it by hand (child 4, timer 5), stops it (timer 6), and the
    child ends on the SIGTERM. *)
Definition restarted : Manager := exec (startBot "bot-1" launch) crashed.
Definition stopping : Manager := exec (stopBot "bot-1" Delivered) restarted.
Definition stoppedAgain : Manager :=
  exec (emitExit 4 None (Some "SIGTERM") (1 # 2)) stopping.

(** Or deletes the crashed bot. *)
Definition deleted : Manager :=
  exec (deleteBot "bot-1" Delivered true) crashed.

(** The running bot is stopped (force-kill timer 2), ignores the SIGTERM,
    and five seconds pass. *)
Definition stopRequested : Manager :=
  exec (stopBot "bot-1" Delivered) running.
Definition graceElapsed : Manager :=
  exec (tick 5000 ;; fireTimer 2 launch Delivered) stopRequested.

End Scenario.

(** ** The rest of the supervisor and the modules around it *)

(** *** [BotManager]: recovery and shutdown *)

(** The loop of [recoverRunningBots] over the rows found running. *)
Definition resetAfterRestart (ids : list string) : M unit :=
  foldr (λ id rest,
           storage.updateBotStatus id st_stopped None ;;
           addLog id lvl_info "Bot status reset after platform restart" ;;
           rest)
        (ret tt) ids.

(** [recoverRunningBots].  The rows are visited in the order of the map;
    the step for a row touches that row and its log only. *)
Definition recoverRunningBots : M unit :=
  allBots <- gets (λ s, map_to_list (bots s)) ;;
  resetAfterRestart
    (filter (λ row, status row.2 = st_running) allBots).*1.

(** The first loop of [shutdown] and its [retryData.clear()].  (The class
    declares [shutdown] twice; the second declaration, modelled here, is
    the one in force.) *)
Definition clearAllRetries : M unit :=
  entries <- gets (λ s, map_to_list (retryData s)) ;;
  foldr (λ entry rest,
           ri <- gets (λ s, retryInfos s !! entry.2) ;;
           whenSome (ri ≫= retryTimeoutHandle) clearTimeout ;;
           rest)
        (ret tt) entries ;;
  modify (set_retryData ∅).

(** [shutdown]; [k] answers the [kill('SIGTERM')] of each [stopBot]. *)
Definition shutdown (k : string → KillOutcome) : M unit :=
  clearAllRetries ;;
  ids <- gets (λ s, (map_to_list (runningBots s)).*1) ;;
  foldr (λ id rest, stopBot id (k id) ;; rest) (ret tt) ids.

(** Whether a probe of [botId] is outstanding. *)
Definition awaitingResponse (botId : string) (s : Manager) : bool :=
  match healthCheckData s !! botId ≫= λ h, healthInfos s !! h with
  | Some healthInfo => isWaitingForResponse healthInfo
  | None => false
  end.

(** *** The log of a bot as a history

    Everything that was ever appended to the log of a bot since it was last
    cleared: the abstract side of the statement that the files of
    [LogStorage] are its last 1000 entries.  No handler uses it. *)

Module UnboundedLog.

Definition getLogs (botId : string) : M (list LogEntry) :=
  gets (λ s, default [] (logs s !! botId)).

Definition addLog (botId : string) (entry : LogEntry) : M unit :=
  modify (λ s,
    set_logs (<[botId := default [] (logs s !! botId) ++ [entry]]> (logs s)) s).

Definition clearLogs (botId : string) : M unit :=
  modify (λ s, set_logs (<[botId := []]> (logs s)) s).

Definition deleteBotLogs (botId : string) : M unit :=
  modify (λ s, set_logs (delete botId (logs s)) s).

End UnboundedLog.

(** *** server/security.ts *)

Module security.

Definition MAX_UNCOMPRESSED_SIZE : Z := 100 * 1024 * 1024.
Definition MAX_FILE_SIZE : Z := 10 * 1024 * 1024.
Definition MAX_ENTRIES : Z := 1000.
Definition ALLOWED_EXTENSIONS : list string := [".js"; ".ts"; ".py"].

(** The class [[a-zA-Z0-9_.-]] *)
Definition isSafeChar (c : ascii) : bool :=
  let n := Ascii.N_of_ascii c in
  ((97 <=? n)%N && (n <=? 122)%N) || ((65 <=? n)%N && (n <=? 90)%N)
  || ((48 <=? n)%N && (n <=? 57)%N)
  || Str.isChar "_"%char c || Str.isChar "."%char c || Str.isChar "-"%char c.

(** What [replace(/[^a-zA-Z0-9_.-]/g, '_')] makes of one character. *)
Definition scrub (c : ascii) : ascii :=
  if isSafeChar c then c else "_"%char.

(** [sanitizeFileName]: POSIX [path.basename], then every character
    outside the class becomes an underscore. *)
Definition sanitizeFileName (fileName : string) : string :=
  let baseName := Str.lastSegment (Str.chars fileName) in
  Str.ofChars (scrub <$> baseName).

Inductive Validation :=
  | Valid
  | Invalid (reason : string).

(** [s.startsWith(p)] and [s.endsWith(p)] *)
Definition startsWith (s p : string) : bool :=
  Str.startsWith (Str.chars p) (Str.chars s).
Definition endsWith (s p : string) : bool :=
  Str.startsWith (reverse (Str.chars p)) (reverse (Str.chars s)).

(** [validateZipEntry]; [path.isAbsolute] is the POSIX one. *)
Definition validateZipEntry (entryName : string) (uncompressedSize : Z)
    : Validation :=
  if Str.includes entryName ".." || Str.includes entryName "/.."
     || Str.includes entryName "..\"
  then Invalid "Path traversal attempt detected"
  else if startsWith entryName "/"
  then Invalid "Absolute paths not allowed"
  else if startsWith entryName "." || Str.includes entryName "/."
          || Str.includes entryName "\."
  then Invalid "Hidden files not allowed"
  else if bool_decide (MAX_FILE_SIZE < uncompressedSize)
  then Invalid ("File too large: " +:+ pretty uncompressedSize +:+ " bytes")
  else if negb (endsWith entryName "/") && negb (endsWith entryName "\")
  then
    let ext := Str.toLowerCase (Str.extname entryName) in
    let allowedExtensions :=
      ALLOWED_EXTENSIONS
        ++ [".txt"; ".md"; ".json"; ".yml"; ".yaml"; ".env.example"] in
    if negb (bool_decide (ext = ""))
       && negb (bool_decide (ext ∈ allowedExtensions))
    then Invalid ("File extension not allowed: " +:+ ext)
    else Valid
  else Valid.

(** An entry of the archive: [entryName], [header.size], [isDirectory]. *)
Record ZipEntry := mkZipEntry {
  entryName : string;
  headerSize : Z;
  isDirectory : bool
}.

(** The double quote as a string. *)
Definition quote : string := String (Ascii.ascii_of_N 34) EmptyString.

(** The first failing entry of the validation loop of [safeZipExtraction],
    with the total size of the entries before it. *)
Fixpoint validateEntries (entries : list ZipEntry) (total : Z)
    : string + Z :=
  match entries with
  | [] => inr total
  | entry :: rest =>
      match validateZipEntry (entryName entry) (headerSize entry) with
      | Invalid reason =>
          inl ("Invalid entry " +:+ quote +:+ entryName entry +:+ quote
                 +:+ ": " +:+ reason)
      | Valid => validateEntries rest (total + headerSize entry)
      end
  end.

(** The statements of [safeZipExtraction] before it creates the
    directory: the error it returns, if any. *)
Definition checkArchive (entries : list ZipEntry) : option string :=
  if bool_decide (MAX_ENTRIES < Z.of_nat (length entries)) then
    Some ("Too many files in zip: " +:+ pretty (Z.of_nat (length entries))
            +:+ " (max: " +:+ pretty MAX_ENTRIES +:+ ")")
  else
    match validateEntries entries 0 with
    | inl error => Some error
    | inr totalUncompressedSize =>
        if bool_decide (MAX_UNCOMPRESSED_SIZE < totalUncompressedSize) then
          Some ("Archive too large when uncompressed: "
                  +:+ pretty totalUncompressedSize +:+ " bytes (max: "
                  +:+ pretty MAX_UNCOMPRESSED_SIZE +:+ ")")
        else None
    end.

(** [validateZipMagicBytes], on the bytes of the buffer. *)
Definition zipSignatures : list (list Z) :=
  [[80; 75; 3; 4]; [80; 75; 5; 6]; [80; 75; 7; 8]].

Definition validateZipMagicBytes (buffer : list Z) : bool :=
  if bool_decide (length buffer < 4)%nat then false
  else
    existsb
      (λ signature,
         forallb (λ ib, bool_decide (buffer !! ib.1 = Some ib.2))
           (zip (seq 0 (length signature)) signature))
      zipSignatures.

End security.

(** *** shared/schema: what [insertBotSchema] asks of [name] and [mainFile] *)

Module schema.

(** The class [[a-zA-Z0-9_-]] of the pattern of [name]. *)
Definition isNameChar (c : ascii) : bool :=
  let n := Ascii.N_of_ascii c in
  ((97 <=? n)%N && (n <=? 122)%N) || ((65 <=? n)%N && (n <=? 90)%N)
  || ((48 <=? n)%N && (n <=? 57)%N)
  || Str.isChar "_"%char c || Str.isChar "-"%char c.

Definition validName (name : string) : bool :=
  let l := Str.chars name in
  bool_decide (1 ≤ length l)%nat && bool_decide (length l ≤ 50)%nat
  && forallb isNameChar l
  && (negb (Str.includes name "..") && negb (security.startsWith name ".")
      && negb (bool_decide (name = ".")) && negb (bool_decide (name = ".."))).

(** The characters the first pattern of [mainFile] excludes: slash,
    backslash, colon, star, question mark, double quote, the angle
    brackets and the bar. *)
Definition isReservedChar (c : ascii) : bool :=
  bool_decide (Ascii.N_of_ascii c ∈ [47; 92; 58; 42; 63; 34; 60; 62; 124]%N).

(** [/\.(js|ts|py)$/i] *)
Definition hasScriptExtension (file : string) : bool :=
  let lower := Str.toLowerCase file in
  security.endsWith lower ".js" || security.endsWith lower ".ts"
  || security.endsWith lower ".py".

Definition validMainFile (file : string) : bool :=
  let l := Str.chars file in
  bool_decide (1 ≤ length l)%nat && bool_decide (length l ≤ 100)%nat
  && forallb (λ c, negb (isReservedChar c)) l
  && hasScriptExtension file
  && (negb (Str.includes file "..") && negb (security.startsWith file ".")
      && negb (Str.includes file "/") && negb (Str.includes file "\")).

End schema.

(** *** health_check_bot.js, the sample bot *)

Module sampleBot.

(** [s.replace(pattern, replacement)] for a string pattern: the first
    occurrence. *)
Fixpoint replaceChars (pattern replacement l : list ascii) : list ascii :=
  if Str.startsWith pattern l then replacement ++ drop (length pattern) l
  else match l with
       | [] => []
       | c :: l' => c :: replaceChars pattern replacement l'
       end.

Definition replace (s pattern replacement : string) : string :=
  Str.ofChars
    (replaceChars (Str.chars pattern) (Str.chars replacement) (Str.chars s)).

(** The lines that the ['data'] listener of [process.stdin] prints for a
    chunk [data]; [iso] is [new Date().toISOString()]. *)
Definition onStdinData (data iso : string) : list string :=
  let input := Str.trim data in
  if security.startsWith input "__HEALTH_CHECK__:" then
    let healthCheckId := replace input "__HEALTH_CHECK__:" "" in
    [ "__HEALTH_CHECK_RESPONSE__:" +:+ healthCheckId;
      "[" +:+ iso +:+ "] Health check responded: " +:+ healthCheckId ]
  else [ "[" +:+ iso +:+ "] Received: " +:+ input ].

(** What [console.log] writes for these lines. *)
Definition printed (lines : list string) : string :=
  foldr (λ line out, line +:+ newline +:+ out) "" lines.

End sampleBot.

(** *** The event loop

    What can happen to the supervisor, one event at a time: the calls of
    the routes, the turn of a bot in the loop of [performHealthChecks], the
    events of a child, a timer that is due, and the passing of time.  The
    output listeners of a child act for the bot the child was started
    for. *)

Inductive Event :=
  | CallStart (botId : string) (env : LaunchEnv)
  | CallStop (botId : string) (k : KillOutcome)
  | CallDelete (botId : string) (k : KillOutcome) (rmOk : bool)
  | CallClearLogs (botId : string)
  | CallShutdown (k : string → KillOutcome)
  | Recover
  | ProbeDue (botId token : string)
  | Stdout (c : handle) (data : string)
  | Stderr (c : handle) (data : string)
  | ChildExit (c : handle) (code : option Z) (signal : option Signal) (rnd : Q)
  | ChildError (c : handle) (errorMessage : string)
  | TimerDue (th : handle) (env : LaunchEnv) (k : KillOutcome)
  | Elapse (ms : Z).

Definition onChildOutput (c : handle) (listener : string → M unit) : M unit :=
  cp <- gets (λ s, children s !! c) ;;
  whenSome cp (λ childProcess, listener (owner childProcess)).

Definition handleEvent (e : Event) : M unit :=
  match e with
  | CallStart botId env => startBot botId env ;; ret tt
  | CallStop botId k => stopBot botId k ;; ret tt
  | CallDelete botId k rmOk => deleteBot botId k rmOk ;; ret tt
  | CallClearLogs botId => clearLogs botId
  | CallShutdown k => shutdown k
  | Recover => recoverRunningBots
  | ProbeDue botId token => performBotHealthCheck botId token
  | Stdout c data => onChildOutput c (λ botId, onStdoutData botId data)
  | Stderr c data => onChildOutput c (λ botId, onStderrData botId data)
  | ChildExit c code signal rnd => emitExit c code signal rnd
  | ChildError c errorMessage => emitError c errorMessage
  | TimerDue th env k => fireTimer th env k
  | Elapse ms => tick ms
  end.

(** The state after the events of a run, each handled to its end before
    the next. *)
Definition run (events : list Event) (s : Manager) : Manager :=
  foldl (λ s e, exec (handleEvent e) s) s events.

(** *** Listeners that overlap

    An [async] listener runs until it has to wait, and while it waits for
    the file system the event loop runs other listeners.  [FileStorage]
    holds no lock: [updateBotStatus] waits for [readBots], changes one row
    of the map it has read, and waits for [writeBots] of the whole map.
    The listeners that end in a status write are split here at that
    point: after the read, before the write. *)

(** A listener waiting in [updateBotStatus]: the rows it is about to
    write, and its statements after the [await]. *)
Record Paused := mkPaused {
  prepared : option (Bot * gmap string Bot);
  andThen : M unit
}.

Definition writeOf (p : option Paused) : M unit :=
  whenSome p (λ l, storage.finishUpdate (prepared l) ;; ret tt).

Definition restOf (p : option Paused) : M unit :=
  whenSome p andThen.

(** The listener goes on by itself. *)
Definition resumed (p : option Paused) : M unit :=
  writeOf p ;; restOf p.

(** [handleHealthCheckFailure] up to the read of its
    [await storage.updateBotStatus(botId, 'unresponsive')]. *)
Definition handleHealthCheckFailureUntilWrite (botId reason : string)
    : M (option Paused) :=
  r <- healthInfoOf botId ;;
  match r with
  | None => ret None
  | Some (h, healthInfo) =>
      whenSome (timeoutHandle healthInfo) clearTimeout ;;
      let failures := consecutiveFailures healthInfo + 1 in
      storeHealth h
        (mkHealthCheckInfo (lastCheck healthInfo) (lastResponse healthInfo)
           failures false (healthCheckId healthInfo) None) ;;
      addLog botId lvl_warn
        ("Health check failed: " +:+ reason +:+ " (failures: "
           +:+ pretty failures +:+ ")") ;;
      if bool_decide (MAX_CONSECUTIVE_FAILURES ≤ failures) then
        rows <- storage.prepareUpdate botId st_unresponsive None ;;
        ret (Some (mkPaused rows
          (addLog botId lvl_error
             ("Bot marked as unresponsive after " +:+ pretty failures
                +:+ " consecutive failures"))))
      else ret None
  end.

(** The timer of a probe fires, and its callback runs up to that read. *)
Definition probeTimeoutUntilWrite (th : handle) : M (option Paused) :=
  tm <- gets (λ s, timers s !! th) ;;
  match tm with
  | Some (mkTimer _ (HealthTimeout botId h token)) =>
      clearTimeout th ;;
      hi <- gets (λ s, healthInfos s !! h) ;;
      match hi with
      | Some healthInfo =>
          if isWaitingForResponse healthInfo
             && bool_decide (healthCheckId healthInfo = Some token)
          then handleHealthCheckFailureUntilWrite botId
                 "Health check response timeout"
          else ret None
      | None => ret None
      end
  | _ => ret None
  end.

(** Node emits ['exit'] on child [c]: the listener of [startBot] runs up
    to the read of its [await storage.updateBotStatus(botId, status)]; the
    rest of that listener and the listeners of [stopBot] follow the
    write. *)
Definition emitExitUntilWrite (c : handle) (code : option Z)
    (signal : option Signal) (rnd : Q) : M (option Paused) :=
  cp <- gets (λ s, children s !! c) ;;
  match cp with
  | Some childProcess =>
      let botId := owner childProcess in
      modify (λ s, set_runningBots (delete botId (runningBots s)) s) ;;
      modify (λ s, set_healthCheckData (delete botId (healthCheckData s)) s) ;;
      let st := if bool_decide (code = Some 0) then st_stopped else st_error in
      rows <- storage.prepareUpdate botId st None ;;
      ret (Some (mkPaused rows
        ((match truthy signal with
          | Some sg =>
              addLog botId lvl_warn
                ("Bot process terminated by signal: " +:+ sg)
          | None =>
              addLog botId lvl_info
                ("Bot process exited with code: " +:+ showCode code)
          end) ;;
         (if crashedUnexpectedly code signal
          then scheduleSmartRetry botId rnd
          else ret tt) ;;
         sc <- stopCallOf c ;;
         whenSome sc (λ call,
           (if onExitAttached call then
              updateStopCall c detachOnExit ;;
              stopOnExit botId c code signal
            else ret tt) ;;
           whenSome (clearOnExit call) (λ th,
             clearTimeout th ;;
             updateStopCall c (setClearOnExit None))) ;;
         resume c)))
  | None => ret None
  end.

(** Two listeners, the second started while the first waits for its read:
    both have read the rows before either writes them. *)
Definition overlapped (first second : M (option Paused)) : M unit :=
  p1 <- first ;;
  p2 <- second ;;
  writeOf p1 ;;
  writeOf p2 ;;
  restOf p1 ;;
  restOf p2.

(** *** Predicates on states *)

(** A handler keeps a property of the state. *)
Definition preserves {A} (P : Manager → Prop) (c : M A) : Prop :=
  ∀ s, P s → P (exec c s).

(** No retry record counts more attempts than the cap. *)
Definition attemptsBounded (s : Manager) : Prop :=
  map_Forall (λ _ info, 0 ≤ attempts info ≤ MAX_RETRY_ATTEMPTS) (retryInfos s).

(** Every stored log entry went out as a ['log'] event. *)
Definition logsWereEmitted (s : Manager) : Prop :=
  ∀ botId entry,
    entry ∈ default [] (logs s !! botId) → (botId, entry) ∈ emitted s.

(** What holds of the children and of the signals delivered to them. *)
Definition signalledAreFlagged (s : Manager) : Prop :=
  ∀ c sig, (c, sig) ∈ signals s → killed <$> children s !! c = Some true.

Definition oneSignalEach (s : Manager) : Prop := NoDup (signals s).*1.

Definition registeredAreUnflagged (s : Manager) : Prop :=
  ∀ id c p, runningBots s !! id = Some c → children s !! c = Some p →
            killed p = false.

Definition registeredOnce (s : Manager) : Prop :=
  ∀ id1 id2 c, runningBots s !! id1 = Some c → runningBots s !! id2 = Some c →
               id1 = id2.

Definition registeredAllocated (s : Manager) : Prop :=
  ∀ id c, runningBots s !! id = Some c → (c < nextHandle s)%nat.

Definition childrenAllocated (s : Manager) : Prop :=
  ∀ c, is_Some (children s !! c) → (c < nextHandle s)%nat.

Definition stoppedAreUnregistered (s : Manager) : Prop :=
  ∀ c, is_Some (stopCalls s !! c) →
       (c < nextHandle s)%nat ∧ ∀ id, runningBots s !! id ≠ Some c.

Definition supervised (s : Manager) : Prop :=
  signalledAreFlagged s ∧ oneSignalEach s ∧ registeredAreUnflagged s ∧
  registeredOnce s ∧ registeredAllocated s ∧ childrenAllocated s ∧
  stoppedAreUnregistered s.

Definition knownSignals (s : Manager) : Prop :=
  ∀ c sig, (c, sig) ∈ signals s → sig = "SIGTERM" ∨ sig = "SIGKILL".


(** What a stop may do to the table of running bots and to the children:
    entries go, objects stay. *)
Definition shrinks (s0 s : Manager) : Prop :=
  runningBots s ⊆ runningBots s0 ∧
  ∀ c, is_Some (children s0 !! c) → is_Some (children s !! c).

(** The row that [recoverRunningBots] leaves of a row found running. *)
Definition resetRow (t : Z) (bot : Bot) : Bot :=
  mkBot (name bot) (mainFile bot) st_stopped (processId bot) t.

(** The timer of the retry record at [r]. *)
Definition retryTimerAt (infos : gmap handle RetryInfo) (r : handle)
    : option handle :=
  infos !! r ≫= retryTimeoutHandle.

(** A token as [generateHealthCheckId] makes them: not empty and without
    white space. *)
Definition noSpace (s : string) : Prop :=
  s ≠ "" ∧ Forall (λ c, Ascii.is_space c = false) (Str.chars s).

(** *** Further states of the run *)

Module Cases.

(** A Python bot beside the bot of the scenario. *)
Definition rows : gmap string Bot :=
  <["bot-2" := mkBot "Py" "main.py" st_stopped None 0]> Scenario.rows.

Definition boot : Manager := emptyManager rows 1000.

(** A launch that finds no main file. *)
Definition noMainFile : LaunchEnv := mkLaunchEnv false false None false.

(** A child whose stdin is closed, probed a minute after its start. *)
Definition mute : LaunchEnv := mkLaunchEnv true false (Some 4243) false.

Definition muteProbed : Manager :=
  exec (tick 60000 ;; performBotHealthCheck "bot-1" "hc_a")
    (exec (startBot "bot-1" mute) Scenario.boot).

(** The bot of the scenario exits while its first probe is outstanding. *)
Definition exitedUnanswered : Manager :=
  exec (emitExit 0 (Some 0) None (1 # 2)) Scenario.probed1.

End Cases.

(** Two bots at a time: the bot of the scenario (child 0) and the Python
    bot (child 2, system Python) are started and marked as running. *)
Module Pair.

Definition launch : LaunchEnv := mkLaunchEnv true false (Some 4243) true.

Definition started : Manager :=
  run [CallStart "bot-1" Scenario.launch; CallStart "bot-2" launch]
    Cases.boot.

Definition running : Manager :=
  run [Elapse 1000; TimerDue 1 Scenario.launch Delivered;
       TimerDue 3 launch Delivered] started.

(** Two rounds of probes (records 4 and 6) that neither bot answers. *)
Definition failedTwice : Manager :=
  run [Elapse 60000; ProbeDue "bot-1" "hc_a1"; ProbeDue "bot-2" "hc_a2";
       Elapse 30000; TimerDue 5 launch Delivered; TimerDue 7 launch Delivered;
       Elapse 30000; ProbeDue "bot-1" "hc_b1"; ProbeDue "bot-2" "hc_b2";
       Elapse 30000; TimerDue 8 launch Delivered; TimerDue 9 launch Delivered]
    running.

(** The third round is outstanding (timers 10 and 11) and its 30 seconds
    have passed. *)
Definition probedAgain : Manager :=
  run [Elapse 30000; ProbeDue "bot-1" "hc_c1"; ProbeDue "bot-2" "hc_c2";
       Elapse 30000] failedTwice.

End Pair.

(** * Properties *)

Example trim_ex :
  Str.trim "  __HEALTH_CHECK_RESPONSE__:hc_1_a " = "__HEALTH_CHECK_RESPONSE__:hc_1_a".
Proof. reflexivity. Qed.

Example splitLines_ex : Str.splitLines "a
b
" = ["a"; "b"; ""].
Proof. reflexivity. Qed.

Example extname_ex :
  Str.extname "index.JS" = ".JS" ∧ Str.extname ".env" = "" ∧
  Str.extname "bot.tar.py" = ".py" ∧ Str.extname "main" = "" ∧
  Str.extname "src.d/run" = "" ∧ Str.extname ".." = "" ∧
  Str.extname "a." = ".".
Proof. repeat split; reflexivity. Qed.

Example responseToken_ex :
  responseToken "x __HEALTH_CHECK_RESPONSE__: __HEALTH_CHECK_RESPONSE__:hc_1_a b"
    = Some "hc_1_a" ∧
  responseToken "__HEALTH_CHECK_RESPONSE__:" = None.
Proof. split; reflexivity. Qed.

Example scenario_probed3 :
  healthCheckData Scenario.probed3 !! "bot-1" = Some 2%nat ∧
  healthInfos Scenario.probed3 !! 2%nat
    = Some (mkHealthCheckInfo 182000 None 2 true (Some "hc_182000_c") (Some 5%nat)) ∧
  status <$> bots Scenario.probed3 !! "bot-1" = Some st_running.
Proof. vm_compute. done. Qed.

(** ** Facts about the string functions *)

Section StringFacts.
Import Str.

Lemma chars_ofChars l : chars (ofChars l) = l.
Proof. apply String.list_ascii_of_string_of_list_ascii. Qed.

Lemma takeWhile_Forall p l : Forall (λ c, p c = true) (takeWhile p l).
Proof.
  induction l as [|c l IH]; cbn; [constructor|].
  destruct (p c) eqn:E; constructor; assumption.
Qed.

Lemma nonSpaceRun_spec l r :
  nonSpaceRun l = Some r → Forall (λ c, Ascii.is_space c = false) r.
Proof.
  unfold nonSpaceRun. intros H.
  pose proof (takeWhile_Forall (λ c, negb (Ascii.is_space c)) l) as F.
  destruct (takeWhile _ l); [discriminate|]. injection H as <-.
  eapply Forall_impl; [exact F|]. intros c Hc. cbn in Hc.
  by apply negb_true_iff.
Qed.

(** A match of the pattern lies in a string that contains the marker, and
    its capture holds no white space. *)
Lemma matchAfter_spec marker l r :
  matchAfter marker l = Some r →
  includesChars marker l = true ∧ Forall (λ c, Ascii.is_space c = false) r.
Proof.
  induction l as [|c l IH]; cbn [matchAfter includesChars].
  - destruct (startsWith marker []) eqn:E; cbn.
    + destruct (nonSpaceRun _) eqn:R; [|discriminate].
      intros [= <-]. split; [done|]. by eapply nonSpaceRun_spec.
    + discriminate.
  - destruct (startsWith marker (c :: l)) eqn:E.
    + destruct (nonSpaceRun _) eqn:R.
      * intros [= <-]. split; [done|]. by eapply nonSpaceRun_spec.
      * intros H. destruct (IH H) as [_ F]. by split.
    + intros H. destruct (IH H) as [I F]. by split.
Qed.

Lemma trimStart_nonspace l :
  Forall (λ c, Ascii.is_space c = false) l → trimStart l = l.
Proof.
  intros F. destruct F as [|c l Hc F]; [done|].
  unfold trimStart. cbn. by rewrite Hc.
Qed.

Lemma trim_nonspace l :
  Forall (λ c, Ascii.is_space c = false) l → trim (ofChars l) = ofChars l.
Proof.
  intros F. unfold trim. rewrite chars_ofChars.
  rewrite (trimStart_nonspace l) by done.
  rewrite trimStart_nonspace by (by apply Forall_reverse).
  by rewrite reverse_involutive.
Qed.

End StringFacts.

(** A line from which a token is extracted passes the [includes] test of
    the [stdout] listener, and [trim] leaves the token as it is. *)
Lemma responseToken_spec message tok :
  responseToken message = Some tok →
  isHealthCheckResponse message = true ∧ Str.trim tok = tok ∧ message ≠ "".
Proof.
  unfold responseToken, isHealthCheckResponse, Str.includes.
  destruct (Str.matchAfter _ _) as [r|] eqn:E; [|discriminate].
  intros [= <-]. apply matchAfter_spec in E as [I F].
  split; [done|]. split; [by apply trim_nonspace|].
  intros ->. discriminate.
Qed.

(** ** Health monitor *)

(** Unfold the methods of the row storage down to the monad. *)
Ltac unfold_storage :=
  unfold storage.updateBotStatus, storage.prepareUpdate,
    storage.finishUpdate, storage.getBot, storage.deleteBot,
    storage.readBots, storage.writeBots, dateNow, bind, gets, modify, ret.

(** [handleHealthCheckSuccess] returns at its first test when the token is
    not the one stored in the record. *)
Lemma handleHealthCheckSuccess_stale (s : Manager) (botId tok : string) h info :
  healthCheckData s !! botId = Some h →
  healthInfos s !! h = Some info →
  healthCheckId info ≠ Some tok →
  handleHealthCheckSuccess botId tok s = (tt, s).
Proof.
  intros Hd Hi Hne.
  unfold handleHealthCheckSuccess, bind, healthInfoOf, gets.
  rewrite Hd. cbn. rewrite Hi. cbn.
  by rewrite bool_decide_eq_true_2.
Qed.

(** C7. For a process with an outstanding probe, an output line whose token
    is not the outstanding one is discarded: the manager is left exactly as
    it was, so the record still awaits its response, its failure count and
    its timeout handle are the same, no timer is cancelled and the stored
    status is not touched. *)
Theorem stale_response_is_discarded
    (s : Manager) (botId line tok : string) (h : handle)
    (info : HealthCheckInfo) :
  healthCheckData s !! botId = Some h →
  healthInfos s !! h = Some info →
  isWaitingForResponse info = true →
  responseToken (Str.trim line) = Some tok →
  healthCheckId info ≠ Some tok →
  let s' := exec (onStdoutLine botId line) s in
  s' = s ∧
  isWaitingForResponse <$> healthInfos s' !! h = Some true ∧
  consecutiveFailures <$> healthInfos s' !! h = Some (consecutiveFailures info) ∧
  timeoutHandle <$> healthInfos s' !! h = Some (timeoutHandle info) ∧
  timers s' = timers s ∧
  bots s' = bots s.
Proof.
  intros Hd Hi Hw Htok Hne s'.
  assert (s' = s) as ->.
  { subst s'. unfold exec, onStdoutLine.
    destruct (responseToken_spec _ _ Htok) as (Hresp & Htrim & Hmsg).
    rewrite bool_decide_eq_false_2 by done. rewrite Hresp.
    unfold processHealthCheckResponse. rewrite Htok, Htrim.
    by rewrite (handleHealthCheckSuccess_stale s botId tok h info). }
  rewrite Hi. cbn. by rewrite Hw.
Qed.

Lemma stale_response_is_discarded_witness :
  let s := Scenario.probed3 in
  let s' := exec (onStdoutLine "bot-1" "  __HEALTH_CHECK_RESPONSE__:hc_122000_b") s in
  s' = s ∧
  isWaitingForResponse <$> healthInfos s' !! 2%nat = Some true ∧
  consecutiveFailures <$> healthInfos s' !! 2%nat = Some 2 ∧
  timeoutHandle <$> healthInfos s' !! 2%nat = Some (Some 5%nat) ∧
  timers s' = timers s ∧
  bots s' = bots s.
Proof.
  apply (stale_response_is_discarded Scenario.probed3 "bot-1"
           "  __HEALTH_CHECK_RESPONSE__:hc_122000_b" "hc_122000_b" 2%nat
           (mkHealthCheckInfo 182000 None 2 true (Some "hc_182000_c")
              (Some 5%nat)));
    vm_compute; congruence.
Defined.

(** A failure that brings the count to the threshold marks the bot as
    unresponsive. *)
Lemma handleHealthCheckFailure_threshold
    (s : Manager) (botId reason : string) (h : handle)
    (info : HealthCheckInfo) (bot : Bot) :
  healthCheckData s !! botId = Some h →
  healthInfos s !! h = Some info →
  bots s !! botId = Some bot →
  MAX_CONSECUTIVE_FAILURES ≤ consecutiveFailures info + 1 →
  let s1 := exec (handleHealthCheckFailure botId reason) s in
  healthInfos s1 !! h
    = Some (mkHealthCheckInfo (lastCheck info) (lastResponse info)
              (consecutiveFailures info + 1) false (healthCheckId info) None) ∧
  status <$> bots s1 !! botId = Some st_unresponsive ∧
  healthCheckData s1 = healthCheckData s ∧
  runningBots s1 = runningBots s.
Proof.
  intros Hd Hi Hb Hreach.
  unfold exec, handleHealthCheckFailure, bind, healthInfoOf, gets.
  rewrite Hd. cbn. rewrite Hi. cbn.
  rewrite bool_decide_eq_true_2 by done.
  destruct (timeoutHandle info); unfold_storage; cbn; rewrite Hb; cbn;
    rewrite !lookup_insert_eq; done.
Qed.

(** A failure below the threshold only counts. *)
Lemma handleHealthCheckFailure_below
    (s : Manager) (botId reason : string) (h : handle)
    (info : HealthCheckInfo) :
  healthCheckData s !! botId = Some h →
  healthInfos s !! h = Some info →
  consecutiveFailures info + 1 < MAX_CONSECUTIVE_FAILURES →
  let s1 := exec (handleHealthCheckFailure botId reason) s in
  consecutiveFailures <$> healthInfos s1 !! h
    = Some (consecutiveFailures info + 1) ∧
  bots s1 = bots s.
Proof.
  intros Hd Hi Hlt.
  unfold exec, handleHealthCheckFailure, bind, healthInfoOf, gets.
  rewrite Hd. cbn. rewrite Hi. cbn.
  rewrite bool_decide_eq_false_2 by lia.
  destruct (timeoutHandle info); cbn; rewrite !lookup_insert_eq; done.
Qed.

(** An accepted response clears the record and takes an unresponsive bot
    back to running. *)
Lemma handleHealthCheckSuccess_accepted
    (s : Manager) (botId tok : string) (h : handle)
    (info : HealthCheckInfo) (bot : Bot) :
  healthCheckData s !! botId = Some h →
  healthInfos s !! h = Some info →
  healthCheckId info = Some tok →
  bots s !! botId = Some bot →
  let s2 := exec (handleHealthCheckSuccess botId tok) s in
  healthInfos s2 !! h
    = Some (mkHealthCheckInfo (lastCheck info) (Some (now s)) 0 false
              (healthCheckId info) None) ∧
  (∀ th, timeoutHandle info = Some th → timers s2 !! th = None) ∧
  (status bot = st_unresponsive →
     status <$> bots s2 !! botId = Some st_running) ∧
  (status bot ≠ st_unresponsive → bots s2 = bots s).
Proof.
  intros Hd Hi Htok Hb.
  unfold exec, handleHealthCheckSuccess, bind, healthInfoOf, gets.
  rewrite Hd. cbn. rewrite Hi. cbn.
  rewrite bool_decide_eq_false_2 by (intros Hne; by apply Hne).
  unfold_storage.
  destruct (timeoutHandle info) as [th|]; cbn; rewrite Hb; cbn;
    destruct (bool_decide_reflect (status bot = st_unresponsive)) as [Hu|Hu];
    cbn; rewrite ?Hb; cbn; rewrite ?lookup_insert_eq;
    (split_and!; [done | intros ? [= <-]; rewrite ?lookup_delete_eq; done
                 | done | done]).
Qed.

(** The two handlers, each running to its end with no other listener in
    between.  When a failure brings [consecutiveFailures] to
    [MAX_CONSECUTIVE_FAILURES] the stored status becomes [unresponsive]; and
    when a response carrying the stored token arrives for a bot whose status
    is [unresponsive], [consecutiveFailures] is reset to 0 and the status
    becomes [running]. *)
Theorem unresponsive_at_threshold_and_recovery
    (s : Manager) (botId reason : string) (h : handle)
    (info : HealthCheckInfo) (bot : Bot)
    (Hd : healthCheckData s !! botId = Some h)
    (Hi : healthInfos s !! h = Some info)
    (Hb : bots s !! botId = Some bot)
    (Hreach : consecutiveFailures info + 1 = MAX_CONSECUTIVE_FAILURES)
    (s' : Manager) (tok : string) (h' : handle)
    (info' : HealthCheckInfo) (bot' : Bot)
    (Hd' : healthCheckData s' !! botId = Some h')
    (Hi' : healthInfos s' !! h' = Some info')
    (Hb' : bots s' !! botId = Some bot')
    (Hst : status bot' = st_unresponsive)
    (Htok : healthCheckId info' = Some tok) :
  let s1 := exec (handleHealthCheckFailure botId reason) s in
  let s2 := exec (handleHealthCheckSuccess botId tok) s' in
  consecutiveFailures <$> healthInfos s1 !! h = Some MAX_CONSECUTIVE_FAILURES ∧
  status <$> bots s1 !! botId = Some st_unresponsive ∧
  consecutiveFailures <$> healthInfos s2 !! h' = Some 0 ∧
  isWaitingForResponse <$> healthInfos s2 !! h' = Some false ∧
  status <$> bots s2 !! botId = Some st_running.
Proof.
  intros s1 s2.
  destruct (handleHealthCheckFailure_threshold s botId reason h info bot)
    as (F1 & F2 & _); try done; [lia|].
  destruct (handleHealthCheckSuccess_accepted s' botId tok h' info' bot')
    as (S1 & _ & S2 & _); try done.
  subst s1 s2. rewrite F1, S1. cbn. rewrite Hreach.
  split_and!; auto.
Qed.

Lemma unresponsive_at_threshold_and_recovery_witness :
  let s1 := exec (handleHealthCheckFailure "bot-1" "Health check timeout")
              Scenario.probed3 in
  let s2 := exec (handleHealthCheckSuccess "bot-1" "hc_182000_c") s1 in
  consecutiveFailures <$> healthInfos s1 !! 2%nat = Some 3 ∧
  status <$> bots s1 !! "bot-1" = Some st_unresponsive ∧
  consecutiveFailures <$> healthInfos s2 !! 2%nat = Some 0 ∧
  isWaitingForResponse <$> healthInfos s2 !! 2%nat = Some false ∧
  status <$> bots s2 !! "bot-1" = Some st_running.
Proof.
  apply (unresponsive_at_threshold_and_recovery
           Scenario.probed3 "bot-1" "Health check timeout" 2%nat
           (mkHealthCheckInfo 182000 None 2 true (Some "hc_182000_c")
              (Some 5%nat))
           (mkBot "Echo" "index.js" st_running (Some "4242") 2000)
           eq_refl eq_refl eq_refl eq_refl
           (exec (handleHealthCheckFailure "bot-1" "Health check timeout")
              Scenario.probed3)
           "hc_182000_c" 2%nat
           (mkHealthCheckInfo 182000 None 3 false (Some "hc_182000_c") None)
           (mkBot "Echo" "index.js" st_unresponsive (Some "4242") 182000)
           eq_refl eq_refl eq_refl eq_refl eq_refl).
Defined.

(** ** Running handlers symbolically *)

Lemma exec_bind {A B} (a : M A) (k : A → M B) (s : Manager) :
  exec (bind a k) s = exec (k (result a s)) (exec a s).
Proof. unfold exec, result, bind. by destruct (a s). Qed.

Lemma exec_gets_bind {A B} (f : Manager → A) (k : A → M B) (s : Manager) :
  exec (bind (gets f) k) s = exec (k (f s)) s.
Proof. reflexivity. Qed.

(** Unfold the monad, the collaborators and the record accessors, and
    nothing of the maps. *)
Declare Reduction handlers :=
  cbv beta iota zeta delta
    [exec result bind ret gets modify whenSome dateNow fst snd
     stopCallOf updateStopCall storeChild childOf healthInfoOf retryInfoOf
     storeHealth storeRetry
     storage.readBots storage.writeBots storage.prepareUpdate
     storage.finishUpdate storage.updateBotStatus storage.getBot
     storage.deleteBot storage.orElse
     LogStorage.getLogs LogStorage.addLog LogStorage.clearLogs
     LogStorage.deleteBotLogs
     addLog setTimeout clearTimeout fresh kill
     mbind option_bind fmap option_fmap option_map default from_option id
     negb andb orb
     runningBots healthCheckData retryData children healthInfos retryInfos
     stopCalls timers bots logs emitted signals stdinWrites nextHandle now
     set_runningBots set_healthCheckData set_retryData set_children
     set_healthInfos set_retryInfos set_stopCalls set_timers set_bots
     set_logs set_emitted set_signals set_stdinWrites set_nextHandle set_now
     isResolved resolved onExitAttached onErrorAttached clearOnExit
     awaitedByDelete markResolved resolveWith detachOnExit detachOnError
     setClearOnExit setAwaited
     owner spawnfile pid killed stdinUsable task delay
     attempts lastAttempt nextRetryAt retryTimeoutHandle
     lastCheck lastResponse consecutiveFailures isWaitingForResponse
     healthCheckId timeoutHandle name mainFile status processId lastActivity
     mainFileExists venvPythonExists spawnedPid spawnedStdin].

Ltac mred :=
  match goal with
  | |- ?g => let g' := eval handlers in g in change g'
  end.

Tactic Notation "mred" "in" hyp(H) :=
  let t := type of H in
  let t' := eval handlers in t in
  change t' in H.

(** Read the lookups that the hypotheses give. *)
Ltac mlook :=
  repeat match goal with
         | H : ?m !! ?k = _ |- context [?m !! ?k] => rewrite H
         end.

Ltac mrun :=
  repeat (progress
            (mred; mlook;
             rewrite ?lookup_alter_eq, ?lookup_insert_eq, ?lookup_delete_eq)).

Lemma addLog_spec (s : Manager) botId lvl msg :
  let s' := exec (addLog botId lvl msg) s in
  let entry := mkLogEntry (now s) lvl msg in
  s' = set_emitted (emitted s ++ [(botId, entry)])
         (set_logs
            (<[botId := LogStorage.push entry (default [] (logs s !! botId))]>
               (logs s)) s).
Proof. destruct s. reflexivity. Qed.

(** ** Rounding to a double *)

Section DoubleFacts.
Local Open Scope Q_scope.

Lemma two_pow_pos (k : Z) : 0 < 2 ^ k.
Proof. by apply Qpower_0_lt. Qed.

Lemma two_pow_plus (a b : Z) : 2 ^ (a + b) == 2 ^ a * 2 ^ b.
Proof. by apply Qpower_plus. Qed.

Lemma two_pow_succ (a : Z) : 2 ^ (a + 1) == 2 * 2 ^ a.
Proof. rewrite two_pow_plus. change (2 ^ 1) with 2. ring. Qed.

Lemma two_pow_le (a b : Z) : (a ≤ b)%Z → 2 ^ a <= 2 ^ b.
Proof. intros. by apply Qpower_le_compat_l. Qed.

Lemma two_pow_lt (a b : Z) : (a < b)%Z → 2 ^ a < 2 ^ b.
Proof. intros. by apply Qpower_lt_compat_l. Qed.

Lemma two_pow_lt_inv (a b : Z) : 2 ^ a < 2 ^ b → (a < b)%Z.
Proof. intros. by apply (Qpower_lt_compat_l_inv 2). Qed.

Lemma two_pow_Z (a : Z) : (0 ≤ a)%Z → inject_Z (2 ^ a) == 2 ^ a.
Proof. intros. by rewrite Zpower_Qpower. Qed.

Lemma Zle_of_Qlt_half (a b : Z) : inject_Z a < inject_Z b + (1 # 2) → (a ≤ b)%Z.
Proof.
  intros H. apply Z.lt_succ_r. rewrite Zlt_Qlt. unfold Z.succ.
  rewrite inject_Z_plus. change (inject_Z 1) with 1. lra.
Qed.

Lemma roundHalfEven_bounds (q : Q) :
  (Qfloor q ≤ Double.roundHalfEven q ≤ Qfloor q + 1)%Z.
Proof.
  unfold Double.roundHalfEven. cbn zeta.
  destruct (_ ?= _); [destruct (Z.even _)|..]; lia.
Qed.

Lemma roundHalfEven_ge (n : Z) (q : Q) :
  inject_Z n <= q → (n ≤ Double.roundHalfEven q)%Z.
Proof.
  intros H. apply Qfloor_resp_le in H. rewrite Qfloor_Z in H.
  pose proof (roundHalfEven_bounds q). lia.
Qed.

Lemma roundHalfEven_below_half (n : Z) (q : Q) :
  q < inject_Z n + (1 # 2) → (Double.roundHalfEven q ≤ n)%Z.
Proof.
  intros H. pose proof (Qfloor_le q) as F.
  assert (Qfloor q ≤ n)%Z as L by (apply Zle_of_Qlt_half; lra).
  pose proof (roundHalfEven_bounds q) as B.
  destruct (decide (Qfloor q = n)) as [E|E]; [|lia].
  unfold Double.roundHalfEven. cbn zeta. rewrite E.
  assert (q - inject_Z n < 1 # 2) as ->%Qlt_alt by lra. lia.
Qed.

Lemma roundHalfEven_le (n : Z) (q : Q) :
  q <= inject_Z n → (Double.roundHalfEven q ≤ n)%Z.
Proof. intros H. apply roundHalfEven_below_half. lra. Qed.

Lemma roundHalfEven_error (q : Q) :
  Qabs (inject_Z (Double.roundHalfEven q) - q) <= 1 # 2.
Proof.
  pose proof (Qfloor_le q) as F. pose proof (Qlt_floor q) as G.
  rewrite inject_Z_plus in G. change (inject_Z 1) with 1 in G.
  apply Qabs_Qle_condition.
  unfold Double.roundHalfEven. cbn zeta.
  destruct (Qcompare_spec (q - inject_Z (Qfloor q)) (1 # 2)) as [E|E|E];
    [destruct (Z.even _)|..];
    rewrite ?inject_Z_plus; change (inject_Z 1) with 1; lra.
Qed.


Lemma Qmake_bounds (n d : positive) (a b : Z) :
  (2 ^ a ≤ Z.pos n < 2 ^ (a + 1))%Z → (2 ^ b ≤ Z.pos d < 2 ^ (b + 1))%Z →
  (0 ≤ a)%Z → (0 ≤ b)%Z →
  2 ^ (a - b - 1) < Z.pos n # d ∧ Z.pos n # d < 2 ^ (a - b + 1).
Proof.
  intros [N1 N2] [D1 D2] Ha Hb.
  rewrite Zle_Qle in N1, D1. rewrite Zlt_Qlt in N2, D2.
  rewrite two_pow_Z in N1, N2, D1, D2 by lia.
  rewrite two_pow_succ in N2, D2.
  pose proof (two_pow_pos a) as Pa. pose proof (two_pow_pos b) as Pb.
  pose proof (two_pow_pos (a - b - 1)) as Pl.
  assert (E1 : 2 ^ (a - b - 1) * (2 * 2 ^ b) == 2 ^ a).
  { rewrite <- two_pow_succ, <- two_pow_plus. by replace (a - b - 1 + (b + 1))%Z with a by lia. }
  assert (E2 : 2 ^ (a - b + 1) * 2 ^ b == 2 * 2 ^ a).
  { rewrite <- two_pow_succ, <- two_pow_plus. by replace (a - b + 1 + b)%Z with (a + 1)%Z by lia. }
  pose proof (two_pow_pos (a - b + 1)) as Pu.
  set (q := Z.pos n # d).
  assert (Eq : q * inject_Z (Z.pos d) == inject_Z (Z.pos n)).
  { unfold q. rewrite (Qmake_Qdiv (Z.pos n) d). field.
    intros H. rewrite H in D1. lra. }
  set (L := 2 ^ (a - b - 1)) in *. set (U := 2 ^ (a - b + 1)) in *.
  set (A := 2 ^ a) in *. set (B := 2 ^ b) in *.
  set (dn := inject_Z (Z.pos n)) in *. set (dd := inject_Z (Z.pos d)) in *.
  clearbody q L U A B dn dd.
  split.
  - destruct (Qlt_le_dec L q) as [|C]; [done|exfalso].
    assert (q * dd <= L * dd) by (apply Qmult_le_compat_r; lra).
    assert (L * dd < L * (2 * B)) by (apply Qmult_lt_l; lra).
    lra.
  - destruct (Qlt_le_dec q U) as [|C]; [done|exfalso].
    assert (U * dd <= q * dd) by (apply Qmult_le_compat_r; lra).
    assert (U * B <= U * dd) by (apply Qmult_le_l; lra).
    lra.
Qed.

(** The exponent computed for a positive number is the one of its binade,
    and -1022 for a subnormal. *)
Lemma exponent_spec (q : Q) :
  0 < q →
  let e := Double.exponent q in
  (-1022 ≤ e)%Z ∧ q < 2 ^ (e + 1) ∧ ((-1022 < e)%Z → 2 ^ e <= q).
Proof.
  intros Hq. destruct q as [[|n|n] d]; [by vm_compute in Hq| |by vm_compute in Hq].
  unfold Double.exponent. cbn [Qnum Qden]. cbn zeta.
  pose proof (Z.log2_spec (Z.pos n) eq_refl) as Hn.
  pose proof (Z.log2_spec (Z.pos d) eq_refl) as Hd.
  pose proof (Z.log2_nonneg (Z.pos n)) as Ha.
  pose proof (Z.log2_nonneg (Z.pos d)) as Hb.
  set (a := Z.log2 (Z.pos n)) in *. set (b := Z.log2 (Z.pos d)) in *.
  clearbody a b. unfold Z.succ in Hn, Hd.
  destruct (Qmake_bounds n d a b Hn Hd Ha Hb) as [L U].
  set (q := Z.pos n # d) in *. clearbody q.
  set (c := (a - b)%Z) in *.
  replace (a - b - 1)%Z with (c - 1)%Z in L by lia.
  replace (a - b + 1)%Z with (c + 1)%Z in U by lia.
  clearbody c. clear Hn Hd Ha Hb.
  assert (∃ e0, (if Qle_bool (2 ^ c) q then c else (c - 1)%Z) = e0 ∧
                2 ^ e0 <= q ∧ q < 2 ^ (e0 + 1)) as (e0 & -> & E1 & E2).
  { destruct (Qle_bool (2 ^ c) q) eqn:E.
    - exists c. apply Qle_bool_iff in E. done.
    - exists (c - 1)%Z. split_and!; [done|lra|].
      replace (c - 1 + 1)%Z with c by lia.
      destruct (Qlt_le_dec q (2 ^ c)) as [|C]; [done|].
      apply Qle_bool_iff in C. congruence. }
  destruct (Z.max_spec (-1022) e0) as [[Hlt ->]|[Hle ->]].
  - split_and!; [lia|done|done].
  - split_and!; [lia| |lia].
    eapply Qlt_le_trans; [exact E2|]. apply two_pow_le. lia.
Qed.

Lemma exponent_unique (q : Q) (c : Z) :
  0 < q → (-1022 ≤ c)%Z → 2 ^ c <= q → q < 2 ^ (c + 1) →
  Double.exponent q = c.
Proof.
  intros Hq Hc L U. destruct (exponent_spec q Hq) as (E1 & E2 & E3).
  set (e := Double.exponent q) in *. clearbody e.
  destruct (Z.lt_trichotomy e c) as [H|[H|H]]; [exfalso|done|exfalso].
  - assert (2 ^ c < 2 ^ (e + 1)) as ?%two_pow_lt_inv by lra. lia.
  - assert (2 ^ e < 2 ^ (c + 1)) as ?%two_pow_lt_inv
      by (specialize (E3 ltac:(lia)); lra).
    lia.
Qed.

Lemma exponent_below (q : Q) (c : Z) :
  0 < q → (-1022 ≤ c)%Z → q < 2 ^ (c + 1) → (Double.exponent q ≤ c)%Z.
Proof.
  intros Hq Hc U. destruct (exponent_spec q Hq) as (E1 & E2 & E3).
  set (e := Double.exponent q) in *. clearbody e.
  destruct (Z.le_gt_cases e c) as [|H]; [done|exfalso].
  assert (2 ^ e < 2 ^ (c + 1)) as ?%two_pow_lt_inv
    by (specialize (E3 ltac:(lia)); lra).
  lia.
Qed.

(** The rounding of a positive number, on the grid of its binade. *)
Lemma round_positive (q : Q) :
  0 < q →
  Double.round q
  == inject_Z (Double.roundHalfEven (q * 2 ^ (52 - Double.exponent q)))
     * 2 ^ (Double.exponent q - 52).
Proof.
  intros Hq. unfold Double.round. rewrite Qred_correct.
  destruct q as [[|n|n] d]; [by vm_compute in Hq| |by vm_compute in Hq].
  reflexivity.
Qed.

Lemma round_zero (q : Q) : q == 0 → Double.round q == 0.
Proof.
  intros Hq. unfold Double.round. rewrite Qred_correct.
  destruct q as [[|n|n] d]; [reflexivity|by vm_compute in Hq..].
Qed.


(** A representable number on a grid that is at least as fine as its own
    is an integer multiple of the grid step. *)
Lemma on_grid (m k P : Z) :
  (0 ≤ k + P)%Z →
  inject_Z (m * 2 ^ (k + P)) * 2 ^ (- P) == inject_Z m * 2 ^ k.
Proof.
  intros H. rewrite inject_Z_mult, two_pow_Z by done.
  rewrite <- Qmult_assoc, <- two_pow_plus.
  by replace (k + P + - P)%Z with k by lia.
Qed.

Lemma scaled_back (x : Q) (P : Z) : x * 2 ^ P * 2 ^ (- P) == x.
Proof.
  rewrite <- Qmult_assoc, <- two_pow_plus, Z.add_opp_diag_r.
  change (2 ^ 0) with 1. ring.
Qed.

Lemma scale_le (a b : Q) (P : Z) : a <= b → a * 2 ^ P <= b * 2 ^ P.
Proof.
  intros. apply Qmult_le_compat_r; [done|].
  apply Qlt_le_weak, two_pow_pos.
Qed.

Lemma scale_lt (a b : Q) (P : Z) : a < b → a * 2 ^ P < b * 2 ^ P.
Proof. intros. apply Qmult_lt_r; [apply two_pow_pos|done]. Qed.

(** A number with a 53-bit mantissa is at most [2 ^ (53 + k)]. *)
Lemma representable_bound (m k : Z) :
  (Z.abs m ≤ 2 ^ 53)%Z → inject_Z m * 2 ^ k <= 2 ^ (53 + k).
Proof.
  intros H. rewrite two_pow_plus. apply scale_le.
  rewrite <- two_pow_Z by done. rewrite <- Zle_Qle. lia.
Qed.

(** Rounding does not cross a representable number: from below ... *)
Lemma round_ge (g x : Q) :
  Double.representable g → 0 <= x → g <= x → g <= Double.round x.
Proof.
  intros (m & k & Hk & Hm & Hg) H0 Hgx.
  destruct (Qlt_le_dec 0 x) as [Hx|Hx];
    [|rewrite round_zero by lra; lra].
  rewrite (round_positive x Hx).
  destruct (exponent_spec x Hx) as (E1 & E2 & E3).
  set (e := Double.exponent x) in *. clearbody e.
  replace (e - 52)%Z with (- (52 - e))%Z by lia.
  set (P := (52 - e)%Z) in *.
  destruct (Z.le_gt_cases 0 (k + P)) as [Hf|Hf].
  - rewrite Hg, <- (on_grid m k P Hf). apply scale_le.
    rewrite <- Zle_Qle. apply roundHalfEven_ge.
    rewrite <- (scaled_back (inject_Z _) (- P)), Z.opp_involutive.
    apply scale_le. rewrite on_grid by done. lra.
  - specialize (E3 ltac:(lia)).
    apply Qle_trans with (2 ^ e).
    + rewrite Hg. eapply Qle_trans; [by apply representable_bound|].
      apply two_pow_le. lia.
    + assert (2 ^ e == inject_Z (2 ^ 52) * 2 ^ (- P)) as ->.
      { rewrite two_pow_Z, <- two_pow_plus by done.
        by replace (52 + - P)%Z with e by lia. }
      apply scale_le. rewrite <- Zle_Qle. apply roundHalfEven_ge.
      rewrite two_pow_Z by done.
      assert (2 ^ 52 == 2 ^ e * 2 ^ P) as ->.
      { rewrite <- two_pow_plus. by replace (e + P)%Z with 52%Z by lia. }
      by apply scale_le.
Qed.

(** ... and from above. *)
Lemma round_le (g x : Q) :
  Double.representable g → 0 <= x → x <= g → Double.round x <= g.
Proof.
  intros (m & k & Hk & Hm & Hg) H0 Hgx.
  destruct (Qlt_le_dec 0 x) as [Hx|Hx];
    [|rewrite round_zero by lra; lra].
  rewrite (round_positive x Hx).
  destruct (exponent_spec x Hx) as (E1 & E2 & E3).
  set (e := Double.exponent x) in *. clearbody e.
  replace (e - 52)%Z with (- (52 - e))%Z by lia.
  set (P := (52 - e)%Z) in *.
  destruct (Z.le_gt_cases 0 (k + P)) as [Hf|Hf].
  - rewrite Hg, <- (on_grid m k P Hf). apply scale_le.
    rewrite <- Zle_Qle. apply roundHalfEven_le.
    rewrite <- (scaled_back (inject_Z _) (- P)), Z.opp_involutive.
    apply scale_le. rewrite on_grid by done. lra.
  - specialize (E3 ltac:(lia)).
    assert (g <= 2 ^ e) as Hge.
    { rewrite Hg. eapply Qle_trans; [by apply representable_bound|].
      apply two_pow_le. lia. }
    apply Qle_trans with (2 ^ e); [|lra].
    assert (2 ^ e == inject_Z (2 ^ 52) * 2 ^ (- P)) as ->.
    { rewrite two_pow_Z, <- two_pow_plus by done.
      by replace (52 + - P)%Z with e by lia. }
    apply scale_le. rewrite <- Zle_Qle. apply roundHalfEven_le.
    rewrite two_pow_Z by done.
    assert (2 ^ 52 == 2 ^ e * 2 ^ P) as ->.
    { rewrite <- two_pow_plus. by replace (e + P)%Z with 52%Z by lia. }
    apply scale_le. lra.
Qed.

(** The rounding error is at most half a step of the grid. *)
Lemma round_error (x : Q) (c : Z) :
  0 <= x → (-1022 ≤ c)%Z → x < 2 ^ (c + 1) →
  Qabs (Double.round x - x) <= 2 ^ (c - 53).
Proof.
  intros H0 Hc Hlt.
  destruct (Qlt_le_dec 0 x) as [Hx|Hx].
  2:{ rewrite round_zero by lra.
      assert (x == 0) as -> by lra.
      change (Qabs (0 - 0)) with 0. apply Qlt_le_weak, two_pow_pos. }
  rewrite (round_positive x Hx).
  pose proof (exponent_below x c Hx Hc Hlt) as He.
  set (e := Double.exponent x) in *. clearbody e.
  replace (e - 52)%Z with (- (52 - e))%Z by lia.
  set (P := (52 - e)%Z) in *.
  set (y := x * 2 ^ P).
  assert (x == y * 2 ^ (- P)) as Hy by (unfold y; by rewrite scaled_back).
  clearbody y. rewrite Hy. clear Hy.
  assert (inject_Z (Double.roundHalfEven y) * 2 ^ (- P) - y * 2 ^ (- P)
          == (inject_Z (Double.roundHalfEven y) - y) * 2 ^ (- P)) as ->
    by ring.
  rewrite Qabs_Qmult, (Qabs_pos (2 ^ (- P)))
    by apply Qlt_le_weak, two_pow_pos.
  apply Qle_trans with ((1 # 2) * 2 ^ (- P)).
  - apply scale_le, roundHalfEven_error.
  - assert ((1 # 2) * 2 ^ (- P) == 2 ^ (e - 53)) as ->.
    { change (1 # 2) with (2 ^ (- 1)). rewrite <- two_pow_plus.
      by replace (-1 + - P)%Z with (e - 53)%Z by lia. }
    apply two_pow_le. lia.
Qed.

(** The largest representable number below 1. *)
Lemma representable_below_one (x : Q) :
  Double.representable x → x < 1 → x <= 1 - 2 ^ (- 53).
Proof.
  intros (m & k & Hk & Hm & Hx) H1.
  destruct (Z.le_gt_cases 0 (k + 53)) as [Hf|Hf].
  - rewrite Hx in *. rewrite <- (on_grid m k 53 Hf) in *.
    set (M := (m * 2 ^ (k + 53))%Z) in *. clearbody M.
    assert (M < 2 ^ 53)%Z as HM.
    { rewrite Zlt_Qlt.
      pose proof (scaled_back (inject_Z M) (- 53)) as S.
      change (- -53)%Z with 53%Z in S. rewrite <- S.
      rewrite two_pow_Z by done.
      apply Qlt_le_trans with (1 * 2 ^ 53); [by apply scale_lt|].
      rewrite Qmult_1_l. apply Qle_refl. }
    assert (1 - 2 ^ (-53) == inject_Z (2 ^ 53 - 1) * 2 ^ (-53)) as ->
      by reflexivity.
    apply scale_le. rewrite <- Zle_Qle. lia.
  - rewrite Hx. eapply Qle_trans; [by apply representable_bound|].
    eapply Qle_trans; [apply (two_pow_le _ (-1)); lia|]. by vm_compute.
Qed.


Lemma representable_Z (n : Z) :
  (Z.abs n ≤ 2 ^ 53)%Z → Double.representable (inject_Z n).
Proof.
  intros H. exists n, 0%Z. split_and!; [done..|].
  change (2 ^ 0) with 1. ring.
Qed.

(** Below the midpoint of two neighbours of the grid the lower one is
    taken. *)
Lemma round_below_midpoint (x : Q) (c n : Z) :
  (-1022 ≤ c)%Z → 2 ^ c <= x → x < 2 ^ (c + 1) →
  x * 2 ^ (52 - c) < inject_Z n + (1 # 2) →
  Double.round x <= inject_Z n * 2 ^ (c - 52).
Proof.
  intros Hc L U Hm.
  assert (0 < x) as Hx by (pose proof (two_pow_pos c); lra).
  rewrite (round_positive x Hx), (exponent_unique x c Hx Hc L U).
  apply scale_le. rewrite <- Zle_Qle.
  by apply roundHalfEven_below_half.
Qed.

(** [Math.random() * 1000] is below 1000 for every draw. *)
Lemma jitter_range (rnd : Q) :
  Double.representable rnd → 0 <= rnd → rnd < 1 →
  0 <= Double.round (rnd * 1000) ∧ Double.round (rnd * 1000) < 1000.
Proof.
  intros Hr H0 H1. split.
  - apply (round_ge 0); [by apply (representable_Z 0)|lra..].
  - apply representable_below_one in Hr; [|done].
    assert (rnd * 1000 <= 1000 - 1000 * 2 ^ (- 53)) as Hx by lra.
    destruct (Qlt_le_dec (rnd * 1000) 512) as [Hs|Hs].
    + apply Qle_lt_trans with 512; [|done].
      apply (round_le 512); [by apply (representable_Z 512)|lra..].
    + apply Qle_lt_trans with (inject_Z (1000 * 2 ^ 43 - 1) * 2 ^ (9 - 52));
        [|done].
      apply round_below_midpoint; [done|exact Hs| |].
      * eapply Qle_lt_trans; [exact Hx|done].
      * eapply Qle_lt_trans; [apply scale_le, Hx|done].
Qed.

Lemma jitter_error (rnd : Q) :
  0 <= rnd → rnd < 1 →
  Qabs (Double.round (rnd * 1000) - rnd * 1000) <= 2 ^ (- 44).
Proof.
  intros H0 H1. apply (round_error _ 9); [lra|done|].
  apply Qlt_trans with 1000; [lra|done].
Qed.

(** The sum of a base delay and a jitter, rounded, is between the base
    and the base plus one second. *)
Lemma delay_range (base : Z) (j : Q) :
  (0 ≤ base ≤ 2 ^ 52)%Z → 0 <= j → j <= 1000 →
  inject_Z base <= Double.round (inject_Z base + j) ∧
  Double.round (inject_Z base + j) <= inject_Z (base + 1000).
Proof.
  intros Hb H0 H1.
  assert (0 <= inject_Z base) by (rewrite <- (Zle_Qle 0); lia).
  split.
  - apply round_ge; [apply representable_Z; lia|lra..].
  - apply round_le; [apply representable_Z; lia|lra|].
    rewrite inject_Z_plus. change (inject_Z 1000) with 1000. lra.
Qed.

Lemma delay_error (base : Z) (j : Q) :
  (0 ≤ base ≤ 32000)%Z → 0 <= j → j <= 1000 →
  Qabs (Double.round (inject_Z base + j) - (inject_Z base + j))
    <= 2 ^ (- 38).
Proof.
  intros Hb H0 H1.
  assert (0 <= inject_Z base) by (rewrite <- (Zle_Qle 0); lia).
  assert (inject_Z base <= 32000) by (rewrite (Zle_Qle base 32000) in Hb; tauto).
  apply (round_error _ 15); [lra|done|].
  apply Qle_lt_trans with 33000; [lra|done].
Qed.

End DoubleFacts.

(** ** Retry scheduler *)

(** A record at the cap is dropped, and nothing else changes but the log. *)
Lemma scheduleSmartRetry_capped (s : Manager) botId rnd r info :
  retryData s !! botId = Some r →
  retryInfos s !! r = Some info →
  MAX_RETRY_ATTEMPTS ≤ attempts info →
  let s' := exec (scheduleSmartRetry botId rnd) s in
  retryData s' = delete botId (retryData s) ∧
  timers s' = timers s ∧
  retryInfos s' = retryInfos s ∧
  bots s' = bots s ∧
  runningBots s' = runningBots s ∧
  nextHandle s' = nextHandle s.
Proof.
  intros Hr Hi Hcap.
  unfold exec, scheduleSmartRetry, bind, retryInfoOf, gets.
  rewrite Hr. cbn. rewrite Hi. cbn.
  rewrite bool_decide_eq_true_2 by done. cbn. done.
Qed.

(** A record below the cap: one more attempt, and a timer at the next
    handle replaces the one the record held. *)
Lemma scheduleSmartRetry_known (s : Manager) botId rnd r info :
  retryData s !! botId = Some r →
  retryInfos s !! r = Some info →
  attempts info < MAX_RETRY_ATTEMPTS →
  let s' := exec (scheduleSmartRetry botId rnd) s in
  let th := nextHandle s in
  retryData s' = <[botId := r]> (retryData s) ∧
  retryInfos s' !! r
    = Some (mkRetryInfo (attempts info + 1) (now s)
              (Some (timeClip (Double.round
                                (inject_Z (now s) + retryDelayOf (attempts info) rnd))))
              (Some th)) ∧
  timers s' = <[th := mkTimer (retryDelayOf (attempts info) rnd) (RetryRestart botId r)]>
                (match retryTimeoutHandle info with
                 | Some old => delete old (timers s)
                 | None => timers s
                 end) ∧
  bots s' = bots s ∧
  runningBots s' = runningBots s ∧
  nextHandle s' = S th.
Proof.
  intros Hr Hi Hlt.
  unfold exec, scheduleSmartRetry, bind, retryInfoOf, gets.
  rewrite Hr. cbn. rewrite Hi. cbn.
  rewrite bool_decide_eq_false_2 by lia.
  destruct (retryTimeoutHandle info); cbn; rewrite lookup_insert_eq; done.
Qed.

(** No record: one is created with one attempt. *)
Lemma scheduleSmartRetry_fresh (s : Manager) botId rnd :
  retryData s !! botId = None →
  let s' := exec (scheduleSmartRetry botId rnd) s in
  let r := nextHandle s in
  let th := S r in
  retryData s' = <[botId := r]> (retryData s) ∧
  retryInfos s' !! r
    = Some (mkRetryInfo 1 (now s)
              (Some (timeClip (Double.round (inject_Z (now s) + retryDelayOf 0 rnd))))
              (Some th)) ∧
  timers s' = <[th := mkTimer (retryDelayOf 0 rnd) (RetryRestart botId r)]> (timers s) ∧
  bots s' = bots s ∧
  runningBots s' = runningBots s ∧
  now s' = now s ∧
  nextHandle s' = S th.
Proof.
  intros Hr.
  unfold exec, scheduleSmartRetry, bind, retryInfoOf, gets.
  rewrite Hr. cbn.
  rewrite bool_decide_eq_false_2 by (unfold MAX_RETRY_ATTEMPTS; lia).
  cbn. rewrite lookup_insert_eq. done.
Qed.

Ltac run_scheduler s botId :=
  unfold exec, scheduleSmartRetry, bind, retryInfoOf, gets;
  destruct (retryData s !! botId) as [?r|] eqn:?Hr; cbn;
  [destruct (retryInfos s !! _) as [?info|] eqn:?Hi; cbn|];
  repeat (match goal with
          | |- context [bool_decide ?P] =>
              destruct (bool_decide_reflect P); cbn
          | |- context [retryTimeoutHandle ?i] =>
              destruct (retryTimeoutHandle i); cbn
          end).

(** The scheduler touches only the retry table, the timers and the log. *)
Lemma scheduleSmartRetry_frame (s : Manager) botId rnd :
  let s' := exec (scheduleSmartRetry botId rnd) s in
  bots s' = bots s ∧ runningBots s' = runningBots s ∧
  healthCheckData s' = healthCheckData s ∧ healthInfos s' = healthInfos s ∧
  children s' = children s ∧ stopCalls s' = stopCalls s ∧
  signals s' = signals s ∧ now s' = now s.
Proof. run_scheduler s botId; done. Qed.

(** Every run of the scheduler writes one log entry. *)
Lemma scheduleSmartRetry_logs (s : Manager) botId rnd :
  length (emitted (exec (scheduleSmartRetry botId rnd) s))
    = S (length (emitted s)).
Proof.
  run_scheduler s botId; rewrite length_app; cbn; lia.
Qed.

Lemma scheduleSmartRetry_changes (s : Manager) botId rnd :
  exec (scheduleSmartRetry botId rnd) s ≠ s.
Proof.
  intros E. pose proof (scheduleSmartRetry_logs s botId rnd) as L.
  rewrite E in L. lia.
Qed.

(** C3, as the code has it, for draws of [Math.random]: doubles in
    [0, 1).  A record whose [attempts] has reached [MAX_RETRY_ATTEMPTS] is
    discarded, and the call arms no timer.  A record below the cap gets one
    more attempt and a timer at the next handle.  Its delay is the sum of
    [2000 * 2 ^ attempts] and the jitter, rounded to a double, and the
    jitter is the draw times 1000, rounded to a double: the jitter is in
    [0, 1000) and within [2 ^ -44] of the scaled draw; the delay is within
    [2 ^ -38] of base plus jitter, not below the base and not above the
    base plus 1000.  For a bot without a record, the first crash leaves
    [attempts = 1] with base delay 2000, and a second crash while that
    record is still there leaves [attempts = 2] with base delay 4000, the
    first timer being replaced by one with a longer delay. *)
Theorem retry_backoff
    (botId : string) (rnd rnd' : Q)
    (Hrnd : Double.representable rnd ∧ (0 <= rnd)%Q ∧ (rnd < 1)%Q)
    (Hrnd' : Double.representable rnd' ∧ (0 <= rnd')%Q ∧ (rnd' < 1)%Q)
    (sc : Manager) (rc : handle) (ic : RetryInfo)
    (Hc1 : retryData sc !! botId = Some rc)
    (Hc2 : retryInfos sc !! rc = Some ic)
    (Hcap : MAX_RETRY_ATTEMPTS ≤ attempts ic)
    (s : Manager) (r : handle) (i : RetryInfo)
    (Hs1 : retryData s !! botId = Some r)
    (Hs2 : retryInfos s !! r = Some i)
    (Hge : 0 ≤ attempts i)
    (Hlt : attempts i < MAX_RETRY_ATTEMPTS)
    (s0 : Manager)
    (H0 : retryData s0 !! botId = None) :
  (* the cap is reached *)
  (let sc' := exec (scheduleSmartRetry botId rnd) sc in
   retryData sc' !! botId = None ∧
   (∀ th, timers sc !! th = None → timers sc' !! th = None) ∧
   nextHandle sc' = nextHandle sc) ∧
  (* below the cap *)
  (let s' := exec (scheduleSmartRetry botId rnd) s in
   let base := 2000 * 2 ^ attempts i in
   let jitter := Double.round (rnd * 1000) in
   let delay := Double.round (inject_Z base + jitter) in
   retryData s' !! botId = Some r ∧
   attempts <$> retryInfos s' !! r = Some (attempts i + 1) ∧
   timers s' !! nextHandle s = Some (mkTimer delay (RetryRestart botId r)) ∧
   (0 <= jitter)%Q ∧ (jitter < 1000)%Q ∧
   (Qabs (jitter - rnd * 1000) <= 2 ^ (-44))%Q ∧
   (inject_Z base <= delay)%Q ∧ (delay <= inject_Z (base + 1000))%Q ∧
   (Qabs (delay - (inject_Z base + jitter)) <= 2 ^ (-38))%Q) ∧
  (* two crashes in a row of a bot without a record *)
  (let s1 := exec (scheduleSmartRetry botId rnd) s0 in
   let s2 := exec (scheduleSmartRetry botId rnd') s1 in
   let r0 := nextHandle s0 in
   let delay1 := Double.round (2000 + Double.round (rnd * 1000)) in
   let delay2 := Double.round (4000 + Double.round (rnd' * 1000)) in
   retryData s1 !! botId = Some r0 ∧
   attempts <$> retryInfos s1 !! r0 = Some 1 ∧
   timers s1 !! S r0 = Some (mkTimer delay1 (RetryRestart botId r0)) ∧
   retryData s2 !! botId = Some r0 ∧
   attempts <$> retryInfos s2 !! r0 = Some 2 ∧
   timers s2 !! S (S r0) = Some (mkTimer delay2 (RetryRestart botId r0)) ∧
   timers s2 !! S r0 = None ∧
   baseDelay 0 = 2000 ∧ baseDelay 1 = 4000 ∧ baseDelay 0 < baseDelay 1 ∧
   (delay1 < delay2)%Q).
Proof.
  destruct Hrnd as (R & R0 & R1), Hrnd' as (R' & R0' & R1').
  destruct (jitter_range rnd R R0 R1) as [J0 J1].
  destruct (jitter_range rnd' R' R0' R1') as [J0' J1'].
  split_and!.
  - destruct (scheduleSmartRetry_capped sc botId rnd rc ic)
      as (D & T & _ & _ & _ & N); try done.
    cbn zeta. rewrite D, T, N, lookup_delete_eq. done.
  - destruct (scheduleSmartRetry_known s botId rnd r i) as (D & I & T & _);
      try done.
    assert (0 ≤ 2000 * 2 ^ attempts i ≤ 32000) as Hb.
    { unfold MAX_RETRY_ATTEMPTS in Hlt.
      pose proof (Z.pow_le_mono_r 2 (attempts i) 4 ltac:(lia) ltac:(lia)).
      pose proof (Z.pow_nonneg 2 (attempts i) ltac:(lia)).
      change (2 ^ 4) with 16 in *. lia. }
    destruct (delay_range (2000 * 2 ^ attempts i) (Double.round (rnd * 1000)))
      as [B0 B1]; [lia|lra..|].
    pose proof (delay_error (2000 * 2 ^ attempts i)
                  (Double.round (rnd * 1000)) Hb) as B2.
    cbn zeta. rewrite D, I, T, !lookup_insert_eq.
    split_and!; try done; [by apply jitter_error|apply B2; lra].
  - destruct (scheduleSmartRetry_fresh s0 botId rnd H0)
      as (D1 & I1 & T1 & _ & _ & _ & N1).
    set (s1 := exec (scheduleSmartRetry botId rnd) s0) in *.
    assert (Hd1 : retryData s1 !! botId = Some (nextHandle s0))
      by (by rewrite D1, lookup_insert_eq).
    destruct (scheduleSmartRetry_known s1 botId rnd' (nextHandle s0) _ Hd1 I1)
      as (D2 & I2 & T2 & _); [done|].
    destruct (delay_range 2000 (Double.round (rnd * 1000))) as [_ U1];
      [done|lra..|].
    destruct (delay_range 4000 (Double.round (rnd' * 1000))) as [L2 _];
      [done|lra..|].
    cbn in T2. cbn zeta. rewrite Hd1, I1, D2, I2, T2, T1, N1.
    rewrite !lookup_insert_eq.
    rewrite lookup_insert_ne by lia. rewrite lookup_delete_eq.
    split_and!; try done.
    eapply Qle_lt_trans; [exact U1|].
    eapply Qlt_le_trans; [|exact L2]. done.
Qed.

Lemma retry_backoff_witness :
  (let sc' := exec (scheduleSmartRetry "bot-1" (1 # 2)) Scenario.exhausted in
   retryData sc' !! "bot-1" = None ∧
   (∀ th, timers Scenario.exhausted !! th = None → timers sc' !! th = None) ∧
   nextHandle sc' = nextHandle Scenario.exhausted) ∧
  (let s' := exec (scheduleSmartRetry "bot-1" (1 # 2)) Scenario.crashed in
   let base := 2000 * 2 ^ 1 in
   let jitter := Double.round ((1 # 2) * 1000) in
   let delay := Double.round (inject_Z base + jitter) in
   retryData s' !! "bot-1" = Some 2%nat ∧
   attempts <$> retryInfos s' !! 2%nat = Some (1 + 1) ∧
   timers s' !! nextHandle Scenario.crashed
     = Some (mkTimer delay (RetryRestart "bot-1" 2)) ∧
   (0 <= jitter)%Q ∧ (jitter < 1000)%Q ∧
   (Qabs (jitter - (1 # 2) * 1000) <= 2 ^ (-44))%Q ∧
   (inject_Z base <= delay)%Q ∧ (delay <= inject_Z (base + 1000))%Q ∧
   (Qabs (delay - (inject_Z base + jitter)) <= 2 ^ (-38))%Q) ∧
  (let s1 := exec (scheduleSmartRetry "bot-1" (1 # 2)) Scenario.running in
   let s2 := exec (scheduleSmartRetry "bot-1" (1 # 4)) s1 in
   let r0 := nextHandle Scenario.running in
   let delay1 := Double.round (2000 + Double.round ((1 # 2) * 1000)) in
   let delay2 := Double.round (4000 + Double.round ((1 # 4) * 1000)) in
   retryData s1 !! "bot-1" = Some r0 ∧
   attempts <$> retryInfos s1 !! r0 = Some 1 ∧
   timers s1 !! S r0 = Some (mkTimer delay1 (RetryRestart "bot-1" r0)) ∧
   retryData s2 !! "bot-1" = Some r0 ∧
   attempts <$> retryInfos s2 !! r0 = Some 2 ∧
   timers s2 !! S (S r0) = Some (mkTimer delay2 (RetryRestart "bot-1" r0)) ∧
   timers s2 !! S r0 = None ∧
   baseDelay 0 = 2000 ∧ baseDelay 1 = 4000 ∧ baseDelay 0 < baseDelay 1 ∧
   (delay1 < delay2)%Q).
Proof.
  apply (retry_backoff "bot-1" (1 # 2) (1 # 4)
           ltac:(split_and!; [by exists 1, (-1)|done..])
           ltac:(split_and!; [by exists 1, (-2)|done..])
           Scenario.exhausted 2%nat (mkRetryInfo 5 0 None None)
           eq_refl eq_refl ltac:(vm_compute; discriminate)
           Scenario.crashed 2%nat
           (mkRetryInfo 1 7000 (Some 9500) (Some 3%nat))
           eq_refl eq_refl ltac:(vm_compute; discriminate)
           ltac:(vm_compute; reflexivity)
           Scenario.running eq_refl).
Defined.

(** C3 as the specification words it, with a jitter below 1000, does not
    hold at the largest draw of [Math.random], [1 - 2 ^ -52].  The jitter
    is [1000 - 2 ^ -42]; its sum with the base delay 2000 is half-way
    between two doubles and is rounded to the even one, 3000.  So the
    first retry of a bot without a record is armed with a delay of exactly
    3000 ms, which is 2000 plus no jitter below 1000, and [nextRetryAt] is
    3000 ms after the crash. *)
Lemma retry_delay_reaches_base_plus_one_second :
  let rnd := (4503599627370495 # 4503599627370496)%Q in
  let s := Scenario.running in
  let s' := exec (scheduleSmartRetry "bot-1" rnd) s in
  Double.representable rnd ∧ (0 <= rnd)%Q ∧ (rnd < 1)%Q ∧
  (rnd == 1 - 2 ^ (-52))%Q ∧
  retryData s !! "bot-1" = None ∧ now s = 2000 ∧
  Double.round (rnd * 1000) = (4398046511103999 # 4398046511104)%Q ∧
  timers s' !! 3%nat = Some (mkTimer 3000 (RetryRestart "bot-1" 2)) ∧
  retryInfos s' !! 2%nat = Some (mkRetryInfo 1 2000 (Some 5000) (Some 3%nat)) ∧
  ¬ (∃ jitter : Q, (0 <= jitter)%Q ∧ (jitter < 1000)%Q ∧
       (3000 == inject_Z (2000 * 2 ^ 0) + jitter)%Q).
Proof.
  split_and!.
  - by exists 4503599627370495, (-52).
  - done.
  - done.
  - done.
  - done.
  - done.
  - by vm_compute.
  - by vm_compute.
  - by vm_compute.
  - intros (j & J0 & J1 & E). change (inject_Z (2000 * 2 ^ 0)) with 2000%Q in E.
    lra.
Qed.

(** The cap branch has no [clearTimeout].  The bot crashes, is started by
    hand, and crashes again, five times: the record counts 5 attempts and
    timer 15 is armed for the fifth retry.  Started once more, the bot
    crashes a sixth time: the scheduler logs that it will not restart the
    bot and drops the record, and timer 15 stays armed.  When it fires the
    bot is started again. *)
Example retry_armed_before_the_cap_still_fires :
  let start := CallStart "bot-1" Scenario.launch in
  let crash c := ChildExit c (Some 1) None (1 # 2) in
  let s5 := run [start; crash 0%nat; start; crash 4%nat; start; crash 7%nat;
                 start; crash 10%nat; start; crash 13%nat; start]
              Scenario.boot in
  let s6 := run [crash 16%nat] s5 in
  let s7 := run [TimerDue 15 Scenario.launch Delivered] s6 in
  retryData s5 !! "bot-1" = Some 2%nat ∧
  attempts <$> retryInfos s5 !! 2%nat = Some MAX_RETRY_ATTEMPTS ∧
  timers s5 !! 15%nat = Some (mkTimer 32500 (RetryRestart "bot-1" 2)) ∧
  retryData s6 !! "bot-1" = None ∧
  message ∘ snd <$> last (emitted s6)
    = Some "Max retry attempts (5) reached. Bot will not restart automatically." ∧
  runningBots s6 !! "bot-1" = None ∧
  timers s6 !! 15%nat = Some (mkTimer 32500 (RetryRestart "bot-1" 2)) ∧
  runningBots s7 !! "bot-1" = Some 18%nat ∧
  message ∘ snd <$> last (emitted s7) = Some "Automatic restart successful".
Proof. vm_compute. split_and!; reflexivity. Qed.

(** ** The exit listener *)

Lemma exitCleanup_spec (s : Manager) botId code signal :
  let s0 := exec (exitCleanup botId code signal) s in
  runningBots s0 = delete botId (runningBots s) ∧
  healthCheckData s0 = delete botId (healthCheckData s) ∧
  timers s0 = timers s ∧ retryData s0 = retryData s ∧
  retryInfos s0 = retryInfos s ∧ nextHandle s0 = nextHandle s ∧
  signals s0 = signals s ∧
  (∀ bot, bots s !! botId = Some bot →
     status <$> bots s0 !! botId
       = Some (if bool_decide (code = Some 0) then st_stopped else st_error)) ∧
  (bots s !! botId = None → bots s0 = bots s).
Proof.
  unfold exec, exitCleanup. unfold_storage.
  cbn. destruct (bots s !! botId) as [bot|] eqn:Hb; cbn;
    destruct (truthy signal); cbn; rewrite ?lookup_insert_eq;
    (split_and!; try done; by intros ? [= <-]).
Qed.

Lemma exitCleanup_frame (s : Manager) botId code signal :
  let s0 := exec (exitCleanup botId code signal) s in
  stopCalls s0 = stopCalls s ∧ children s0 = children s ∧
  signals s0 = signals s ∧ healthInfos s0 = healthInfos s ∧ now s0 = now s.
Proof.
  destruct s. unfold exitCleanup. mred.
  match goal with |- context [?m !! botId] => destruct (m !! botId) end;
    mred; destruct (truthy signal); mred; done.
Qed.

Lemma onChildExit_frame (s : Manager) botId code signal rnd :
  let s' := exec (onChildExit botId code signal rnd) s in
  stopCalls s' = stopCalls s ∧ children s' = children s ∧
  signals s' = signals s ∧ healthInfos s' = healthInfos s ∧ now s' = now s.
Proof.
  unfold onChildExit. rewrite exec_bind.
  destruct (exitCleanup_frame s botId code signal) as (A & B & C & D & E).
  destruct (crashedUnexpectedly code signal).
  - destruct (scheduleSmartRetry_frame
                (exec (exitCleanup botId code signal) s) botId rnd)
      as (_ & _ & _ & D' & B' & A' & C' & E').
    cbn. rewrite A', B', C', D', E'. done.
  - done.
Qed.

Lemma crashedUnexpectedly_iff code signal :
  crashedUnexpectedly code signal = true
  ↔ code ≠ Some 0 ∧ signal ≠ Some "SIGTERM".
Proof.
  unfold crashedUnexpectedly.
  rewrite andb_true_iff, !bool_decide_eq_true. done.
Qed.

(** The listener is its cleanup followed, for an unexpected crash, by the
    scheduler. *)
Lemma onChildExit_unfold (s : Manager) botId code signal rnd :
  exec (onChildExit botId code signal rnd) s
  = if crashedUnexpectedly code signal
    then exec (scheduleSmartRetry botId rnd)
           (exec (exitCleanup botId code signal) s)
    else exec (exitCleanup botId code signal) s.
Proof.
  unfold onChildExit. rewrite exec_bind.
  by destruct (crashedUnexpectedly code signal).
Qed.

Lemma onChildExit_not_engaged (s : Manager) botId code signal rnd :
  code = Some 0 ∨ signal = Some "SIGTERM" →
  let s' := exec (onChildExit botId code signal rnd) s in
  s' = exec (exitCleanup botId code signal) s ∧
  timers s' = timers s ∧ retryData s' = retryData s ∧
  retryInfos s' = retryInfos s.
Proof.
  intros D. cbn. rewrite onChildExit_unfold.
  assert (crashedUnexpectedly code signal = false) as ->.
  { apply not_true_iff_false. rewrite crashedUnexpectedly_iff.
    intros [? ?]. by destruct D. }
  destruct (exitCleanup_spec s botId code signal) as (_ & _ & T & R & I & _).
  done.
Qed.

Lemma onChildExit_status (s : Manager) botId code signal rnd bot :
  bots s !! botId = Some bot →
  status <$> bots (exec (onChildExit botId code signal rnd) s) !! botId
  = Some (if bool_decide (code = Some 0) then st_stopped else st_error).
Proof.
  intros Hb.
  destruct (exitCleanup_spec s botId code signal) as (_&_&_&_&_&_&_& St & _).
  rewrite <- (St bot Hb). rewrite onChildExit_unfold.
  destruct (crashedUnexpectedly code signal); [|done].
  by destruct (scheduleSmartRetry_frame
                 (exec (exitCleanup botId code signal) s) botId rnd) as [-> _].
Qed.

(** C2. The ['exit'] listener runs the retry scheduler, on the state its
    cleanup leaves, if and only if the exit code is not 0 and the signal is
    not SIGTERM.  For an exit with code 0 or by SIGTERM, which is how the
    listener recognises a deliberate stop, it ends with the cleanup: no
    timer is armed and the retry table is as before. *)
Theorem retry_engaged_iff_unexpected_exit
    (s : Manager) (botId : string) (code : option Z)
    (signal : option Signal) (rnd : Q) :
  let s0 := exec (exitCleanup botId code signal) s in
  let s' := exec (onChildExit botId code signal rnd) s in
  (s' = exec (scheduleSmartRetry botId rnd) s0
     ↔ code ≠ Some 0 ∧ signal ≠ Some "SIGTERM") ∧
  (code = Some 0 ∨ signal = Some "SIGTERM" →
     s' = s0 ∧ timers s' = timers s ∧ retryData s' = retryData s ∧
     retryInfos s' = retryInfos s).
Proof.
  intros s0 s'. split; [|apply onChildExit_not_engaged].
  subst s' s0. rewrite onChildExit_unfold.
  pose proof (crashedUnexpectedly_iff code signal) as C.
  destruct (crashedUnexpectedly code signal).
  - split; [intros _; by apply C | done].
  - split.
    + intros X. symmetry in X. by apply scheduleSmartRetry_changes in X.
    + intros X. apply C in X. discriminate.
Qed.

(** The listener running to its end with no other listener in between.
    After the ['exit'] listener has run for a bot that has a row, the
    stored status is [stopped] when the exit code is 0 and [error] when it
    is anything else. *)
Theorem exit_status_follows_code
    (s : Manager) (botId : string) (code : option Z)
    (signal : option Signal) (rnd : Q) (bot : Bot) :
  bots s !! botId = Some bot →
  let s' := exec (onChildExit botId code signal rnd) s in
  (code = Some 0 → status <$> bots s' !! botId = Some st_stopped) ∧
  (code ≠ Some 0 → status <$> bots s' !! botId = Some st_error).
Proof.
  intros Hb s'. subst s'. rewrite (onChildExit_status _ _ _ _ _ bot Hb).
  split; intros H.
  - by rewrite bool_decide_eq_true_2.
  - by rewrite bool_decide_eq_false_2.
Qed.

Lemma exit_status_follows_code_witness :
  let s' := exec (onChildExit "bot-1" (Some 137) None (1 # 2))
              Scenario.running in
  (Some 137 = Some 0 → status <$> bots s' !! "bot-1" = Some st_stopped) ∧
  (Some 137 ≠ Some 0 → status <$> bots s' !! "bot-1" = Some st_error).
Proof.
  apply (exit_status_follows_code Scenario.running "bot-1" (Some 137) None
           (1 # 2) (mkBot "Echo" "index.js" st_running (Some "4242") 2000)
           eq_refl).
Defined.

(** ** Stopping *)

(** For an id that is not live [stopBot] logs a warning and returns. *)
Lemma stopBot_not_live (s : Manager) botId k :
  runningBots s !! botId = None →
  stopBot botId k s
    = (Some false, exec (addLog botId lvl_warn "Bot is not running") s).
Proof.
  intros Hl. destruct s. unfold stopBot. mred in Hl. mred. by rewrite Hl.
Qed.

(** SIGTERM is delivered: the child is flagged [killed], the force-kill
    timer is armed at the next handle, and the promise is pending. *)
Lemma stopBot_delivered (s : Manager) botId c child :
  runningBots s !! botId = Some c →
  children s !! c = Some child →
  let s1 := exec (stopBot botId Delivered) s in
  let th := nextHandle s in
  result (stopBot botId Delivered) s = None ∧
  runningBots s1 = delete botId (runningBots s) ∧
  signals s1 = signals s ++ [(c, "SIGTERM")] ∧
  children s1 = <[c := withKilled child]> (children s) ∧
  stopCalls s1 !! c = Some (mkStopCall false None true true (Some th) None) ∧
  timers s1 = <[th := mkTimer 5000 (ForceKill botId c)]> (timers s) ∧
  retryData s1 = retryData s ∧ retryInfos s1 = retryInfos s ∧
  (∀ bot, bots s !! botId = Some bot →
      bots s1 = <[botId := mkBot (name bot) (mainFile bot) st_stopped (processId bot) (now s)]> (bots s)).
Proof.
  intros Hl Hc. destruct s. unfold stopBot, withKilled. mred in Hl. mred in Hc. mred.
  rewrite Hl. mred. rewrite Hc. mred.
  match goal with |- context [?m !! botId] => destruct (m !! botId) as [bot|] eqn:Hb end;
    mred; rewrite Hc; mred; rewrite lookup_alter_eq, !lookup_insert_eq; mred.
  - split_and!; try done. by intros ? [= <-].
  - split_and!; done.
Qed.

(** [kill] throws: the promise is resolved with [false], no timer is
    armed. *)
Lemma stopBot_rejected (s : Manager) botId c child msg :
  runningBots s !! botId = Some c →
  children s !! c = Some child →
  let s1 := exec (stopBot botId (Rejected msg)) s in
  result (stopBot botId (Rejected msg)) s = Some false ∧
  signals s1 = signals s ∧ timers s1 = timers s ∧
  resolved <$> stopCalls s1 !! c = Some (Some false).
Proof.
  intros Hl Hc. destruct s. unfold stopBot. mred in Hl. mred in Hc. mred.
  rewrite Hl. mred. rewrite Hc. mred.
  match goal with |- context [?m !! botId] => destruct (m !! botId) as [bot|] eqn:Hb end;
    mred; rewrite ?lookup_alter_eq, ?lookup_insert_eq; mred;
    rewrite ?lookup_alter_eq, ?lookup_insert_eq; mred;
    rewrite ?lookup_alter_eq, ?lookup_insert_eq; mred; done.
Qed.

(** The force-kill timer fires on a child that [kill('SIGTERM')] has
    flagged: the test [!childProcess.killed] fails, so no signal is sent,
    and the promise is resolved with [true]. *)
Lemma forceKill_after_delivery (s1 : Manager) th d botId c call child env kk :
  timers s1 !! th = Some (mkTimer d (ForceKill botId c)) →
  stopCalls s1 !! c = Some call →
  isResolved call = false → resolved call = None →
  children s1 !! c = Some child →
  killed child = true →
  let s2 := exec (fireTimer th env kk) s1 in
  signals s2 = signals s1 ∧
  timers s2 !! th = None ∧
  resolved <$> stopCalls s2 !! c = Some (Some true) ∧
  isResolved <$> stopCalls s2 !! c = Some true.
Proof.
  intros Ht Hs Hr Hv Hc Hk.
  destruct s1, call as [ir rv oe oer coe [rmOk|]], child.
  all: unfold fireTimer, forceKill, resume, deleteBotRest.
  all: mred in Ht; mred in Hs; mred in Hc; mred in Hr; mred in Hv; mred in Hk.
  all: subst; mrun; try done.
  match goal with |- context [?m !! ?b] =>
    lazymatch type of b with string => destruct (m !! b) eqn:Hb end end;
    mrun; try destruct rmOk; mrun; done.
Qed.

(** The exit of a child that [stopBot] is stopping: after the listener
    of [startBot], [onExit] resolves the promise and the force-kill timer
    is cleared. *)
Lemma emitExit_during_stop (s1 : Manager) c child th code signal rnd :
  children s1 !! c = Some child →
  stopCalls s1 !! c = Some (mkStopCall false None true true (Some th) None) →
  let sx := exec (onChildExit (owner child) code signal rnd) s1 in
  let s2 := exec (emitExit c code signal rnd) s1 in
  bots s2 = bots sx ∧ retryData s2 = retryData sx ∧
  runningBots s2 = runningBots sx ∧
  timers s2 = delete th (timers sx) ∧
  signals s2 = signals s1 ∧
  stopCalls s2 !! c = Some (mkStopCall true (Some true) false true None None).
Proof.
  intros Hc Hs sx s2. subst s2.
  unfold emitExit. rewrite exec_gets_bind, Hc, exec_bind. fold sx.
  destruct (onChildExit_frame s1 (owner child) code signal rnd)
    as (A & B & C & _). fold sx in A, B, C.
  rewrite <- A in Hs. rewrite <- B in Hc. rewrite <- C.
  clearbody sx. clear A B C. destruct sx, child.
  unfold stopOnExit, resume. mred in Hc. mred in Hs. mrun.
  destruct (truthy signal); mrun; done.
Qed.

Lemma deleteBot_not_live (s : Manager) botId k rmOk :
  runningBots s !! botId = None →
  let s' := exec (deleteBot botId k rmOk) s in
  result (deleteBot botId k rmOk) s = Some true ∧
  bots s' = delete botId (bots s) ∧
  logs s' !! botId = None ∧
  timers s' = timers s ∧ retryData s' = retryData s ∧
  retryInfos s' = retryInfos s.
Proof.
  intros Hl. destruct s. unfold deleteBot, deleteBotRest. mred in Hl. mrun.
  match goal with |- context [?m !! botId] => destruct (m !! botId) eqn:Hb end;
    mrun; try destruct rmOk; mrun; try done.
  all: split_and!; try done; symmetry; by apply delete_id.
Qed.

(** C5, as the code has it.  For an id that is not in the live table
    [stopBot] returns [false], writes no status, sends no signal and leaves
    every table and timer as it was; it does add one warning,
    ["Bot is not running"], to the log of that id through
    [LogStorage.addLog], which drops the oldest entry of a log that would
    grow beyond 1000 entries, and emits the warning. *)
Theorem stop_not_live_only_logs
    (s : Manager) (botId : string) (k : KillOutcome) :
  runningBots s !! botId = None →
  let s' := exec (stopBot botId k) s in
  let entry := mkLogEntry (now s) lvl_warn "Bot is not running" in
  result (stopBot botId k) s = Some false ∧
  bots s' = bots s ∧ signals s' = signals s ∧
  runningBots s' = runningBots s ∧ children s' = children s ∧
  stopCalls s' = stopCalls s ∧ timers s' = timers s ∧
  healthCheckData s' = healthCheckData s ∧ healthInfos s' = healthInfos s ∧
  retryData s' = retryData s ∧ retryInfos s' = retryInfos s ∧
  logs s'
    = <[botId := LogStorage.push entry (default [] (logs s !! botId))]>
        (logs s) ∧
  emitted s' = emitted s ++ [(botId, entry)].
Proof.
  intros Hl. cbn zeta. unfold exec, result.
  rewrite (stopBot_not_live s botId k Hl). cbn [fst snd].
  rewrite (addLog_spec s botId lvl_warn "Bot is not running").
  destruct s. done.
Qed.

Lemma stop_not_live_only_logs_witness :
  let s := Scenario.boot in
  let s' := exec (stopBot "bot-1" Delivered) s in
  let entry := mkLogEntry (now s) lvl_warn "Bot is not running" in
  result (stopBot "bot-1" Delivered) s = Some false ∧
  bots s' = bots s ∧ signals s' = signals s ∧
  runningBots s' = runningBots s ∧ children s' = children s ∧
  stopCalls s' = stopCalls s ∧ timers s' = timers s ∧
  healthCheckData s' = healthCheckData s ∧ healthInfos s' = healthInfos s ∧
  retryData s' = retryData s ∧ retryInfos s' = retryInfos s ∧
  logs s'
    = <["bot-1" := LogStorage.push entry (default [] (logs s !! "bot-1"))]>
        (logs s) ∧
  emitted s' = emitted s ++ [("bot-1", entry)].
Proof.
  apply (stop_not_live_only_logs Scenario.boot "bot-1" Delivered eq_refl).
Defined.

(** C5 as the specification words it, without any log entry, does not
    hold: stopping the bot that was never started returns [false] and
    leaves a log entry behind. *)
Lemma stop_not_live_leaves_log_entry :
  let s := Scenario.boot in
  let s' := exec (stopBot "bot-1" Delivered) s in
  runningBots s !! "bot-1" = None ∧
  result (stopBot "bot-1" Delivered) s = Some false ∧
  logs s !! "bot-1" = None ∧
  logs s' !! "bot-1" = Some [mkLogEntry 1000 lvl_warn "Bot is not running"] ∧
  emitted s' = [("bot-1", mkLogEntry 1000 lvl_warn "Bot is not running")] ∧
  s' ≠ s.
Proof.
  vm_compute. split_and!; try reflexivity. discriminate.
Qed.

(** C9 on the bot of the scenario: it is running as child 0 and is
    stopped; SIGTERM is delivered and the force-kill timer 2 is armed; the
    child does not exit and the timer fires.  No SIGKILL is sent: SIGTERM
    is the only signal the child ever gets, it is still flagged as it was,
    and the promise of [stopBot] is resolved with [true]. *)
Theorem force_kill_is_not_sent :
  let s := Scenario.running in
  let s1 := Scenario.stopRequested in
  let s2 := Scenario.graceElapsed in
  runningBots s !! "bot-1" = Some 0%nat ∧
  result (stopBot "bot-1" Delivered) s = None ∧
  signals s1 = [(0%nat, "SIGTERM")] ∧
  timers s1 !! 2%nat = Some (mkTimer 5000 (ForceKill "bot-1" 0)) ∧
  killed <$> children s1 !! 0%nat = Some true ∧
  signals s2 = [(0%nat, "SIGTERM")] ∧
  ((0%nat, "SIGKILL") ∉ signals s2) ∧
  resolved <$> stopCalls s2 !! 0%nat = Some (Some true) ∧
  runningBots s2 !! "bot-1" = None.
Proof.
  vm_compute. split_and!; try reflexivity.
  intros H. apply list_elem_of_In in H. destruct H as [H|[]]. discriminate.
Qed.

(** The other parts of the two-stage stop.  When the child exits before
    the deadline the force-kill timer is cancelled and the promise is
    resolved with [true]. *)
Lemma stop_then_exit_cancels_force_kill
    (s : Manager) botId c child code signal rnd :
  runningBots s !! botId = Some c →
  children s !! c = Some child →
  let s1 := exec (stopBot botId Delivered) s in
  let s2 := exec (emitExit c code signal rnd) s1 in
  timers s1 !! nextHandle s = Some (mkTimer 5000 (ForceKill botId c)) ∧
  timers s2 !! nextHandle s = None ∧
  signals s2 = signals s ++ [(c, "SIGTERM")] ∧
  resolved <$> stopCalls s2 !! c = Some (Some true).
Proof.
  intros Hl Hc s1 s2.
  destruct (stopBot_delivered s botId c child Hl Hc)
    as (_ & _ & Sg & Ch & Sc & Ti & _).
  fold s1 in Sg, Ch, Sc, Ti.
  assert (Hc1 : children s1 !! c = Some (withKilled child))
    by (by rewrite Ch, lookup_insert_eq).
  destruct (emitExit_during_stop s1 c (withKilled child) (nextHandle s)
              code signal rnd Hc1 Sc) as (_ & _ & _ & T2 & S2 & C2).
  fold s2 in T2, S2, C2.
  rewrite Ti, T2, S2, C2, Sg, lookup_insert_eq, lookup_delete_eq. done.
Qed.

(** When SIGTERM could not be sent because the child was gone, the flag is
    not set, and the timer sends SIGKILL, once. *)
Example force_kill_when_sigterm_found_no_process :
  let s1 := exec (stopBot "bot-1" NoSuchProcess) Scenario.running in
  let s2 := exec (fireTimer 2 Scenario.launch Delivered) s1 in
  signals s1 = [] ∧ signals s2 = [(0%nat, "SIGKILL")] ∧
  resolved <$> stopCalls s2 !! 0%nat = Some (Some true).
Proof. vm_compute. done. Qed.

(** One bot, with no other listener in between.  A live bot is stopped
    and its child ends on the SIGTERM, with exit code [null].  [stopBot]
    has written [stopped] before it sent the signal; the ['exit'] listener
    of [startBot] then writes [error], which is the status the bot is left
    with; the promise of [stopBot] is resolved with [true] and no retry is
    scheduled. *)
Theorem graceful_stop_ends_in_error
    (s : Manager) (botId : string) (c : handle) (child : ChildProcess)
    (bot : Bot) (rnd : Q) :
  runningBots s !! botId = Some c →
  children s !! c = Some child →
  owner child = botId →
  bots s !! botId = Some bot →
  let s1 := exec (stopBot botId Delivered) s in
  let s2 := exec (emitExit c None (Some "SIGTERM") rnd) s1 in
  status <$> bots s1 !! botId = Some st_stopped ∧
  signals s1 = signals s ++ [(c, "SIGTERM")] ∧
  status <$> bots s2 !! botId = Some st_error ∧
  resolved <$> stopCalls s2 !! c = Some (Some true) ∧
  signals s2 = signals s1 ∧
  retryData s2 = retryData s.
Proof.
  intros Hl Hc Ho Hb s1 s2.
  destruct (stopBot_delivered s botId c child Hl Hc)
    as (_ & _ & Sg & Ch & Sc & _ & Rd & _ & Bo).
  fold s1 in Sg, Ch, Sc, Rd, Bo. specialize (Bo bot Hb).
  assert (Hc1 : children s1 !! c = Some (withKilled child))
    by (by rewrite Ch, lookup_insert_eq).
  assert (Hb1 : bots s1 !! botId
                = Some (mkBot (name bot) (mainFile bot) st_stopped
                          (processId bot) (now s)))
    by (by rewrite Bo, lookup_insert_eq).
  destruct (emitExit_during_stop s1 c (withKilled child) (nextHandle s)
              None (Some "SIGTERM") rnd Hc1 Sc)
    as (B2 & R2 & _ & _ & S2 & C2).
  fold s2 in B2, R2, S2, C2. cbn [withKilled owner] in B2, R2. rewrite Ho in B2, R2.
  pose proof (onChildExit_status s1 botId None (Some "SIGTERM") rnd _ Hb1) as E.
  destruct (onChildExit_not_engaged s1 botId None (Some "SIGTERM") rnd)
    as (_ & _ & R & _); [by right|].
  rewrite Hb1, B2, E, C2, R2, R. done.
Qed.

Lemma graceful_stop_ends_in_error_witness :
  let s := Scenario.running in
  let s1 := exec (stopBot "bot-1" Delivered) s in
  let s2 := exec (emitExit 0 None (Some "SIGTERM") (1 # 2)) s1 in
  status <$> bots s1 !! "bot-1" = Some st_stopped ∧
  signals s1 = signals s ++ [(0%nat, "SIGTERM")] ∧
  status <$> bots s2 !! "bot-1" = Some st_error ∧
  resolved <$> stopCalls s2 !! 0%nat = Some (Some true) ∧
  signals s2 = signals s1 ∧
  retryData s2 = retryData s.
Proof.
  apply (graceful_stop_ends_in_error Scenario.running "bot-1" 0%nat
           (mkChildProcess "bot-1" "node" (Some 4242) false true)
           (mkBot "Echo" "index.js" st_running (Some "4242") 2000) (1 # 2)
           eq_refl eq_refl eq_refl eq_refl).
Defined.

(** ** Starting *)

(** The start that precedes: a stopped bot with a [.js] main file is
    spawned and entered in the live table. *)
Lemma startBot_spawns (s : Manager) botId env bot :
  bots s !! botId = Some bot →
  runningBots s !! botId = None →
  mainFileExists env = true →
  (let ext := Str.toLowerCase (Str.extname (mainFile bot)) in
   ext = ".js" ∨ ext = ".ts") →
  let s' := exec (startBot botId env) s in
  result (startBot botId env) s = true ∧
  runningBots s' = <[botId := nextHandle s]> (runningBots s) ∧
  children s' !! nextHandle s
    = Some (mkChildProcess botId "node" (spawnedPid env) false
              (spawnedStdin env)) ∧
  status <$> bots s' !! botId = Some st_starting.
Proof.
  intros Hb Hl Hm He. destruct s, env, bot. unfold startBot.
  mred in Hb. mred in Hl. mred in Hm. mred in He. subst. mrun.
  rewrite bool_decide_eq_false_2 by (by intros [? ?]).
  mrun. rewrite (bool_decide_eq_true_2 _ He). mrun. done.
Qed.

(** C6. For an id that is in the live table [startBot] returns [false];
    the live table is as before, so the id still has the one handle it
    had; no child is spawned, no timer armed, and the stored rows, the
    health and retry records are untouched.  (A warning goes to the
    log.) *)
Theorem second_start_is_rejected
    (s : Manager) (botId : string) (env : LaunchEnv) (c : handle) :
  runningBots s !! botId = Some c →
  let s' := exec (startBot botId env) s in
  result (startBot botId env) s = false ∧
  runningBots s' = runningBots s ∧ runningBots s' !! botId = Some c ∧
  bots s' = bots s ∧
  children s' = children s ∧ timers s' = timers s ∧
  healthCheckData s' = healthCheckData s ∧ healthInfos s' = healthInfos s ∧
  retryData s' = retryData s ∧ retryInfos s' = retryInfos s ∧
  stopCalls s' = stopCalls s ∧ signals s' = signals s ∧
  stdinWrites s' = stdinWrites s ∧ nextHandle s' = nextHandle s.
Proof.
  intros Hl. destruct s. unfold startBot. mred in Hl. mrun.
  match goal with |- context [?m !! botId] => destruct (m !! botId) eqn:Hb end;
    mrun; done.
Qed.

Lemma second_start_is_rejected_witness :
  let s := Scenario.started in
  let s' := exec (startBot "bot-1" Scenario.launch) s in
  result (startBot "bot-1" Scenario.launch) s = false ∧
  runningBots s' = runningBots s ∧ runningBots s' !! "bot-1" = Some 0%nat ∧
  bots s' = bots s ∧
  children s' = children s ∧ timers s' = timers s ∧
  healthCheckData s' = healthCheckData s ∧ healthInfos s' = healthInfos s ∧
  retryData s' = retryData s ∧ retryInfos s' = retryInfos s ∧
  stopCalls s' = stopCalls s ∧ signals s' = signals s ∧
  stdinWrites s' = stdinWrites s ∧ nextHandle s' = nextHandle s.
Proof.
  apply (second_start_is_rejected Scenario.started "bot-1" Scenario.launch
           0%nat eq_refl).
Defined.

(** [start] then [start]: the first call spawns the child, the second
    returns [false] and the table holds the handle of the first. *)
Example start_twice :
  result (startBot "bot-1" Scenario.launch) Scenario.boot = true ∧
  result (startBot "bot-1" Scenario.launch) Scenario.started = false ∧
  map_to_list
    (runningBots (exec (startBot "bot-1" Scenario.launch) Scenario.started))
  = [("bot-1", 0%nat)].
Proof. vm_compute. done. Qed.

(** ** Pending retries against stop and delete *)

Lemma stop_not_live_frame (s : Manager) botId k :
  runningBots s !! botId = None →
  let s' := exec (stopBot botId k) s in
  result (stopBot botId k) s = Some false ∧
  timers s' = timers s ∧ retryData s' = retryData s.
Proof.
  intros Hl. cbn zeta. unfold exec, result.
  rewrite (stopBot_not_live s botId k Hl). cbn [fst snd].
  rewrite (addLog_spec s botId lvl_warn "Bot is not running").
  destruct s. done.
Qed.

(** [stopBot] and [deleteBot] of a bot that is not live leave its retry
    record and its retry timer in place. *)
Lemma retry_survives_stop_and_delete
    (s : Manager) botId r info th d k rmOk :
  runningBots s !! botId = None →
  retryData s !! botId = Some r →
  retryInfos s !! r = Some info →
  retryTimeoutHandle info = Some th →
  timers s !! th = Some (mkTimer d (RetryRestart botId r)) →
  let s1 := exec (stopBot botId k) s in
  let s2 := exec (deleteBot botId k rmOk) s in
  result (stopBot botId k) s = Some false ∧
  retryData s1 !! botId = Some r ∧
  timers s1 !! th = Some (mkTimer d (RetryRestart botId r)) ∧
  result (deleteBot botId k rmOk) s = Some true ∧
  retryData s2 !! botId = Some r ∧
  timers s2 !! th = Some (mkTimer d (RetryRestart botId r)).
Proof.
  intros Hl Hr Hi Hh Ht s1 s2.
  destruct (stop_not_live_frame s botId k Hl) as (R1 & T1 & D1).
  destruct (deleteBot_not_live s botId k rmOk Hl) as (R2 & _ & _ & T2 & D2 & _).
  fold s1 in T1, D1. fold s2 in T2, D2.
  rewrite R1, R2, T1, T2, D1, D2. done.
Qed.

(** C1 on the bot of the scenario, which has crashed and has retry timer 3
    pending.  [stopBot] returns [false] and the timer and the record stay;
    when the timer fires the bot is spawned again.  The same after the bot
    was started by hand, stopped, and had exited on the SIGTERM with the
    promise of [stopBot] resolved.  [deleteBot] returns [true] and removes
    the row, and the timer and the record stay as well; the timer then
    fires for the deleted id and the record is never removed.
    [cancelRetries] would have removed both. *)
Theorem stop_and_delete_leave_retry_pending :
  let retry := mkTimer 2500 (RetryRestart "bot-1" 2) in
  let fire := fireTimer 3 Scenario.launch Delivered in
  let s := Scenario.crashed in
  (* the crash left a record and a timer *)
  retryData s !! "bot-1" = Some 2%nat ∧ timers s !! 3%nat = Some retry ∧
  (* stop of the crashed bot *)
  (let s1 := exec Scenario.stopAfterCrash s in
   result Scenario.stopAfterCrash s = Some false ∧
   retryData s1 !! "bot-1" = Some 2%nat ∧ timers s1 !! 3%nat = Some retry ∧
   runningBots s1 !! "bot-1" = None ∧
   runningBots (exec fire s1) !! "bot-1" = Some 4%nat) ∧
  (* stop that settles with [true] *)
  (let s2 := Scenario.stoppedAgain in
   resolved <$> stopCalls s2 !! 4%nat = Some (Some true) ∧
   retryData s2 !! "bot-1" = Some 2%nat ∧ timers s2 !! 3%nat = Some retry ∧
   runningBots s2 !! "bot-1" = None ∧
   runningBots (exec fire s2) !! "bot-1" = Some 7%nat) ∧
  (* delete *)
  (let s3 := Scenario.deleted in
   result (deleteBot "bot-1" Delivered true) s = Some true ∧
   bots s3 !! "bot-1" = None ∧
   retryData s3 !! "bot-1" = Some 2%nat ∧ timers s3 !! 3%nat = Some retry ∧
   retryData (exec fire s3) !! "bot-1" = Some 2%nat) ∧
  (* what [cancelRetries] does *)
  (let s4 := exec (cancelRetries "bot-1") s in
   retryData s4 !! "bot-1" = None ∧ timers s4 !! 3%nat = None).
Proof. vm_compute. split_and!; reflexivity. Qed.

(** ** Splitting on the lookups a handler is stuck on *)

Ltac mlookup :=
  match goal with
  | |- context [match ?m !! ?k with _ => _ end] => destruct (m !! k) eqn:?
  end.

Ltac mcases := mrun; repeat (mlookup; mrun).

(** ** Listeners that overlap *)

(** The parts of a split listener, run one after the other with nothing in
    between, are the listener. *)
Lemma handleHealthCheckFailure_split (botId reason : string) (s : Manager) :
  handleHealthCheckFailure botId reason s
  = (p <- handleHealthCheckFailureUntilWrite botId reason ;; resumed p) s.
Proof.
  destruct s as [? hd ? ? hi ? ? ? rows ? ? ? ? ? ?].
  unfold handleHealthCheckFailure, handleHealthCheckFailureUntilWrite,
    resumed, writeOf, restOf.
  mred. destruct (hd !! botId) as [h|]; mred; [|done].
  destruct (hi !! h) as [[? ? ? ? ? [th|]]|]; mred; try done.
  all: destruct (bool_decide _); mred; try done.
  all: destruct (rows !! botId); mred; done.
Qed.

Lemma fireTimer_probe_split (th : handle) (env : LaunchEnv) (k : KillOutcome)
    (s : Manager) d botId h token :
  timers s !! th = Some (mkTimer d (HealthTimeout botId h token)) →
  fireTimer th env k s = (p <- probeTimeoutUntilWrite th ;; resumed p) s.
Proof.
  intros Ht. destruct s as [? ? ? ? hi ? ? tm ? ? ? ? ? ? ?].
  unfold fireTimer, probeTimeoutUntilWrite, healthTimeout.
  mred in Ht. mred. rewrite Ht. mred.
  destruct (hi !! h) as [[? ? ? [] ? ?]|]; mred; try done.
  destruct (bool_decide _); mred; [|done].
  apply handleHealthCheckFailure_split.
Qed.

Lemma emitExit_split (c : handle) (code : option Z) (signal : option Signal)
    (rnd : Q) (s : Manager) :
  emitExit c code signal rnd s
  = (p <- emitExitUntilWrite c code signal rnd ;; resumed p) s.
Proof.
  destruct s as [? ? ? ch ? ? ? ? rows ? ? ? ? ? ?].
  unfold emitExit, emitExitUntilWrite, onChildExit, exitCleanup,
    resumed, writeOf, restOf.
  mred. destruct (ch !! c) as [[botId ? ? ? ?]|]; mred; [|done].
  destruct (rows !! botId); mred;
    destruct (truthy signal); mred;
    destruct (crashedUnexpectedly code signal); mred; try done;
    match goal with
    | |- context [scheduleSmartRetry ?b ?r ?s] =>
        destruct (scheduleSmartRetry b r s) as [[] ?]
    end; done.
Qed.

(** C4 on two bots that exit at about the same time.  Both are running;
    child 0 of bot-1 exits with code 0, child 2 of bot-2 with code 1, and
    the listener of child 2 starts while the listener of child 0 waits for
    [readBots] in [updateBotStatus].  Both listeners have read rows in
    which both bots are running.  The first writes them with bot-1 as
    stopped; the second writes the rows it has read with bot-2 as error.
    Both bots are out of the live table, and the row of bot-1, whose child
    exited with code 0, still says running.  The same two exits handled
    one after the other leave bot-1 stopped and bot-2 in error. *)
Theorem overlapping_exits_lose_a_status :
  let s := Pair.running in
  let exit1 := emitExitUntilWrite 0 (Some 0) None (1 # 2) in
  let exit2 := emitExitUntilWrite 2 (Some 1) None (1 # 2) in
  let s' := exec (overlapped exit1 exit2) s in
  let alone := run [ChildExit 0 (Some 0) None (1 # 2);
                    ChildExit 2 (Some 1) None (1 # 2)] s in
  owner <$> children s !! 0%nat = Some "bot-1" ∧
  owner <$> children s !! 2%nat = Some "bot-2" ∧
  status <$> bots s !! "bot-1" = Some st_running ∧
  status <$> bots s !! "bot-2" = Some st_running ∧
  runningBots s' !! "bot-1" = None ∧
  runningBots s' !! "bot-2" = None ∧
  status <$> bots s' !! "bot-1" = Some st_running ∧
  status <$> bots s' !! "bot-2" = Some st_error ∧
  status <$> bots alone !! "bot-1" = Some st_stopped ∧
  status <$> bots alone !! "bot-2" = Some st_error.
Proof. vm_compute. split_and!; reflexivity. Qed.

(** C8 on two bots whose probes time out at about the same time.  Both
    have failed two probes in a row, and the third probes, sent in the same
    round, are outstanding.  Timer 10 fires, and timer 11 fires while the
    handler of bot-1 waits for [readBots] in [updateBotStatus].  Both
    records reach [MAX_CONSECUTIVE_FAILURES]; the write of the second
    handler puts back the row of bot-1 it has read, and bot-1 is left as
    running.  The same two timeouts handled one after the other leave both
    bots unresponsive. *)
Theorem overlapping_probe_timeouts_lose_unresponsive :
  let s := Pair.probedAgain in
  let s' := exec (overlapped (probeTimeoutUntilWrite 10)
                    (probeTimeoutUntilWrite 11)) s in
  let alone := run [TimerDue 10 Pair.launch Delivered;
                    TimerDue 11 Pair.launch Delivered] s in
  timers s !! 10%nat = Some (mkTimer 30000 (HealthTimeout "bot-1" 4 "hc_c1")) ∧
  timers s !! 11%nat = Some (mkTimer 30000 (HealthTimeout "bot-2" 6 "hc_c2")) ∧
  healthCheckData s !! "bot-1" = Some 4%nat ∧
  healthCheckData s !! "bot-2" = Some 6%nat ∧
  consecutiveFailures <$> healthInfos s !! 4%nat = Some 2 ∧
  consecutiveFailures <$> healthInfos s !! 6%nat = Some 2 ∧
  status <$> bots s !! "bot-1" = Some st_running ∧
  status <$> bots s !! "bot-2" = Some st_running ∧
  consecutiveFailures <$> healthInfos s' !! 4%nat
    = Some MAX_CONSECUTIVE_FAILURES ∧
  consecutiveFailures <$> healthInfos s' !! 6%nat
    = Some MAX_CONSECUTIVE_FAILURES ∧
  status <$> bots s' !! "bot-1" = Some st_running ∧
  status <$> bots s' !! "bot-2" = Some st_unresponsive ∧
  status <$> bots alone !! "bot-1" = Some st_unresponsive ∧
  status <$> bots alone !! "bot-2" = Some st_unresponsive.
Proof. vm_compute. split_and!; reflexivity. Qed.

(** C10 on two bots that are stopped together.  Both are live; [stopBot]
    writes each as stopped and sends each child its SIGTERM.  The children
    end on the signal, with exit code [null], and the listener of child 2
    starts while the listener of child 0 waits for [readBots] in
    [updateBotStatus].  Both promises of [stopBot] are resolved with
    [true] and no SIGKILL is due; the write of the second listener puts
    back the row of bot-1 it has read, and bot-1 is left as stopped, bot-2
    in error.  The same two exits handled one after the other leave both
    bots in error. *)
Theorem overlapping_graceful_stops_leave_stopped :
  let s := Pair.running in
  let s1 := run [CallStop "bot-1" Delivered; CallStop "bot-2" Delivered] s in
  let exit1 := emitExitUntilWrite 0 None (Some "SIGTERM") (1 # 2) in
  let exit2 := emitExitUntilWrite 2 None (Some "SIGTERM") (1 # 2) in
  let s' := exec (overlapped exit1 exit2) s1 in
  let alone := run [ChildExit 0 None (Some "SIGTERM") (1 # 2);
                    ChildExit 2 None (Some "SIGTERM") (1 # 2)] s1 in
  runningBots s !! "bot-1" = Some 0%nat ∧
  runningBots s !! "bot-2" = Some 2%nat ∧
  signals s1 = [(0%nat, "SIGTERM"); (2%nat, "SIGTERM")] ∧
  status <$> bots s1 !! "bot-1" = Some st_stopped ∧
  status <$> bots s1 !! "bot-2" = Some st_stopped ∧
  resolved <$> stopCalls s' !! 0%nat = Some (Some true) ∧
  resolved <$> stopCalls s' !! 2%nat = Some (Some true) ∧
  timers s' = ∅ ∧
  status <$> bots s' !! "bot-1" = Some st_stopped ∧
  status <$> bots s' !! "bot-2" = Some st_error ∧
  status <$> bots alone !! "bot-1" = Some st_error ∧
  status <$> bots alone !! "bot-2" = Some st_error.
Proof. vm_compute. split_and!; reflexivity. Qed.

(** ** The log files *)

Lemma lastN_push {A} (n : nat) (e : A) (h : list A) :
  LogStorage.lastN (S n) (h ++ [e])
  = (if bool_decide (S n < length (LogStorage.lastN (S n) h ++ [e]))%nat
     then drop 1 (LogStorage.lastN (S n) h ++ [e])
     else LogStorage.lastN (S n) h ++ [e]).
Proof.
  unfold LogStorage.lastN. rewrite !length_app, !length_drop. cbn [length].
  destruct (decide (length h ≤ n)%nat) as [Hle|Hgt].
  - replace (length h - S n)%nat with 0%nat by lia.
    replace (length h + 1 - S n)%nat with 0%nat by lia.
    rewrite bool_decide_eq_false_2 by lia. done.
  - rewrite bool_decide_eq_true_2 by lia.
    rewrite drop_app_le by lia.
    rewrite drop_app_le by (rewrite length_drop; lia).
    rewrite drop_drop. f_equal. f_equal. lia.
Qed.

Lemma push_window (e : LogEntry) (h : list LogEntry) :
  LogStorage.push e (LogStorage.lastN 1000 h) = LogStorage.lastN 1000 (h ++ [e]).
Proof. unfold LogStorage.push. symmetry. apply (lastN_push 999). Qed.

(** X1. [LogStorage.addLog] keeps the log file of a bot within 1000
    entries. On a file of at most 1000 entries it leaves at most 1000, the
    new entry last: below 1000 entries it only appends, at 1000 it drops
    the oldest entry. The files of other bots are not touched. *)
Theorem log_file_is_bounded
    (s : Manager) (botId : string) (log : LogEntry) :
  (length (result (LogStorage.getLogs botId) s) ≤ 1000)%nat →
  let before := result (LogStorage.getLogs botId) s in
  let s' := exec (LogStorage.addLog botId log) s in
  let after := result (LogStorage.getLogs botId) s' in
  (length after ≤ 1000)%nat ∧
  last after = Some log ∧
  ((length before < 1000)%nat → after = before ++ [log]) ∧
  (length before = 1000%nat → after = drop 1 before ++ [log]) ∧
  (∀ other, other ≠ botId → logs s' !! other = logs s !! other).
Proof.
  intros Hlen before s' after. subst before s' after.
  destruct s as [? ? ? ? ? ? ? ? ? lg ? ? ? ? ?]. revert Hlen.
  unfold LogStorage.addLog, LogStorage.getLogs, LogStorage.push. mrun.
  intros Hlen. set (l := match lg !! botId with Some x => x | None => [] end) in *.
  split_and!.
  - case_bool_decide; rewrite ?length_drop, !length_app in *; cbn in *; lia.
  - case_bool_decide.
    + rewrite length_app in *. cbn in *.
      destruct l as [|x l]; [cbn in *; lia|]. cbn. rewrite drop_0.
      apply last_snoc.
    + apply last_snoc.
  - intros Hlt. rewrite bool_decide_eq_false_2; [done|].
    rewrite length_app. cbn. lia.
  - intros Heq. rewrite bool_decide_eq_true_2 by (rewrite length_app; cbn; lia).
    destruct l; [cbn in Heq; lia|]. done.
  - intros other Hne. by rewrite lookup_insert_ne.
Qed.

Lemma log_file_is_bounded_witness :
  let s := Scenario.running in
  let log := mkLogEntry 2500 lvl_info "hello" in
  let before := result (LogStorage.getLogs "bot-1") s in
  let s' := exec (LogStorage.addLog "bot-1" log) s in
  let after := result (LogStorage.getLogs "bot-1") s' in
  (length after ≤ 1000)%nat ∧
  last after = Some log ∧
  ((length before < 1000)%nat → after = before ++ [log]) ∧
  (length before = 1000%nat → after = drop 1 before ++ [log]) ∧
  (∀ other, other ≠ "bot-1" → logs s' !! other = logs s !! other).
Proof.
  apply (log_file_is_bounded Scenario.running "bot-1"
           (mkLogEntry 2500 lvl_info "hello")).
  vm_compute. lia.
Defined.

Lemma windowOf_short (m : gmap string (list LogEntry)) :
  map_Forall (λ _ l, (length l ≤ 1000)%nat) m → LogStorage.windowOf m m.
Proof.
  intros H b. destruct (m !! b) as [l|] eqn:Hl; [|done]. cbn. f_equal.
  unfold LogStorage.lastN. specialize (H _ _ Hl). cbn in H.
  replace (length l - 1000)%nat with 0%nat by lia. done.
Qed.

(** X2. The log files are the last 1000 entries of the unbounded log. If
    each file holds the last 1000 entries of what the log without the
    bound holds for that bot, then [getLogs] returns that window, and the
    relation is kept by [addLog], [clearLogs] and [deleteBotLogs]. *)
Theorem log_file_is_window_of_history
    (ideal files : Manager) (botId : string) (log : LogEntry) :
  LogStorage.windowOf (logs ideal) (logs files) →
  result (LogStorage.getLogs botId) files
    = LogStorage.lastN 1000 (result (UnboundedLog.getLogs botId) ideal) ∧
  LogStorage.windowOf (logs (exec (UnboundedLog.addLog botId log) ideal))
    (logs (exec (LogStorage.addLog botId log) files)) ∧
  LogStorage.windowOf (logs (exec (UnboundedLog.clearLogs botId) ideal))
    (logs (exec (LogStorage.clearLogs botId) files)) ∧
  LogStorage.windowOf (logs (exec (UnboundedLog.deleteBotLogs botId) ideal))
    (logs (exec (LogStorage.deleteBotLogs botId) files)).
Proof.
  intros W. destruct ideal as [? ? ? ? ? ? ? ? ? li ? ? ? ? ?],
    files as [? ? ? ? ? ? ? ? ? lf ? ? ? ? ?].
  unfold UnboundedLog.getLogs, UnboundedLog.addLog, UnboundedLog.clearLogs,
    UnboundedLog.deleteBotLogs.
  mred in W. mred.
  assert (G : match lf !! botId with Some x => x | None => [] end
              = LogStorage.lastN 1000
                  match li !! botId with Some x => x | None => [] end).
  { rewrite (W botId). by destruct (li !! botId). }
  split_and!.
  - done.
  - intros b. destruct (decide (b = botId)) as [->|Hne].
    + rewrite !lookup_insert_eq, G. cbn. f_equal. apply push_window.
    + rewrite !lookup_insert_ne by done. apply W.
  - intros b. destruct (decide (b = botId)) as [->|Hne].
    + by rewrite !lookup_insert_eq.
    + rewrite !lookup_insert_ne by done. apply W.
  - intros b. destruct (decide (b = botId)) as [->|Hne].
    + by rewrite !lookup_delete_eq.
    + rewrite !lookup_delete_ne by done. apply W.
Qed.

Lemma log_file_is_window_of_history_witness :
  let ideal := Scenario.running in
  let files := Scenario.running in
  let log := mkLogEntry 2500 lvl_info "hello" in
  result (LogStorage.getLogs "bot-1") files
    = LogStorage.lastN 1000 (result (UnboundedLog.getLogs "bot-1") ideal) ∧
  LogStorage.windowOf (logs (exec (UnboundedLog.addLog "bot-1" log) ideal))
    (logs (exec (LogStorage.addLog "bot-1" log) files)) ∧
  LogStorage.windowOf (logs (exec (UnboundedLog.clearLogs "bot-1") ideal))
    (logs (exec (LogStorage.clearLogs "bot-1") files)) ∧
  LogStorage.windowOf (logs (exec (UnboundedLog.deleteBotLogs "bot-1") ideal))
    (logs (exec (LogStorage.deleteBotLogs "bot-1") files)).
Proof.
  apply (log_file_is_window_of_history Scenario.running Scenario.running
           "bot-1" (mkLogEntry 2500 lvl_info "hello")).
  apply windowOf_short. refine (bool_decide_unpack _ _). vm_compute. exact I.
Defined.

(** ** Names and archives: server/security.ts and the schema *)

Lemma chars_app (a b : string) : Str.chars (a +:+ b) = Str.chars a ++ Str.chars b.
Proof.
  unfold Str.chars. induction a as [|c a IH]; [done|].
  simpl. f_equal. exact IH.
Qed.

Lemma ofChars_chars (s : string) : Str.ofChars (Str.chars s) = s.
Proof. apply String.string_of_list_ascii_of_string. Qed.

Lemma takeWhile_all p l : Forall (λ c, p c = true) l → Str.takeWhile p l = l.
Proof. induction 1 as [|c l Hc _ IH]; cbn; [done|]. by rewrite Hc, IH. Qed.

Lemma takeWhile_app_stop p l c r :
  Forall (λ c, p c = true) l → p c = false →
  Str.takeWhile p (l ++ c :: r) = l.
Proof.
  induction 1 as [|x l Hx _ IH]; intros Hc; cbn.
  - by rewrite Hc.
  - by rewrite Hx, IH.
Qed.

Lemma dropWhile_head p c l : p c = false → Str.dropWhile p (c :: l) = c :: l.
Proof. intros H. cbn. by rewrite H. Qed.

Lemma isNot_true c d : Str.isNot c d = true ↔ d ≠ c.
Proof.
  unfold Str.isNot, Str.isChar. rewrite negb_true_iff, bool_decide_eq_false.
  split; intros H E; by apply H.
Qed.

(** A name without a slash is its own last segment. *)
Lemma lastSegment_no_slash l :
  Forall (λ c, c ≠ "/"%char) l → Str.lastSegment l = l.
Proof.
  intros F. unfold Str.lastSegment.
  assert (Fr : Forall (λ c, Str.isNot "/" c = true) (reverse l)).
  { apply Forall_reverse. eapply Forall_impl; [exact F|].
    intros c Hc. by apply isNot_true. }
  assert (D : Str.dropWhile (Str.isChar "/") (reverse l) = reverse l).
  { destruct Fr as [|c r Hc _]; [done|]. apply dropWhile_head.
    unfold Str.isNot in Hc. by apply negb_true_iff in Hc. }
  rewrite D, takeWhile_all by done. apply reverse_involutive.
Qed.

(** The last segment of [dir/name] is [name]. *)
Lemma lastSegment_join d n :
  n ≠ [] → Forall (λ c, c ≠ "/"%char) n →
  Str.lastSegment (d ++ "/"%char :: n) = n.
Proof.
  intros Hn F. unfold Str.lastSegment.
  rewrite reverse_app, reverse_cons, <- app_assoc. cbn [app].
  assert (Fr : Forall (λ c, Str.isNot "/" c = true) (reverse n)).
  { apply Forall_reverse. eapply Forall_impl; [exact F|].
    intros c Hc. by apply isNot_true. }
  assert (D : ∀ r, Str.dropWhile (Str.isChar "/") (reverse n ++ r) = reverse n ++ r).
  { intros r. destruct (reverse n) as [|c rn] eqn:E.
    - apply (f_equal reverse) in E. rewrite reverse_involutive in E. done.
    - inversion Fr as [|? ? Hc _]; subst. cbn [app]. apply dropWhile_head.
      unfold Str.isNot in Hc. by apply negb_true_iff in Hc. }
  rewrite D, takeWhile_app_stop by done. apply reverse_involutive.
Qed.

Lemma lastSegment_Forall l :
  Forall (λ c, c ≠ "/"%char) (Str.lastSegment l).
Proof.
  unfold Str.lastSegment. apply Forall_reverse.
  eapply Forall_impl; [apply takeWhile_Forall|].
  intros c Hc. by apply isNot_true.
Qed.

Lemma scrub_safe c : security.isSafeChar (security.scrub c) = true.
Proof.
  unfold security.scrub.
  destruct (security.isSafeChar c) eqn:E; [done|reflexivity].
Qed.

Lemma scrub_id c : security.isSafeChar c = true → security.scrub c = c.
Proof. unfold security.scrub. by intros ->. Qed.

Lemma scrub_all_safe l :
  Forall (λ c, security.isSafeChar c = true) l → security.scrub <$> l = l.
Proof.
  induction 1 as [|c l Hc _ IH]; [done|].
  rewrite fmap_cons, scrub_id, IH; done.
Qed.

Lemma safe_not_slash c : security.isSafeChar c = true → c ≠ "/"%char ∧ c ≠ "\"%char.
Proof. split; intros ->; discriminate. Qed.

Lemma sanitize_chars f :
  Str.chars (security.sanitizeFileName f) = security.scrub <$> Str.lastSegment (Str.chars f).
Proof. unfold security.sanitizeFileName. by rewrite chars_ofChars. Qed.

Lemma sanitize_safe f :
  Forall (λ c, security.isSafeChar c = true)
    (Str.chars (security.sanitizeFileName f)).
Proof.
  rewrite sanitize_chars. apply Forall_fmap, Forall_true. intros c.
  apply scrub_safe.
Qed.

(** X5. [sanitizeFileName] returns a name made of letters, digits,
    underscore, dot and hyphen only. It holds no slash and no backslash,
    is not longer than the argument, and sanitizing it again changes
    nothing. *)
Theorem sanitized_name_is_clean (fileName : string) :
  let clean := security.sanitizeFileName fileName in
  Forall (λ c, security.isSafeChar c = true) (Str.chars clean) ∧
  ("/"%char ∉ Str.chars clean) ∧ ("\"%char ∉ Str.chars clean) ∧
  (length (Str.chars clean) ≤ length (Str.chars fileName))%nat ∧
  security.sanitizeFileName clean = clean.
Proof.
  cbn zeta.
  pose proof (sanitize_safe fileName) as S.
  split_and!.
  - done.
  - intros H. rewrite Forall_forall in S. by destruct (safe_not_slash _ (S _ H)).
  - intros H. rewrite Forall_forall in S. by destruct (safe_not_slash _ (S _ H)).
  - rewrite sanitize_chars, length_fmap. unfold Str.lastSegment.
    rewrite length_reverse.
    assert (T : ∀ p l, (length (Str.takeWhile p l) ≤ length l)%nat).
    { intros p l. induction l as [|c l IH]; cbn; [lia|]. destruct (p c); cbn; lia. }
    assert (D : ∀ p l, (length (Str.dropWhile p l) ≤ length l)%nat).
    { intros p l. induction l as [|c l IH]; cbn; [lia|]. destruct (p c); cbn; lia. }
    etrans; [apply T|]. etrans; [apply D|]. by rewrite length_reverse.
  - unfold security.sanitizeFileName at 1.
    rewrite lastSegment_no_slash.
    2:{ eapply Forall_impl; [exact S|]. intros c Hc. by destruct (safe_not_slash c Hc). }
    rewrite <- (ofChars_chars (security.sanitizeFileName fileName)) at 2.
    f_equal. by apply scrub_all_safe.
Qed.

Lemma includes_char_false (l : list ascii) (c : ascii) :
  Str.includesChars [c] l = false → Forall (λ x, x ≠ c) l.
Proof.
  induction l as [|x l IH]; cbn; [constructor|].
  rewrite orb_false_iff, andb_true_r, bool_decide_eq_false.
  intros [Hx Hl]. constructor; [congruence|auto].
Qed.

(** X6. [sanitizeFileName] ignores the directories of a path: for a name
    that is not empty and holds no slash, [dir/name] and [name] have the
    same result. *)
Theorem sanitize_drops_directories (dir name : string) :
  name ≠ "" → Str.includes name "/" = false →
  security.sanitizeFileName (dir +:+ "/" +:+ name)
  = security.sanitizeFileName name.
Proof.
  intros Hn Hs. unfold security.sanitizeFileName.
  rewrite !chars_app. change (Str.chars "/") with ["/"%char]. cbn [app].
  assert (F : Forall (λ c, c ≠ "/"%char) (Str.chars name))
    by (by apply includes_char_false).
  rewrite lastSegment_join, lastSegment_no_slash; try done.
  intros E. apply Hn. rewrite <- (ofChars_chars name), E. done.
Qed.

Lemma sanitize_drops_directories_witness :
  security.sanitizeFileName ("src/lib" +:+ "/" +:+ "index.js")
  = security.sanitizeFileName "index.js".
Proof.
  apply (sanitize_drops_directories "src/lib" "index.js");
    [discriminate | reflexivity].
Defined.

Lemma forallb_Forall {A} (p : A → bool) l :
  forallb p l = true → Forall (λ x, p x = true) l.
Proof.
  induction l as [|x l IH]; cbn; [constructor|].
  rewrite andb_true_iff. intros [? ?]. constructor; auto.
Qed.

Lemma nameChar_safe c : schema.isNameChar c = true → security.isSafeChar c = true.
Proof.
  unfold schema.isNameChar, security.isSafeChar.
  rewrite !orb_true_iff. tauto.
Qed.

(** X7. A bot name that [insertBotSchema] accepts is left as it is by
    [sanitizeFileName], which the upload route applies to it. *)
Theorem valid_name_is_unchanged_by_sanitize (name : string) :
  schema.validName name = true → security.sanitizeFileName name = name.
Proof.
  unfold schema.validName. rewrite !andb_true_iff.
  intros [[[_ _] Hall] _]. apply forallb_Forall in Hall.
  assert (S : Forall (λ c, security.isSafeChar c = true) (Str.chars name)).
  { eapply Forall_impl; [exact Hall|]. apply nameChar_safe. }
  unfold security.sanitizeFileName. rewrite lastSegment_no_slash.
  2:{ eapply Forall_impl; [exact S|]. intros c Hc. by destruct (safe_not_slash c Hc). }
  rewrite <- (ofChars_chars name) at 2. f_equal. by apply scrub_all_safe.
Qed.

Lemma valid_name_is_unchanged_by_sanitize_witness :
  security.sanitizeFileName "music-bot_2" = "music-bot_2".
Proof. apply (valid_name_is_unchanged_by_sanitize "music-bot_2"). reflexivity. Defined.

Lemma startsWith_prefix p l :
  Str.startsWith p l = true → ∃ r, l = p ++ r.
Proof.
  revert l. induction p as [|a p IH]; intros l; [by exists l|].
  destruct l as [|b l]; [discriminate|]. cbn.
  rewrite andb_true_iff, bool_decide_eq_true. intros [-> H].
  destruct (IH l H) as [r ->]. by exists r.
Qed.

Lemma startsWith_app p r : Str.startsWith p (p ++ r) = true.
Proof.
  induction p as [|a p IH]; [done|]. cbn.
  by rewrite bool_decide_eq_true_2, IH.
Qed.

Lemma takeWhile_app_all p l r :
  Forall (λ c, p c = true) l →
  Str.takeWhile p (l ++ r) = l ++ Str.takeWhile p r.
Proof. induction 1 as [|x l Hx _ IH]; cbn; [done|]. by rewrite Hx, IH. Qed.

Lemma endsWith_suffix (s suffix : string) :
  security.endsWith s suffix = true →
  ∃ front, Str.chars s = front ++ Str.chars suffix.
Proof.
  unfold security.endsWith. intros H.
  destruct (startsWith_prefix _ _ H) as [r E].
  exists (reverse r). apply (f_equal reverse) in E.
  by rewrite reverse_involutive, reverse_app, reverse_involutive in E.
Qed.

(** The extension of a path whose last segment is [stem.e], with a stem
    that is not empty and an [e] without a dot. *)
Lemma extname_last_dot (l stem e : list ascii) :
  Str.lastSegment l = stem ++ "."%char :: e →
  stem ≠ [] → e ≠ [] → Forall (λ c, c ≠ "."%char) e →
  Str.extname (Str.ofChars l) = Str.ofChars ("."%char :: e).
Proof.
  intros Hseg Hstem He Hdot. unfold Str.extname.
  rewrite chars_ofChars, Hseg.
  rewrite reverse_app, reverse_cons, <- app_assoc. cbn [app].
  rewrite takeWhile_app_stop; [|by apply Forall_reverse;
    eapply Forall_impl; [exact Hdot|]; intros c Hc; by apply isNot_true | done].
  rewrite reverse_involutive.
  assert (L : length (stem ++ "."%char :: e) = (length stem + S (length e))%nat)
    by (rewrite length_app; done).
  assert (0 < length stem)%nat by (destruct stem; [done|cbn; lia]).
  assert (0 < length e)%nat by (destruct e; [done|cbn; lia]).
  rewrite bool_decide_eq_false_2.
  2:{ intros E. apply (f_equal length) in E. rewrite L in E. cbn in E. lia. }
  rewrite bool_decide_eq_false_2 by (rewrite L; lia).
  rewrite bool_decide_eq_false_2 by (rewrite L; lia).
  done.
Qed.

Lemma lowerChar_dot c : Str.lowerChar c = "."%char → c = "."%char.
Proof.
  destruct c as [[] [] [] [] [] [] [] []]; vm_compute; congruence.
Qed.

Lemma lowerChar_letter c :
  bool_decide (Str.lowerChar c ∈ ["j"; "s"; "t"; "p"; "y"]%char) = true →
  security.isSafeChar c = true ∧ c ≠ "."%char.
Proof.
  destruct c as [[] [] [] [] [] [] [] []]; vm_compute; intros H;
    first [discriminate H | split; [reflexivity | discriminate]].
Qed.

Lemma chars_toLowerCase s : Str.chars (Str.toLowerCase s) = Str.lowerChar <$> Str.chars s.
Proof. unfold Str.toLowerCase. by rewrite chars_ofChars. Qed.

(** A file name that ends, in any letter case, with a dot and two letters
    of a script extension, and has a stem: after [sanitizeFileName] its
    extension is that one in lower case. *)
Lemma sanitized_script_extension (f : string) (c1 c2 : ascii) :
  Forall (λ c, c ≠ "/"%char) (Str.chars f) →
  security.startsWith f "." = false →
  security.endsWith (Str.toLowerCase f) (Str.ofChars ["."; c1; c2]%char) = true →
  bool_decide (c1 ∈ ["j"; "s"; "t"; "p"; "y"]%char) = true →
  bool_decide (c2 ∈ ["j"; "s"; "t"; "p"; "y"]%char) = true →
  Str.toLowerCase (Str.extname (security.sanitizeFileName f))
  = Str.ofChars ["."; c1; c2]%char.
Proof.
  intros Hslash Hdot Hend H1 H2.
  destruct (endsWith_suffix _ _ Hend) as [front E].
  rewrite chars_toLowerCase, chars_ofChars in E.
  (* the three last characters of the name *)
  assert (∃ stem d a b, Str.chars f = stem ++ [d; a; b] ∧
            Str.lowerChar d = "."%char ∧ Str.lowerChar a = c1 ∧
            Str.lowerChar b = c2) as (stem & d & a & b & Ef & Hd & Ha & Hb).
  { destruct (Str.chars f) as [|x l] using rev_ind; [by destruct front|].
    destruct l as [|y l _] using rev_ind.
    { destruct front as [|? [|? ?]]; discriminate. }
    destruct l as [|z l _] using rev_ind.
    { destruct front as [|? [|? [|? ?]]]; discriminate. }
    exists l, z, y, x. rewrite <- !app_assoc. split; [done|].
    assert (E' : (((Str.lowerChar <$> l) ++ [Str.lowerChar z])
                    ++ [Str.lowerChar y]) ++ [Str.lowerChar x]
                 = ((front ++ ["."%char]) ++ [c1]) ++ [c2]).
    { rewrite <- !app_assoc. cbn [app]. rewrite <- E, !fmap_app.
      rewrite <- !app_assoc. done. }
    apply app_inj_tail in E' as [E' ->]. apply app_inj_tail in E' as [E' ->].
    apply app_inj_tail in E' as [E' Hz]. done. }
  apply lowerChar_dot in Hd. subst d.
  rewrite <- Ha in H1. rewrite <- Hb in H2.
  destruct (lowerChar_letter a H1) as [Sa Da].
  destruct (lowerChar_letter b H2) as [Sb Db].
  assert (Hstem : stem ≠ []).
  { intros ->. unfold security.startsWith in Hdot. rewrite Ef in Hdot.
    discriminate. }
  unfold security.sanitizeFileName.
  rewrite (lastSegment_no_slash _ Hslash), Ef, fmap_app. cbn [fmap list_fmap].
  rewrite (scrub_id a Sa), (scrub_id b Sb).
  change (security.scrub ".") with "."%char.
  erewrite (extname_last_dot _ (security.scrub <$> stem) [a; b]).
  - unfold Str.toLowerCase. rewrite chars_ofChars. cbn.
    by rewrite Ha, Hb.
  - apply lastSegment_no_slash. apply Forall_app. split.
    + apply Forall_fmap, Forall_true. intros c.
      by destruct (safe_not_slash _ (scrub_safe c)).
    + repeat constructor; try discriminate.
      * by destruct (safe_not_slash a Sa).
      * by destruct (safe_not_slash b Sb).
  - by destruct stem.
  - done.
  - repeat constructor; done.
Qed.

(** X8. A main file name that [insertBotSchema] accepts still has, after
    the [sanitizeFileName] of the upload route, one of the extensions
    [.js], [.ts] and [.py], the ones [startBot] can launch. *)
Theorem valid_main_file_keeps_a_supported_extension (file : string) :
  schema.validMainFile file = true →
  let ext := Str.toLowerCase (Str.extname (security.sanitizeFileName file)) in
  ext = ".js" ∨ ext = ".ts" ∨ ext = ".py".
Proof.
  unfold schema.validMainFile, schema.hasScriptExtension.
  rewrite !andb_true_iff, !negb_true_iff, !orb_true_iff.
  intros [[[[_ _] Hres] Hext] [[[_ Hdot] _] _]]. cbn zeta.
  assert (Hslash : Forall (λ c, c ≠ "/"%char) (Str.chars file)).
  { apply forallb_Forall in Hres. eapply Forall_impl; [exact Hres|].
    intros c Hc ->. discriminate. }
  destruct Hext as [[H|H]|H].
  - left. by apply (sanitized_script_extension file "j" "s").
  - right. left. by apply (sanitized_script_extension file "t" "s").
  - right. right. by apply (sanitized_script_extension file "p" "y").
Qed.

Lemma valid_main_file_keeps_a_supported_extension_witness :
  let ext := Str.toLowerCase (Str.extname (security.sanitizeFileName "My Bot.PY")) in
  ext = ".js" ∨ ext = ".ts" ∨ ext = ".py".
Proof.
  apply (valid_main_file_keeps_a_supported_extension "My Bot.PY"). reflexivity.
Defined.

Lemma lastSegment_app (front tail : list ascii) :
  tail ≠ [] → Forall (λ c, c ≠ "/"%char) tail →
  Str.lastSegment (front ++ tail)
  = reverse (Str.takeWhile (Str.isNot "/") (reverse front)) ++ tail.
Proof.
  intros Hn F. unfold Str.lastSegment. rewrite reverse_app.
  assert (Fr : Forall (λ c, Str.isNot "/" c = true) (reverse tail)).
  { apply Forall_reverse. eapply Forall_impl; [exact F|].
    intros c Hc. by apply isNot_true. }
  assert (D : Str.dropWhile (Str.isChar "/") (reverse tail ++ reverse front)
              = reverse tail ++ reverse front).
  { destruct (reverse tail) as [|c rn] eqn:E.
    - apply (f_equal reverse) in E. rewrite reverse_involutive in E. done.
    - inversion Fr as [|? ? Hc _]; subst. cbn [app]. apply dropWhile_head.
      unfold Str.isNot in Hc. by apply negb_true_iff in Hc. }
  rewrite D, takeWhile_app_all, reverse_app, reverse_involutive by done. done.
Qed.

(** X9. [validateZipEntry] lists [.env.example] among the allowed
    extensions, yet it accepts no entry whose name ends in [.env.example]:
    what [path.extname] returns for such a name is [.example] or nothing,
    and the name that is nothing but [.env.example] counts as hidden. *)
Theorem env_example_is_never_accepted (entryName : string) (size : Z) :
  security.endsWith entryName ".env.example" = true →
  security.validateZipEntry entryName size ≠ security.Valid.
Proof.
  intros Hend. destruct (endsWith_suffix _ _ Hend) as [front E].
  assert (Hext : Str.toLowerCase (Str.extname entryName) = ".example").
  { rewrite <- (ofChars_chars entryName), E.
    erewrite (extname_last_dot _
                (reverse (Str.takeWhile (Str.isNot "/") (reverse front))
                   ++ Str.chars ".env") (Str.chars "example")).
    - reflexivity.
    - rewrite <- app_assoc. apply lastSegment_app; [done|].
      repeat constructor; discriminate.
    - intros H. apply app_eq_nil in H as [_ H]. discriminate.
    - discriminate.
    - repeat constructor; discriminate. }
  assert (Hfile : security.endsWith entryName "/" = false
                  ∧ security.endsWith entryName "\" = false).
  { unfold security.endsWith. rewrite E, reverse_app. done. }
  destruct Hfile as [H1 H2].
  unfold security.validateZipEntry. rewrite H1, H2, Hext. cbn [negb andb].
  match goal with
  | |- context [negb (bool_decide (".example" = "")) && ?b] =>
      replace (negb (bool_decide (".example" = "")) && b) with true
        by (vm_compute; reflexivity)
  end.
  repeat match goal with
         | |- (if ?b then _ else _) ≠ _ => destruct b; [discriminate|]
         end.
  discriminate.
Qed.

Lemma env_example_is_never_accepted_witness :
  security.validateZipEntry "config/app.env.example" 120 ≠ security.Valid.
Proof.
  apply (env_example_is_never_accepted "config/app.env.example" 120).
  reflexivity.
Defined.

Lemma includesChars_infix n l :
  Str.includesChars n l = true ↔ ∃ a b, l = a ++ n ++ b.
Proof.
  split.
  - induction l as [|c l IH]; cbn; rewrite orb_true_iff.
    + intros [H|H]; [|discriminate].
      destruct (startsWith_prefix _ _ H) as [r ->]. by exists [], r.
    + intros [H|H].
      * destruct (startsWith_prefix _ _ H) as [r ->]. by exists [], r.
      * destruct (IH H) as (a & b & ->). by exists (c :: a), b.
  - intros (a & b & ->). induction a as [|c a IH]; cbn [app].
    + destruct (n ++ b) eqn:E; cbn; rewrite <- E, startsWith_app; done.
    + cbn. rewrite IH. apply orb_true_r.
Qed.

Lemma takeWhile_split p l : ∃ r, l = Str.takeWhile p l ++ r.
Proof.
  induction l as [|c l [r IH]]; cbn; [by exists []|].
  destruct (p c); [exists r; cbn; by f_equal | by exists (c :: l)].
Qed.

Lemma dropWhile_split p l : ∃ q, l = q ++ Str.dropWhile p l.
Proof.
  induction l as [|c l [q IH]]; cbn; [by exists []|].
  destruct (p c); [exists (c :: q); cbn; by f_equal | by exists []].
Qed.

Lemma lastSegment_infix l : ∃ a b, l = a ++ Str.lastSegment l ++ b.
Proof.
  unfold Str.lastSegment.
  destruct (dropWhile_split (Str.isChar "/") (reverse l)) as [q Hq].
  destruct (takeWhile_split (Str.isNot "/")
              (Str.dropWhile (Str.isChar "/") (reverse l))) as [r Hr].
  exists (reverse r), (reverse q).
  rewrite <- (reverse_involutive l), Hq, Hr at 1.
  by rewrite !reverse_app, <- app_assoc.
Qed.

Lemma scrub_dot c : security.scrub c = "."%char → c = "."%char.
Proof.
  unfold security.scrub. destruct (security.isSafeChar c); [done|discriminate].
Qed.

(** X10. An entry that [validateZipEntry] accepts is at most 10 MB, and
    the name it is extracted under, [sanitizeFileName entryName], holds
    neither two dots in a row nor a slash. *)
Theorem accepted_entry_has_no_parent_reference
    (entryName : string) (size : Z) :
  security.validateZipEntry entryName size = security.Valid →
  Str.includes (security.sanitizeFileName entryName) ".." = false ∧
  Str.includes (security.sanitizeFileName entryName) "/" = false ∧
  size ≤ security.MAX_FILE_SIZE.
Proof.
  intros V. unfold security.validateZipEntry in V.
  destruct (Str.includes entryName ".." || _ || _) eqn:H1; [discriminate|].
  destruct (security.startsWith entryName "/") eqn:H2; [discriminate|].
  destruct (security.startsWith entryName "." || _ || _) eqn:H3; [discriminate|].
  destruct (bool_decide (security.MAX_FILE_SIZE < size)) eqn:H4; [discriminate|].
  clear V. rewrite !orb_false_iff in H1, H3.
  destruct H1 as [[H1 _] _]. destruct H3 as [[H3 H3'] _].
  apply bool_decide_eq_false in H4.
  split_and!; [| |lia].
  - apply not_true_is_false. intros I. apply not_true_iff_false in H1. apply H1.
    unfold Str.includes in *. rewrite sanitize_chars in I.
    apply includesChars_infix in I as (a & b & E).
    apply fmap_app_inv in E as (a' & m & _ & Em & El).
    symmetry in Em. apply fmap_app_inv in Em as (d & b' & Ed & _ & ->).
    destruct d as [|x [|y [|? ?]]]; try discriminate.
    injection Ed as Hx%eq_sym%scrub_dot Hy%eq_sym%scrub_dot. subst x y.
    destruct (lastSegment_infix (Str.chars entryName)) as (p & q & Ep).
    apply includesChars_infix. exists (p ++ a'), (b' ++ q).
    rewrite Ep at 1. rewrite El, <- !app_assoc. done.
  - apply not_true_is_false. intros I.
    unfold Str.includes in I. apply includesChars_infix in I as (a & b & E).
    pose proof (sanitize_safe entryName) as N. rewrite Forall_forall in N.
    assert (X : "/"%char ∈ Str.chars (security.sanitizeFileName entryName)).
    { rewrite E. apply elem_of_app. right. by left. }
    by destruct (safe_not_slash _ (N _ X)).
Qed.

Lemma accepted_entry_has_no_parent_reference_witness :
  Str.includes (security.sanitizeFileName "src/bot.py") ".." = false ∧
  Str.includes (security.sanitizeFileName "src/bot.py") "/" = false ∧
  2048 ≤ security.MAX_FILE_SIZE.
Proof.
  apply (accepted_entry_has_no_parent_reference "src/bot.py" 2048).
  reflexivity.
Defined.

Lemma validateEntries_spec (entries : list security.ZipEntry) (total : Z) :
  match security.validateEntries entries total with
  | inr sum =>
      Forall (λ e, security.validateZipEntry (security.entryName e)
                     (security.headerSize e) = security.Valid) entries ∧
      sum = total + foldr (λ e t, security.headerSize e + t) 0 entries
  | inl _ =>
      ¬ Forall (λ e, security.validateZipEntry (security.entryName e)
                       (security.headerSize e) = security.Valid) entries
  end.
Proof.
  revert total. induction entries as [|e es IH]; intros total; cbn.
  - split; [constructor | lia].
  - destruct (security.validateZipEntry _ _) eqn:V.
    + specialize (IH (total + security.headerSize e)).
      destruct (security.validateEntries es _).
      * intros F. inversion F; subst. done.
      * destruct IH as [F ->]. split; [by constructor | lia].
    + intros F. inversion F; congruence.
Qed.

(** X11. [safeZipExtraction] gets past its checks exactly when the archive
    has at most 1000 entries, every entry passes [validateZipEntry], and
    the sizes of the entries add up to at most 100 MB. *)
Theorem archive_is_accepted_iff (entries : list security.ZipEntry) :
  security.checkArchive entries = None
  ↔ Z.of_nat (length entries) ≤ security.MAX_ENTRIES ∧
    Forall (λ e, security.validateZipEntry (security.entryName e)
                   (security.headerSize e) = security.Valid) entries ∧
    foldr (λ e t, security.headerSize e + t) 0 entries
      ≤ security.MAX_UNCOMPRESSED_SIZE.
Proof.
  unfold security.checkArchive.
  pose proof (validateEntries_spec entries 0) as S.
  destruct (security.validateEntries entries 0) as [err|sum].
  - case_bool_decide; split; try done; intros (? & ? & ?); done.
  - destruct S as [F ->]. rewrite Z.add_0_l.
    repeat case_bool_decide; split; try done; try (intros (? & ? & ?); lia).
    intros _. split_and!; [lia|done|lia].
Qed.

(** X12. [validateZipMagicBytes] accepts exactly the buffers that start
    with the bytes [50 4B 03 04], [50 4B 05 06] or [50 4B 07 08]. *)
Theorem zip_magic_bytes_iff (buffer : list Z) :
  security.validateZipMagicBytes buffer = true
  ↔ ∃ b rest, buffer = 80 :: 75 :: b :: (b + 1) :: rest ∧ b ∈ [3; 5; 7].
Proof.
  unfold security.validateZipMagicBytes.
  destruct buffer as [|b0 [|b1 [|b2 [|b3 rest]]]];
    try (split; [discriminate | intros (? & ? & ? & _); discriminate]).
  rewrite bool_decide_eq_false_2 by (cbn; lia).
  cbn. rewrite !andb_true_r, !orb_false_r, !orb_true_iff, !andb_true_iff,
    !bool_decide_eq_true.
  split.
  - intros [H|[H|H]]; destruct H as ([= ->] & [= ->] & [= ->] & [= ->]);
      [exists 3, rest | exists 5, rest | exists 7, rest];
      (split; [reflexivity|]); set_solver.
  - intros (b & r & [= -> -> -> -> ->] & Hb).
    apply elem_of_cons in Hb as [->|Hb]; [by left|].
    apply elem_of_cons in Hb as [->|Hb]; [by right; left|].
    apply elem_of_cons in Hb as [->|Hb]; [by right; right|].
    by apply elem_of_nil in Hb.
Qed.

(** ** Probes *)

(** X13. [performBotHealthCheck] for a registered child that is not
    flagged, has a usable stdin and no probe outstanding. The line
    [__HEALTH_CHECK__:<token>] and a line feed are written to the child,
    the health record of the bot waits for <token> with [lastCheck] the
    present time, and a timer of 30 s is armed for this probe. *)
Theorem probe_is_sent
    (s : Manager) (botId token : string) (c : handle) (child : ChildProcess) :
  runningBots s !! botId = Some c →
  children s !! c = Some child →
  killed child = false →
  stdinUsable child = true →
  awaitingResponse botId s = false →
  let s' := exec (performBotHealthCheck botId token) s in
  stdinWrites s'
    = stdinWrites s ++ [(c, "__HEALTH_CHECK__:" +:+ token +:+ newline)] ∧
  awaitingResponse botId s' = true ∧
  ∃ h info th,
    healthCheckData s' !! botId = Some h ∧
    healthInfos s' !! h = Some info ∧
    healthCheckId info = Some token ∧
    lastCheck info = now s ∧
    timeoutHandle info = Some th ∧
    timers s' !! th
      = Some (mkTimer (inject_Z HEALTH_CHECK_TIMEOUT)
                (HealthTimeout botId h token)).
Proof.
  intros Hl Hc Hk Hin Hw.
  destruct s as [? hd ? ? hi ? ? ? ? ? ? ? ? ? ?], child.
  unfold awaitingResponse in *. unfold performBotHealthCheck.
  mred in Hl. mred in Hc. mred in Hk. mred in Hin. mred in Hw. subst. mrun.
  destruct (hd !! botId) as [h|] eqn:Hd; mrun.
  - destruct (hi !! h) as [info|] eqn:Hi; mrun.
    + destruct info. mred in Hw. subst. mrun.
      split; [done|]. split; [done|]. eexists _, _, _.
      repeat split; mrun; reflexivity.
    + split; [done|]. split; [done|]. eexists _, _, _.
      repeat split; mrun; reflexivity.
  - split; [done|]. split; [done|]. eexists _, _, _.
    repeat split; mrun; reflexivity.
Qed.

Lemma probe_is_sent_witness :
  let s := Scenario.running in
  let s' := exec (performBotHealthCheck "bot-1" "hc_62000_a") s in
  stdinWrites s'
    = stdinWrites s ++ [(0%nat, "__HEALTH_CHECK__:" +:+ "hc_62000_a" +:+ newline)] ∧
  awaitingResponse "bot-1" s' = true ∧
  ∃ h info th,
    healthCheckData s' !! "bot-1" = Some h ∧
    healthInfos s' !! h = Some info ∧
    healthCheckId info = Some "hc_62000_a" ∧
    lastCheck info = now s ∧
    timeoutHandle info = Some th ∧
    timers s' !! th
      = Some (mkTimer (inject_Z HEALTH_CHECK_TIMEOUT)
                (HealthTimeout "bot-1" h "hc_62000_a")).
Proof.
  apply (probe_is_sent Scenario.running "bot-1" "hc_62000_a" 0%nat
           (mkChildProcess "bot-1" "node" (Some 4242) false true)
           eq_refl eq_refl eq_refl eq_refl eq_refl).
Defined.

(** X14. While a probe is outstanding [performBotHealthCheck] sends no
    second one. Within 30 s of the probe the call changes nothing at all;
    after 30 s it counts a failure, [Health check timeout], and still
    writes nothing to the child. *)
Theorem one_probe_at_a_time
    (s : Manager) (botId token : string) (c : handle) (child : ChildProcess)
    (h : handle) (info : HealthCheckInfo) :
  runningBots s !! botId = Some c →
  children s !! c = Some child →
  killed child = false →
  healthCheckData s !! botId = Some h →
  healthInfos s !! h = Some info →
  isWaitingForResponse info = true →
  let s' := exec (performBotHealthCheck botId token) s in
  stdinWrites s' = stdinWrites s ∧
  (now s - lastCheck info ≤ HEALTH_CHECK_TIMEOUT → s' = s) ∧
  (HEALTH_CHECK_TIMEOUT < now s - lastCheck info →
     s' = exec (handleHealthCheckFailure botId "Health check timeout") s ∧
     healthInfos s' !! h
       = Some (mkHealthCheckInfo (lastCheck info) (lastResponse info)
                 (consecutiveFailures info + 1) false (healthCheckId info)
                 None)).
Proof.
  intros Hl Hc Hk Hd Hi Hw. destruct s, child, info as [? ? ? ? ? th].
  unfold performBotHealthCheck, handleHealthCheckFailure.
  mred in Hl. mred in Hc. mred in Hk. mred in Hd. mred in Hi. mred in Hw.
  subst. mrun.
  case_bool_decide as Hlate; mrun.
  - split_and!; [| intros; lia |].
    + destruct th; mrun; case_bool_decide; mcases; done.
    + intros _. split; [done|].
      destruct th; mrun; case_bool_decide; mcases; done.
  - split_and!; [done | done | intros; lia].
Qed.

Lemma one_probe_at_a_time_witness :
  let s := Scenario.probed1 in
  let info := mkHealthCheckInfo 62000 None 0 true (Some "hc_62000_a")
                (Some 3%nat) in
  let s' := exec (performBotHealthCheck "bot-1" "hc_next") s in
  stdinWrites s' = stdinWrites s ∧
  (now s - lastCheck info ≤ HEALTH_CHECK_TIMEOUT → s' = s) ∧
  (HEALTH_CHECK_TIMEOUT < now s - lastCheck info →
     s' = exec (handleHealthCheckFailure "bot-1" "Health check timeout") s ∧
     healthInfos s' !! 2%nat
       = Some (mkHealthCheckInfo (lastCheck info) (lastResponse info)
                 (consecutiveFailures info + 1) false (healthCheckId info)
                 None)).
Proof.
  apply (one_probe_at_a_time Scenario.probed1 "bot-1" "hc_next" 0%nat
           (mkChildProcess "bot-1" "node" (Some 4242) false true) 2%nat
           (mkHealthCheckInfo 62000 None 0 true (Some "hc_62000_a")
              (Some 3%nat))
           eq_refl eq_refl eq_refl eq_refl eq_refl eq_refl).
Defined.

(** X15. When the stdin of the child is not usable,
    [performBotHealthCheck] writes nothing and counts the probe as a
    failure at once: one more consecutive failure, no probe outstanding,
    and no timer left for the record. *)
Theorem closed_stdin_counts_as_failure
    (s : Manager) (botId token : string) (c : handle) (child : ChildProcess)
    (h : handle) (info : HealthCheckInfo) :
  runningBots s !! botId = Some c →
  children s !! c = Some child →
  killed child = false →
  stdinUsable child = false →
  healthCheckData s !! botId = Some h →
  healthInfos s !! h = Some info →
  isWaitingForResponse info = false →
  let s' := exec (performBotHealthCheck botId token) s in
  stdinWrites s' = stdinWrites s ∧
  healthInfos s' !! h
    = Some (mkHealthCheckInfo (now s) (lastResponse info)
              (consecutiveFailures info + 1) false (Some token) None) ∧
  (∀ th, timeoutHandle info = Some th → timers s' !! th = None) ∧
  (∀ th, timeoutHandle info ≠ Some th → timers s' !! th = timers s !! th).
Proof.
  intros Hl Hc Hk Hin Hd Hi Hw. destruct s, child, info as [? ? ? ? ? th].
  unfold performBotHealthCheck, handleHealthCheckFailure.
  mred in Hl. mred in Hc. mred in Hk. mred in Hin. mred in Hd. mred in Hi.
  mred in Hw. subst. mrun.
  destruct th as [t|]; mrun; case_bool_decide; mcases;
    (split_and!; [done | done | intros ? [= <-]; by rewrite ?lookup_delete_eq
                 | intros th Hth; rewrite ?lookup_delete_ne; congruence]).
Qed.

Lemma closed_stdin_counts_as_failure_witness :
  let s := Cases.muteProbed in
  let info := mkHealthCheckInfo 61000 None 1 false (Some "hc_a") None in
  let s' := exec (performBotHealthCheck "bot-1" "hc_b") s in
  stdinWrites s' = stdinWrites s ∧
  healthInfos s' !! 2%nat
    = Some (mkHealthCheckInfo (now s) (lastResponse info)
              (consecutiveFailures info + 1) false (Some "hc_b") None) ∧
  (∀ th, timeoutHandle info = Some th → timers s' !! th = None) ∧
  (∀ th, timeoutHandle info ≠ Some th → timers s' !! th = timers s !! th).
Proof.
  apply (closed_stdin_counts_as_failure Cases.muteProbed "bot-1" "hc_b" 0%nat
           (mkChildProcess "bot-1" "node" (Some 4243) false false) 2%nat
           (mkHealthCheckInfo 61000 None 1 false (Some "hc_a") None)
           eq_refl eq_refl eq_refl eq_refl eq_refl eq_refl eq_refl).
Defined.

(** ** The probe protocol, end to end *)

Lemma trim_chars_newline (l : list ascii) :
  l ≠ [] → Forall (λ c, Ascii.is_space c = false) l →
  reverse (Str.trimStart (reverse (Str.trimStart (l ++ ["010"%char])))) = l.
Proof.
  intros Hne F.
  assert (T1 : Str.trimStart (l ++ ["010"%char]) = l ++ ["010"%char]).
  { destruct F as [|c l' Hc _]; [done|]. unfold Str.trimStart. cbn.
    by rewrite Hc. }
  rewrite T1, reverse_snoc.
  change (Str.trimStart ("010"%char :: reverse l))
    with (Str.trimStart (reverse l)).
  rewrite trimStart_nonspace by (by apply Forall_reverse).
  apply reverse_involutive.
Qed.

Lemma trim_probe_line (x : string) :
  noSpace x → Str.trim (x +:+ newline) = x.
Proof.
  intros [Hne F]. unfold Str.trim. rewrite chars_app.
  change (Str.chars newline) with ["010"%char].
  rewrite trim_chars_newline; [apply ofChars_chars| |done].
  intros E. apply Hne. by rewrite <- (ofChars_chars x), E.
Qed.

Lemma matchAfter_here marker l r :
  Str.startsWith marker l = true →
  Str.nonSpaceRun (drop (length marker) l) = Some r →
  Str.matchAfter marker l = Some r.
Proof. intros H1 H2. destruct l; cbn [Str.matchAfter]; by rewrite H1, H2. Qed.

Lemma responseToken_of_reply (token : string) :
  noSpace token →
  responseToken ("__HEALTH_CHECK_RESPONSE__:" +:+ token) = Some token.
Proof.
  intros [Hne F]. unfold responseToken. rewrite chars_app.
  erewrite matchAfter_here.
  - cbn. by rewrite ofChars_chars.
  - apply startsWith_app.
  - rewrite drop_app_length. unfold Str.nonSpaceRun. rewrite takeWhile_all.
    + destruct (Str.chars token) eqn:T; [|done].
      destruct Hne. by rewrite <- (ofChars_chars token), T.
    + eapply Forall_impl; [exact F|]. intros c Hc. cbn. by rewrite Hc.
Qed.

Lemma replaceChars_here pattern replacement l :
  Str.startsWith pattern l = true →
  sampleBot.replaceChars pattern replacement l
  = replacement ++ drop (length pattern) l.
Proof. intros H. destruct l; cbn [sampleBot.replaceChars]; by rewrite H. Qed.

Lemma sampleBot_reply (token iso : string) :
  noSpace token →
  sampleBot.onStdinData ("__HEALTH_CHECK__:" +:+ token +:+ newline) iso
  = [ "__HEALTH_CHECK_RESPONSE__:" +:+ token;
      "[" +:+ iso +:+ "] Health check responded: " +:+ token ].
Proof.
  intros N. unfold sampleBot.onStdinData.
  assert (N' : noSpace ("__HEALTH_CHECK__:" +:+ token)).
  { destruct N as [Hne F]. split; [done|]. rewrite chars_app.
    apply Forall_app. split; [|done]. repeat constructor. }
  assert (A : "__HEALTH_CHECK__:" +:+ token +:+ newline
              = ("__HEALTH_CHECK__:" +:+ token) +:+ newline).
  { rewrite <- (ofChars_chars (_ +:+ _ +:+ _)),
      <- (ofChars_chars ((_ +:+ _) +:+ _)), !chars_app, app_assoc. done. }
  rewrite A, (trim_probe_line _ N').
  unfold security.startsWith. rewrite chars_app, startsWith_app.
  assert (R : sampleBot.replace ("__HEALTH_CHECK__:" +:+ token)
                "__HEALTH_CHECK__:" "" = token).
  { unfold sampleBot.replace. rewrite chars_app.
    rewrite replaceChars_here by apply startsWith_app.
    rewrite drop_app_length. cbn [app]. apply ofChars_chars. }
  by rewrite R.
Qed.

(** X16. The probe protocol end to end with health_check_bot.js. To the
    line the supervisor writes for <token> the sample bot answers, first
    of all, [__HEALTH_CHECK_RESPONSE__:<token>]. The stdout listener takes
    that line as the answer to the outstanding probe: the failures are
    reset to 0, the timeout is cleared, an unresponsive bot is set to
    [running] again, and the rows are unchanged otherwise. *)
Theorem sample_bot_answers_the_probe
    (s : Manager) (botId token iso : string) (h : handle)
    (info : HealthCheckInfo) (bot : Bot) :
  healthCheckData s !! botId = Some h →
  healthInfos s !! h = Some info →
  healthCheckId info = Some token →
  bots s !! botId = Some bot →
  noSpace token →
  let probe := "__HEALTH_CHECK__:" +:+ token +:+ newline in
  let answer := "__HEALTH_CHECK_RESPONSE__:" +:+ token in
  let s' := exec (onStdoutLine botId answer) s in
  head (sampleBot.onStdinData probe iso) = Some answer ∧
  healthInfos s' !! h
    = Some (mkHealthCheckInfo (lastCheck info) (Some (now s)) 0 false
              (Some token) None) ∧
  (∀ th, timeoutHandle info = Some th → timers s' !! th = None) ∧
  (status bot = st_unresponsive →
     status <$> bots s' !! botId = Some st_running) ∧
  (status bot ≠ st_unresponsive → bots s' = bots s).
Proof.
  intros Hd Hi Htok Hb N. cbn zeta.
  split; [by rewrite (sampleBot_reply token iso N)|].
  assert (Na : noSpace ("__HEALTH_CHECK_RESPONSE__:" +:+ token)).
  { destruct N as [Hne F]. split; [done|]. rewrite chars_app.
    apply Forall_app. split; [|done]. repeat constructor. }
  assert (T : Str.trim ("__HEALTH_CHECK_RESPONSE__:" +:+ token)
              = "__HEALTH_CHECK_RESPONSE__:" +:+ token).
  { rewrite <- (ofChars_chars (_ +:+ _)) at 1.
    rewrite trim_nonspace by apply Na. apply ofChars_chars. }
  pose proof (responseToken_of_reply token N) as R.
  destruct (responseToken_spec _ _ R) as (I & Tt & Hm).
  assert (E : exec (onStdoutLine botId ("__HEALTH_CHECK_RESPONSE__:" +:+ token)) s
              = exec (handleHealthCheckSuccess botId token) s).
  { unfold onStdoutLine. rewrite T, bool_decide_eq_false_2 by done.
    rewrite I. unfold processHealthCheckResponse. by rewrite R, Tt. }
  rewrite E.
  destruct (handleHealthCheckSuccess_accepted s botId token h info bot)
    as (A1 & A2 & A3 & A4); try done.
  rewrite Htok in A1. done.
Qed.

Lemma sample_bot_answers_the_probe_witness :
  let s := Scenario.probed3 in
  let answer := "__HEALTH_CHECK_RESPONSE__:" +:+ "hc_182000_c" in
  let s' := exec (onStdoutLine "bot-1" answer) s in
  head (sampleBot.onStdinData
          ("__HEALTH_CHECK__:" +:+ "hc_182000_c" +:+ newline)
          "2025-01-01T00:03:02.000Z") = Some answer ∧
  healthInfos s' !! 2%nat
    = Some (mkHealthCheckInfo 182000 (Some (now s)) 0 false
              (Some "hc_182000_c") None) ∧
  (∀ th, Some 5%nat = Some th → timers s' !! th = None) ∧
  (st_running = st_unresponsive →
     status <$> bots s' !! "bot-1" = Some st_running) ∧
  (st_running ≠ st_unresponsive → bots s' = bots s).
Proof.
  apply (sample_bot_answers_the_probe Scenario.probed3 "bot-1" "hc_182000_c"
           "2025-01-01T00:03:02.000Z" 2%nat
           (mkHealthCheckInfo 182000 None 2 true (Some "hc_182000_c")
              (Some 5%nat))
           (mkBot "Echo" "index.js" st_running (Some "4242") 2000)
           eq_refl eq_refl eq_refl eq_refl).
  split; [discriminate|]. vm_compute. repeat constructor.
Defined.

(** ** Launching and automatic restarts *)

(** X18. A bot whose main file ends in [.py] is started with the
    interpreter of its virtual environment, [bots/<id>/venv/bin/python], if
    that exists, and with [python3] otherwise. The choice is logged, as
    info and as a warning respectively, the child is registered, and the
    row says [starting]. (The path is what [path.join] gives for an id
    that is one path segment, as the generated ids are.) *)
Theorem python_bot_interpreter_choice
    (s : Manager) (botId : string) (env : LaunchEnv) (bot : Bot) :
  bots s !! botId = Some bot →
  runningBots s !! botId = None →
  mainFileExists env = true →
  Str.toLowerCase (Str.extname (mainFile bot)) = ".py" →
  let s' := exec (startBot botId env) s in
  let python := if venvPythonExists env
                then "bots/" +:+ botId +:+ "/venv/bin/python"
                else "python3" in
  let note := if venvPythonExists env
              then mkLogEntry (now s) lvl_info "Using Python virtual environment"
              else mkLogEntry (now s) lvl_warn
                     "Virtual environment not found, using system Python" in
  result (startBot botId env) s = true ∧
  runningBots s' !! botId = Some (nextHandle s) ∧
  children s' !! nextHandle s
    = Some (mkChildProcess botId python (spawnedPid env) false
              (spawnedStdin env)) ∧
  last (emitted s') = Some (botId, note) ∧
  status <$> bots s' !! botId = Some st_starting.
Proof.
  intros Hb Hl Hm He. destruct s, env as [? venv ? ?], bot. unfold startBot.
  mred in Hb. mred in Hl. mred in Hm. mred in He. subst. mrun.
  rewrite (bool_decide_eq_false_2 (is_Some None)) by (by intros [? ?]). mrun.
  rewrite He.
  rewrite bool_decide_eq_false_2 by (intros [?|?]; discriminate).
  rewrite bool_decide_eq_true_2 by done.
  destruct venv; mrun;
    (split_and!; [done | done | done | by rewrite last_snoc | done]).
Qed.

Lemma python_bot_interpreter_choice_witness :
  let s := Cases.boot in
  let env := mkLaunchEnv true false (Some 5000) true in
  let s' := exec (startBot "bot-2" env) s in
  result (startBot "bot-2" env) s = true ∧
  runningBots s' !! "bot-2" = Some (nextHandle s) ∧
  children s' !! nextHandle s
    = Some (mkChildProcess "bot-2" "python3" (Some 5000) false true) ∧
  last (emitted s')
    = Some ("bot-2",
            mkLogEntry (now s) lvl_warn
              "Virtual environment not found, using system Python") ∧
  status <$> bots s' !! "bot-2" = Some st_starting.
Proof.
  apply (python_bot_interpreter_choice Cases.boot "bot-2"
           (mkLaunchEnv true false (Some 5000) true)
           (mkBot "Py" "main.py" st_stopped None 0)
           eq_refl eq_refl eq_refl eq_refl).
Defined.

(** X19. [startBot] of a bot that is not running returns [false] and
    spawns nothing when there is no row for the id, no main file, or an
    extension other than [.js], [.ts] and [.py]: no child, no timer, no
    signal. A row that exists is left in status [error]. *)
Theorem start_fails_without_a_runnable_main_file
    (s : Manager) (botId : string) (env : LaunchEnv) :
  runningBots s !! botId = None →
  (bots s !! botId = None ∨
   ∃ bot, bots s !! botId = Some bot ∧
     (mainFileExists env = false ∨
      Str.toLowerCase (Str.extname (mainFile bot)) ∉ [".js"; ".ts"; ".py"])) →
  let s' := exec (startBot botId env) s in
  result (startBot botId env) s = false ∧
  runningBots s' = runningBots s ∧ children s' = children s ∧
  timers s' = timers s ∧ nextHandle s' = nextHandle s ∧
  signals s' = signals s ∧
  (∀ bot, bots s !! botId = Some bot →
     status <$> bots s' !! botId = Some st_error) ∧
  (bots s !! botId = None → bots s' = bots s).
Proof.
  intros Hl [Hb|(bot & Hb & H)]; destruct s, env as [found ? ? ?];
    unfold startBot; mred in Hl; mred in Hb.
  - mrun. done.
  - destruct bot. mrun.
    rewrite (bool_decide_eq_false_2 (is_Some None)) by (by intros [? ?]). mrun.
    destruct found; mrun.
    + destruct H as [H|H]; [done|]. mred in H.
      rewrite bool_decide_eq_false_2 by (intros [E|E]; apply H; rewrite E; set_solver).
      rewrite bool_decide_eq_false_2 by (intros E; apply H; rewrite E; set_solver).
      mrun. split_and!; try done; by intros ? [= <-].
    + split_and!; try done; by intros ? [= <-].
Qed.

Lemma start_fails_without_a_runnable_main_file_witness :
  let s := Scenario.boot in
  let s' := exec (startBot "bot-1" Cases.noMainFile) s in
  result (startBot "bot-1" Cases.noMainFile) s = false ∧
  runningBots s' = runningBots s ∧ children s' = children s ∧
  timers s' = timers s ∧ nextHandle s' = nextHandle s ∧
  signals s' = signals s ∧
  (∀ bot, bots s !! "bot-1" = Some bot →
     status <$> bots s' !! "bot-1" = Some st_error) ∧
  (bots s !! "bot-1" = None → bots s' = bots s).
Proof.
  apply (start_fails_without_a_runnable_main_file Scenario.boot "bot-1"
           Cases.noMainFile eq_refl).
  right. exists (mkBot "Echo" "index.js" st_stopped None 0).
  split; [reflexivity|]. left. reflexivity.
Defined.

(** X22. When the retry timer fires and the restart succeeds, that is,
    [startBot] returns [true] for the bot, whatever its file type, the bot
    is registered with a new child and its retry record is dropped from
    the table, so that the next crash starts at the first delay again. The
    retries of other bots are untouched. *)
Theorem successful_restart_resets_the_backoff
    (s : Manager) (th r : handle) (d : Q) (botId : string) (env : LaunchEnv)
    (k : KillOutcome) :
  timers s !! th = Some (mkTimer d (RetryRestart botId r)) →
  result (startBot botId env) s = true →
  let s' := exec (fireTimer th env k) s in
  runningBots s' !! botId = Some (nextHandle s) ∧
  retryData s' !! botId = None ∧
  (∀ other, other ≠ botId → retryData s' !! other = retryData s !! other) ∧
  status <$> bots s' !! botId = Some st_starting.
Proof.
  intros Ht Hok. revert Hok.
  destruct s as [rb ? ? ? ? ? ? tm rows ? ? ? ? ? ?], env as [mf venv ? ?].
  unfold fireTimer, retryRestart, startBot.
  mred in Ht. mrun.
  destruct (rows !! botId) as [[? ? ? ? ?]|] eqn:Hb; mrun; [|done].
  destruct (rb !! botId) as [c|] eqn:Hr.
  { rewrite (bool_decide_eq_true_2 (is_Some (Some c))) by done. by mrun. }
  rewrite (bool_decide_eq_false_2 (is_Some None)) by (by intros [? ?]).
  mrun. destruct mf; mrun; [|done].
  destruct (bool_decide (_ ∨ _)); mrun.
  { intros _. split_and!; try done. intros other Hne. by rewrite lookup_delete_ne. }
  destruct (bool_decide _); mrun; [|done].
  destruct venv; mrun;
    (intros _; split_and!; try done;
     intros other Hne; by rewrite lookup_delete_ne).
Qed.

Lemma successful_restart_resets_the_backoff_witness :
  let s := Scenario.crashed in
  let s' := exec (fireTimer 3 Scenario.launch Delivered) s in
  runningBots s' !! "bot-1" = Some (nextHandle s) ∧
  retryData s' !! "bot-1" = None ∧
  (∀ other, other ≠ "bot-1" → retryData s' !! other = retryData s !! other) ∧
  status <$> bots s' !! "bot-1" = Some st_starting.
Proof.
  apply (successful_restart_resets_the_backoff Scenario.crashed 3%nat 2%nat
           2500%Q "bot-1" Scenario.launch Delivered eq_refl).
  vm_compute. reflexivity.
Defined.

(** X23. When the retry timer fires and [startBot] fails for lack of a
    main file, no further retry is armed, although the comment in the
    source expects a new cycle. The timer is gone, the retry table and the
    records are unchanged, the bot is not registered, the row says
    [error], and [Automatic restart failed] is logged. *)
Theorem failed_restart_is_not_retried
    (s : Manager) (th r : handle) (d : Q) (botId : string) (env : LaunchEnv)
    (k : KillOutcome) (bot : Bot) :
  timers s !! th = Some (mkTimer d (RetryRestart botId r)) →
  bots s !! botId = Some bot →
  runningBots s !! botId = None →
  mainFileExists env = false →
  let s' := exec (fireTimer th env k) s in
  timers s' = delete th (timers s) ∧
  retryData s' = retryData s ∧ retryInfos s' = retryInfos s ∧
  runningBots s' = runningBots s ∧ children s' = children s ∧
  status <$> bots s' !! botId = Some st_error ∧
  last (emitted s')
    = Some (botId, mkLogEntry (now s) lvl_warn "Automatic restart failed").
Proof.
  intros Ht Hb Hl Hm. destruct s, env, bot.
  unfold fireTimer, retryRestart, startBot.
  mred in Ht. mred in Hb. mred in Hl. mred in Hm. subst. mrun.
  rewrite (bool_decide_eq_false_2 (is_Some None)) by (by intros [? ?]). mrun.
  split_and!; try done. by rewrite last_snoc.
Qed.

Lemma failed_restart_is_not_retried_witness :
  let s := Scenario.crashed in
  let s' := exec (fireTimer 3 Cases.noMainFile Delivered) s in
  timers s' = delete 3%nat (timers s) ∧
  retryData s' = retryData s ∧ retryInfos s' = retryInfos s ∧
  runningBots s' = runningBots s ∧ children s' = children s ∧
  status <$> bots s' !! "bot-1" = Some st_error ∧
  last (emitted s')
    = Some ("bot-1", mkLogEntry (now s) lvl_warn "Automatic restart failed").
Proof.
  apply (failed_restart_is_not_retried Scenario.crashed 3%nat 2%nat
           2500%Q "bot-1" Cases.noMainFile Delivered
           (mkBot "Echo" "index.js" st_error (Some "4242") 7000)
           eq_refl eq_refl eq_refl eq_refl).
Defined.

(** ** Timers and listeners of a child that is gone *)

(** X17. The ['exit'] listener drops the health record of the bot and
    leaves the timer of an outstanding probe armed. When the timer of a
    probe fires for a bot that has no health record, nothing changes
    except that the timer is gone. *)
Theorem timeout_of_a_dropped_probe_is_ignored
    (s : Manager) (th h : handle) (d : Q) (botId token : string)
    (env : LaunchEnv) (k : KillOutcome) :
  timers s !! th = Some (mkTimer d (HealthTimeout botId h token)) →
  healthCheckData s !! botId = None →
  exec (fireTimer th env k) s = set_timers (delete th (timers s)) s.
Proof.
  intros Ht Hd. destruct s as [? ? ? ? hi ? ? ? ? ? ? ? ? ? ?].
  unfold fireTimer, healthTimeout, handleHealthCheckFailure.
  mred in Ht. mred in Hd. mrun.
  destruct (hi !! h) as [[? ? ? [] ? ?]|]; mrun; try done.
  case_bool_decide; mrun; done.
Qed.

Lemma timeout_of_a_dropped_probe_is_ignored_witness :
  let s := Cases.exitedUnanswered in
  exec (fireTimer 3 Scenario.launch Delivered) s
  = set_timers (delete 3%nat (timers s)) s.
Proof.
  apply (timeout_of_a_dropped_probe_is_ignored Cases.exitedUnanswered
           3%nat 2%nat (inject_Z 30000) "bot-1" "hc_62000_a"
           Scenario.launch Delivered eq_refl eq_refl).
Defined.

(** X20. The timer that [startBot] arms for one second. If by then the bot
    is not registered any more, or the child of the timer has been flagged
    by [kill], it changes nothing. If some child is registered for the bot
    and the child of the timer is not flagged, the row becomes [running]
    with the pid of the timer's child (the stored pid if that child has
    none), and [Bot is now running] is logged. *)
Theorem start_timer_marks_only_a_live_child
    (s : Manager) (th c : handle) (d : Q) (botId : string)
    (child : ChildProcess) (env : LaunchEnv) (k : KillOutcome) :
  timers s !! th = Some (mkTimer d (MarkRunning botId c)) →
  children s !! c = Some child →
  let s' := exec (fireTimer th env k) s in
  (runningBots s !! botId = None ∨ killed child = true →
     s' = set_timers (delete th (timers s)) s) ∧
  (is_Some (runningBots s !! botId) → killed child = false →
     ∀ bot, bots s !! botId = Some bot →
       bots s' !! botId
         = Some (mkBot (name bot) (mainFile bot) st_running
                   (storage.orElse (pretty <$> pid child) (processId bot))
                   (now s)) ∧
       last (emitted s')
         = Some (botId, mkLogEntry (now s) lvl_info "Bot is now running")).
Proof.
  intros Ht Hc. destruct s, child. unfold fireTimer, markRunning.
  mred in Ht. mred in Hc. mrun. split.
  - intros [Hl|Hk]; [mred in Hl | mred in Hk].
    + rewrite Hl. rewrite (bool_decide_eq_false_2 (is_Some None))
        by (by intros [? ?]). done.
    + subst. destruct (bool_decide _); done.
  - intros Hl Hk bot Hb. mred in Hl. mred in Hk. mred in Hb. subst.
    rewrite (bool_decide_eq_true_2 _ Hl). mrun. destruct bot. mrun.
    split; [done|]. by rewrite last_snoc.
Qed.

Lemma start_timer_marks_only_a_live_child_witness :
  let s := Scenario.started in
  let child := mkChildProcess "bot-1" "node" (Some 4242) false true in
  let s' := exec (fireTimer 1 Scenario.launch Delivered) s in
  (runningBots s !! "bot-1" = None ∨ killed child = true →
     s' = set_timers (delete 1%nat (timers s)) s) ∧
  (is_Some (runningBots s !! "bot-1") → killed child = false →
     ∀ bot, bots s !! "bot-1" = Some bot →
       bots s' !! "bot-1"
         = Some (mkBot (name bot) (mainFile bot) st_running
                   (storage.orElse (pretty <$> pid child) (processId bot))
                   (now s)) ∧
       last (emitted s')
         = Some ("bot-1", mkLogEntry (now s) lvl_info "Bot is now running")).
Proof.
  apply (start_timer_marks_only_a_live_child Scenario.started 1%nat 0%nat
           1000%Q "bot-1"
           (mkChildProcess "bot-1" "node" (Some 4242) false true)
           Scenario.launch Delivered eq_refl eq_refl).
Defined.

(** X21. The ['error'] listener. The bot leaves the table of running bots,
    its health record is dropped and, other than on ['exit'], the timer of
    its probe is cleared; the row is set to [error] and the error is
    logged. No retry is scheduled: the retry table, the retry records and
    all other timers are as before. *)
Theorem process_error_is_not_retried
    (s : Manager) (botId errorMessage : string) :
  let s' := exec (onChildError botId errorMessage) s in
  let probeTimer :=
    h ← healthCheckData s !! botId; i ← healthInfos s !! h; timeoutHandle i in
  runningBots s' = delete botId (runningBots s) ∧
  healthCheckData s' = delete botId (healthCheckData s) ∧
  timers s' = from_option (λ th, delete th (timers s)) (timers s) probeTimer ∧
  retryData s' = retryData s ∧ retryInfos s' = retryInfos s ∧
  nextHandle s' = nextHandle s ∧
  (∀ bot, bots s !! botId = Some bot →
     status <$> bots s' !! botId = Some st_error) ∧
  last (emitted s')
    = Some (botId, mkLogEntry (now s) lvl_error
                     ("Process error: " +:+ errorMessage)).
Proof.
  destruct s as [? hd ? ? hi ? ? ? ? ? ? ? ? ? ?]. unfold onChildError. mrun.
  destruct (hd !! botId) as [h|]; mrun.
  - destruct (hi !! h) as [[? ? ? ? ? [th|]]|]; mcases;
      (split_and!; try done; try (by intros ? [= <-]); by rewrite last_snoc).
  - mcases;
      (split_and!; try done; try (by intros ? [= <-]); by rewrite last_snoc).
Qed.

(** X3. After [clearLogs] the log of the bot is not empty: it holds
    exactly one entry, the note [Logs cleared], which is also emitted. The
    logs of other bots, the rows and the table of running bots are as
    before. *)
Theorem cleared_log_holds_the_clearing_note (s : Manager) (botId : string) :
  let s' := exec (clearLogs botId) s in
  result (getLogs botId) s' = [mkLogEntry (now s) lvl_info "Logs cleared"] ∧
  last (emitted s')
    = Some (botId, mkLogEntry (now s) lvl_info "Logs cleared") ∧
  (∀ other, other ≠ botId → logs s' !! other = logs s !! other) ∧
  bots s' = bots s ∧ runningBots s' = runningBots s.
Proof.
  destruct s. unfold clearLogs, getLogs. mrun.
  split_and!; try done; [by rewrite last_snoc|].
  intros other Hne. by rewrite !lookup_insert_ne.
Qed.

(** ** Invariants of the event loop *)

Section Preserves.
Context (P : Manager → Prop).

Lemma preserves_ret {A} (a : A) : preserves P (ret a).
Proof. by intros s. Qed.

Lemma preserves_gets {A} (f : Manager → A) : preserves P (gets f).
Proof. by intros s. Qed.

Lemma preserves_bind {A B} (c : M A) (k : A → M B) :
  preserves P c → (∀ a, preserves P (k a)) → preserves P (bind c k).
Proof. intros Hc Hk s Hs. rewrite exec_bind. by apply Hk, Hc. Qed.

Lemma preserves_whenSome {A} (o : option A) (k : A → M unit) :
  (∀ a, preserves P (k a)) → preserves P (whenSome o k).
Proof. intros Hk. destruct o; [apply Hk | by intros s]. Qed.

Lemma preserves_foldr {A B} (f : A → M B → M B) (z : M B) (l : list A) :
  preserves P z →
  (∀ a rest, preserves P rest → preserves P (f a rest)) →
  preserves P (foldr f z l).
Proof. intros Hz Hf. induction l; [done|]. by apply Hf. Qed.

Lemma preserves_run (events : list Event) (s : Manager) :
  (∀ e, preserves P (handleEvent e)) → P s → P (run events s).
Proof.
  intros H. revert s. induction events as [|e events IH]; intros s Hs; [done|].
  apply IH, H, Hs.
Qed.

End Preserves.

Ltac head_of t :=
  match t with
  | ?f _ => head_of f
  | _ => t
  end.

(** A property of some fields is kept by the update of any other field. *)
Ltac other_field :=
  let s := fresh "s" in let H := fresh "H" in
  intros s H; destruct s; exact H.

(** One step of a proof that a handler keeps a property: a fact already
    known about the handler, or else the structure of the handler. *)
Ltac preserve_step :=
  first
    [ assumption
    | solve [auto 1 with preserve nocore]
    | lazymatch goal with
      | |- preserves _ (ret _) => apply preserves_ret
      | |- preserves _ (gets _) => apply preserves_gets
      | |- preserves _ (bind _ _) => apply preserves_bind; [|intros ?]
      | |- preserves _ (whenSome _ _) => apply preserves_whenSome; intros ?
      | |- preserves _ (foldr _ _ _) =>
          apply preserves_foldr; [|intros ? ? ?]
      | |- preserves _ (modify _) => other_field
      | |- preserves _ (match ?x with _ => _ end) => destruct x
      | |- preserves _ ?c => let h := head_of c in unfold h
      end ].

Ltac preserve := repeat preserve_step.

Create HintDb preserve.

Lemma scheduleSmartRetry_bounded botId rnd :
  preserves attemptsBounded (scheduleSmartRetry botId rnd).
Proof.
  intros s Hs. unfold attemptsBounded in *.
  destruct (retryData s !! botId) as [r|] eqn:Hr.
  - destruct (retryInfos s !! r) as [info|] eqn:Hi.
    + destruct (decide (MAX_RETRY_ATTEMPTS ≤ attempts info)) as [Hcap|Hlt].
      * destruct (scheduleSmartRetry_capped s botId rnd r info) as (_&_&->&_);
          done.
      * revert Hlt Hs Hr Hi. destruct s.
        unfold scheduleSmartRetry. intros Hlt Hs Hr Hi.
        mred in Hr. mred in Hi. mred in Hs. mrun.
        rewrite bool_decide_eq_false_2 by done.
        pose proof (Hs _ _ Hi) as Hb. cbn beta in Hb.
        unfold MAX_RETRY_ATTEMPTS in *.
        destruct info as [a ? ? [old|]]; mred in Hb; mred in Hlt; mrun.
        all: repeat apply map_Forall_insert_2; try done; cbn; lia.
    + revert Hs Hr Hi. destruct s.
      unfold scheduleSmartRetry. intros Hs Hr Hi.
      mred in Hr. mred in Hi. mred in Hs. mrun.
      rewrite bool_decide_eq_false_2 by (unfold MAX_RETRY_ATTEMPTS; lia). mrun.
      repeat apply map_Forall_insert_2; try done;
        cbn; unfold MAX_RETRY_ATTEMPTS; lia.
  - revert Hs Hr. destruct s.
    unfold scheduleSmartRetry. intros Hs Hr.
    mred in Hr. mred in Hs. mrun.
    rewrite bool_decide_eq_false_2 by (unfold MAX_RETRY_ATTEMPTS; lia). mrun.
    repeat apply map_Forall_insert_2; try done;
      cbn; unfold MAX_RETRY_ATTEMPTS; lia.
Qed.

#[local] Hint Resolve scheduleSmartRetry_bounded : preserve.

Lemma handleEvent_bounded (e : Event) : preserves attemptsBounded (handleEvent e).
Proof.
  destruct e; unfold handleEvent; preserve.
Qed.

(** X24. In every run of the supervisor from its initial state no retry
    record ever counts fewer than 0 or more than [MAX_RETRY_ATTEMPTS]
    attempts. *)
Theorem attempts_never_exceed_the_cap
    (rows : gmap string Bot) (clock : Z) (events : list Event) :
  attemptsBounded (run events (emptyManager rows clock)).
Proof.
  apply preserves_run; [apply handleEvent_bounded|].
  unfold attemptsBounded, emptyManager. cbn. apply map_Forall_empty.
Qed.

(** What [push] leaves in the file was in it before or is the new entry. *)
Lemma elem_of_push (x e : LogEntry) (l : list LogEntry) :
  x ∈ LogStorage.push e l → x ∈ l ++ [e].
Proof.
  unfold LogStorage.push. cbn zeta.
  destruct (bool_decide _); [|done].
  intros H. by eapply (subseteq_drop 1).
Qed.

Lemma addLog_emitted botId lvl msg :
  preserves logsWereEmitted (addLog botId lvl msg).
Proof.
  intros s Hs b e. rewrite addLog_spec. destruct s. mred in Hs. mred.
  destruct (decide (b = botId)) as [->|Hne].
  - rewrite lookup_insert_eq.
    intros [H| ->%list_elem_of_singleton]%elem_of_push%elem_of_app.
    + apply elem_of_app. left. by apply Hs.
    + apply elem_of_app. right. by apply list_elem_of_singleton.
  - rewrite lookup_insert_ne by done. intros H.
    apply elem_of_app. left. by apply Hs.
Qed.

Lemma clearLogs_emitted botId :
  preserves logsWereEmitted (LogStorage.clearLogs botId).
Proof.
  intros s Hs b e. destruct s. mred in Hs. mred.
  destruct (decide (b = botId)) as [->|Hne].
  - rewrite lookup_insert_eq. by intros ?%elem_of_nil.
  - rewrite lookup_insert_ne by done. apply Hs.
Qed.

Lemma deleteBotLogs_emitted botId :
  preserves logsWereEmitted (LogStorage.deleteBotLogs botId).
Proof.
  intros s Hs b e. destruct s. mred in Hs. mred.
  destruct (decide (b = botId)) as [->|Hne].
  - rewrite lookup_delete_eq. by intros ?%elem_of_nil.
  - rewrite lookup_delete_ne by done. apply Hs.
Qed.

#[local] Hint Resolve addLog_emitted clearLogs_emitted deleteBotLogs_emitted
  : preserve.

Lemma handleEvent_emitted (e : Event) :
  preserves logsWereEmitted (handleEvent e).
Proof. destruct e; unfold handleEvent; preserve. Qed.

(** X4. In every run of the supervisor that starts with an empty log
    store, each handler running to its end before the next event, every
    entry in the stored log of a bot was emitted as a ['log'] event for
    that bot. *)
Theorem stored_log_entries_were_all_emitted
    (rows : gmap string Bot) (clock : Z) (events : list Event) :
  logsWereEmitted (run events (emptyManager rows clock)).
Proof.
  apply preserves_run; [apply handleEvent_emitted|].
  intros b e. unfold emptyManager. cbn. rewrite lookup_empty. cbn.
  by intros ?%elem_of_nil.
Qed.

(** ** Recovery after a platform restart *)

Lemma resetAfterRestart_cons id ids s :
  exec (resetAfterRestart (id :: ids)) s
  = exec (resetAfterRestart ids)
      (exec (storage.updateBotStatus id st_stopped None ;;
             addLog id lvl_info "Bot status reset after platform restart") s).
Proof.
  unfold resetAfterRestart. cbn [foldr].
  rewrite !exec_bind. reflexivity.
Qed.

Lemma resetAfterRestart_rows ids : ∀ s,
  let s' := exec (resetAfterRestart ids) s in
  now s' = now s ∧
  ∀ id, bots s' !! id
        = if decide (id ∈ ids) then resetRow (now s) <$> bots s !! id
          else bots s !! id.
Proof.
  induction ids as [|x ids IH]; intros s.
  - split; [done|]. intros id. rewrite decide_False; [done|]. apply not_elem_of_nil.
  - cbn zeta. rewrite resetAfterRestart_cons.
    set (s1 := exec (_ ;; _) s).
    assert (H1 : now s1 = now s ∧
                 ∀ id, bots s1 !! id
                       = if decide (id = x) then resetRow (now s) <$> bots s !! id
                         else bots s !! id).
    { subst s1. destruct s as [? ? ? ? ? ? ? ? bt ? ? ? ? ? ?]. mred.
      destruct (bt !! x) as [b|] eqn:Hb; mrun.
      - split; [done|]. intros id. destruct (decide (id = x)) as [->|Hne].
        + rewrite lookup_insert_eq, Hb. by destruct b.
        + by rewrite lookup_insert_ne.
      - split; [done|]. intros id. destruct (decide (id = x)) as [->|Hne];
          [by rewrite Hb | done]. }
    destruct H1 as [N1 B1]. destruct (IH s1) as [N2 B2].
    split; [congruence|]. intros id. rewrite B2, B1, N1.
    destruct (decide (id = x)) as [->|Hne].
    + rewrite (decide_True (P := x ∈ x :: ids)) by (by left).
      destruct (decide (x ∈ ids)); [|done].
      by destruct (bots s !! x) as [[]|].
    + destruct (decide (id ∈ ids)) as [Hin|Hnin].
      * by rewrite decide_True by (by right).
      * rewrite decide_False; [done|]. by intros [?|?]%elem_of_cons.
Qed.

Lemma recoverRunningBots_frame (s0 : Manager) :
  preserves (λ s, runningBots s = runningBots s0 ∧ children s = children s0 ∧
                  timers s = timers s0 ∧ healthCheckData s = healthCheckData s0 ∧
                  retryData s = retryData s0 ∧ signals s = signals s0)
    recoverRunningBots.
Proof. unfold recoverRunningBots. preserve. Qed.

(** X25. After [recoverRunningBots] no row has status [running]. Each row
    found running is set to [stopped] and keeps its name, main file and
    pid; the other rows are unchanged; nothing is started, stopped or
    signalled. *)
Theorem recovery_leaves_no_row_running (s : Manager) :
  let s' := exec recoverRunningBots s in
  (∀ id, bots s' !! id
         = (λ bot, if bool_decide (status bot = st_running)
                   then mkBot (name bot) (mainFile bot) st_stopped
                          (processId bot) (now s)
                   else bot) <$> bots s !! id) ∧
  (∀ id bot, bots s' !! id = Some bot → status bot ≠ st_running) ∧
  runningBots s' = runningBots s ∧ children s' = children s ∧
  timers s' = timers s ∧ signals s' = signals s.
Proof.
  cbn zeta.
  assert (R : ∀ id, bots (exec recoverRunningBots s) !! id
         = (λ bot, if bool_decide (status bot = st_running)
                   then resetRow (now s) bot else bot) <$> bots s !! id).
  { intros id. unfold recoverRunningBots. rewrite exec_gets_bind.
    destruct (resetAfterRestart_rows
      (filter (λ row : string * Bot, status row.2 = st_running)
         (map_to_list (bots s))).*1 s) as [_ ->].
    destruct (bots s !! id) as [b|] eqn:Hb; cbn.
    - case_bool_decide as Hr.
      + rewrite decide_True; [done|].
        apply list_elem_of_fmap. exists (id, b). split; [done|].
        apply list_elem_of_filter. split; [done|].
        by apply elem_of_map_to_list.
      + rewrite decide_False; [done|].
        intros ([id' b'] & -> & [Hs Hin]%list_elem_of_filter)%list_elem_of_fmap.
        apply elem_of_map_to_list in Hin. cbn in *. congruence.
    - by destruct (decide _). }
  split_and!.
  - exact R.
  - intros id bot. rewrite R. destruct (bots s !! id) as [b|]; [|done].
    cbn. intros [= <-]. case_bool_decide; [by cbn|done].
  - by destruct (recoverRunningBots_frame s s) as (?&?&?&?&?&?).
  - by destruct (recoverRunningBots_frame s s) as (?&?&?&?&?&?).
  - by destruct (recoverRunningBots_frame s s) as (?&?&?&?&?&?).
  - by destruct (recoverRunningBots_frame s s) as (?&?&?&?&?&?).
Qed.

(** ** Shutdown *)

Lemma clearRetryTimers_spec (entries : list (string * handle)) : ∀ s,
  let s' := exec (foldr (λ entry rest,
                     ri <- gets (λ s, retryInfos s !! entry.2) ;;
                     whenSome (ri ≫= retryTimeoutHandle) clearTimeout ;;
                     rest) (ret tt) entries) s in
  ∃ T, s' = set_timers T s ∧
       ∀ th, T !! th
             = if decide (th ∈ omap (λ e, retryTimerAt (retryInfos s) e.2) entries)
               then None else timers s !! th.
Proof.
  induction entries as [|e entries IH]; intros s; cbn zeta.
  - exists (timers s). split; [by destruct s|].
    intros th. rewrite decide_False; [done|]. apply not_elem_of_nil.
  - cbn [foldr]. rewrite exec_gets_bind, exec_bind.
    set (s1 := exec (whenSome _ _) s).
    assert (H1 : retryInfos s1 = retryInfos s ∧
                 s1 = set_timers (timers s1) s ∧
                 timers s1 = match retryTimerAt (retryInfos s) e.2 with
                             | Some th0 => delete th0 (timers s)
                             | None => timers s
                             end).
    { subst s1. unfold retryTimerAt.
      destruct (retryInfos s !! e.2 ≫= retryTimeoutHandle); destruct s;
        split_and!; reflexivity. }
    destruct H1 as (I1 & S1 & T1). destruct (IH s1) as (T & E & HT).
    exists T. split.
    { fold M in *. rewrite E. rewrite S1. by destruct s. }
    intros th. rewrite HT, I1, T1. cbn [omap list_omap].
    destruct (retryTimerAt (retryInfos s) e.2) as [th0|] eqn:R; [|done].
    destruct (decide (th = th0)) as [->|Hne].
    + rewrite lookup_delete_eq.
      destruct (decide (th0 ∈ th0 :: _)) as [_|N]; [|exfalso; apply N; left].
      by destruct (decide _).
    + rewrite lookup_delete_ne by done.
      destruct (decide (th ∈ omap _ entries)) as [Hin|Hnin];
        destruct (decide (th ∈ th0 :: _)) as [Hin'|Hnin']; try done.
      * exfalso. apply Hnin'. by right.
      * exfalso. by apply elem_of_cons in Hin' as [?|?].
Qed.

(** X26. The first loop of [shutdown] with its [retryData.clear()].
    Afterwards the retry table is empty, the timer of every retry record
    that was in the table is cleared, every other timer is as it was, and
    nothing else has changed: the state is the one before but for the
    retry table and the timers. *)
Theorem shutdown_disarms_every_pending_retry (s : Manager) :
  let s' := exec clearAllRetries s in
  retryData s' = ∅ ∧
  (∀ botId r info th,
     retryData s !! botId = Some r → retryInfos s !! r = Some info →
     retryTimeoutHandle info = Some th → timers s' !! th = None) ∧
  (∀ th,
     (∀ botId r info,
        retryData s !! botId = Some r → retryInfos s !! r = Some info →
        retryTimeoutHandle info ≠ Some th) →
     timers s' !! th = timers s !! th) ∧
  runningBots s' = runningBots s ∧ bots s' = bots s ∧
  healthCheckData s' = healthCheckData s ∧ emitted s' = emitted s ∧
  s' = set_retryData ∅ (set_timers (timers s') s) ∧
  children s' = children s ∧ healthInfos s' = healthInfos s ∧
  retryInfos s' = retryInfos s ∧ stopCalls s' = stopCalls s ∧
  logs s' = logs s ∧ signals s' = signals s ∧
  stdinWrites s' = stdinWrites s ∧ nextHandle s' = nextHandle s ∧
  now s' = now s.
Proof.
  cbn zeta. unfold clearAllRetries. rewrite exec_gets_bind, exec_bind.
  destruct (clearRetryTimers_spec (map_to_list (retryData s)) s) as (T & E & HT).
  fold M in *. rewrite E. clear E.
  split_and!; try (by destruct s).
  - intros botId r info th Hr Hi Hth.
    replace (timers _) with T by (by destruct s).
    rewrite HT, decide_True; [done|].
    apply list_elem_of_omap. exists (botId, r). split.
    + by apply elem_of_map_to_list.
    + unfold retryTimerAt. cbn. by rewrite Hi.
  - intros th Hth.
    replace (timers (exec _ _)) with T by (by destruct s).
    rewrite HT, decide_False; [done|].
    intros ([botId r] & Hin & Hr)%list_elem_of_omap.
    apply elem_of_map_to_list in Hin. unfold retryTimerAt in Hr. cbn in Hr.
    destruct (retryInfos s !! r) as [info|] eqn:Hi; [|done].
    by apply (Hth botId r info).
Qed.


Lemma shrinks_delete s0 botId :
  preserves (shrinks s0)
    (modify (λ s, set_runningBots (delete botId (runningBots s)) s)).
Proof.
  intros s [H1 H2]. destruct s. split; [|exact H2].
  mred. mred in H1. etrans; [apply delete_subseteq|exact H1].
Qed.

Lemma shrinks_insert s0 c p :
  preserves (shrinks s0)
    (modify (λ s, set_children (<[c := p]> (children s)) s)).
Proof.
  intros s [H1 H2]. destruct s. split; [exact H1|].
  mred. mred in H2. intros c' Hc'. destruct (decide (c' = c)) as [->|Hne].
  - by rewrite lookup_insert_eq.
  - rewrite lookup_insert_ne by done. by apply H2.
Qed.

#[local] Hint Resolve shrinks_delete shrinks_insert : preserve.








(** ** Deleting a running bot *)

Lemma deleteBot_live (s : Manager) botId c child rmOk :
  runningBots s !! botId = Some c →
  children s !! c = Some child →
  let s1 := exec (deleteBot botId Delivered rmOk) s in
  result (deleteBot botId Delivered rmOk) s = None ∧
  stopCalls s1 !! c
    = Some (mkStopCall false None true true (Some (nextHandle s)) (Some rmOk)) ∧
  children s1 !! c = Some (withKilled child) ∧
  signals s1 = signals s ++ [(c, "SIGTERM")] ∧
  timers s1 = <[nextHandle s := mkTimer 5000 (ForceKill botId c)]> (timers s) ∧
  runningBots s1 = delete botId (runningBots s) ∧
  bots s1 = match bots s !! botId with
            | Some bot =>
                <[botId := mkBot (name bot) (mainFile bot) st_stopped
                             (processId bot) (now s)]> (bots s)
            | None => bots s
            end.
Proof.
  intros Hl Hc. destruct s, child. unfold deleteBot, stopBot, withKilled.
  mred in Hl. mred in Hc. mcases; split_and!; done.
Qed.

Lemma resume_deletes (sx : Manager) c child v rmOk io oe oer coe :
  children sx !! c = Some child →
  stopCalls sx !! c = Some (mkStopCall io (Some v) oe oer coe (Some rmOk)) →
  let s2 := exec (resume c) sx in
  bots s2 = delete (owner child) (bots sx) ∧
  stopCalls s2 !! c = Some (mkStopCall io (Some v) oe oer coe None) ∧
  signals s2 = signals sx ∧ runningBots s2 = runningBots sx ∧
  timers s2 = timers sx.
Proof.
  intros Hc Hs. destruct sx, child. unfold resume, deleteBotRest.
  mred in Hc. mred in Hs. mrun.
  mlookup; mrun; destruct rmOk; mrun; split_and!; try done.
  all: symmetry; by apply delete_id.
Qed.

(** X28. [deleteBot] of a running bot whose SIGTERM is delivered does not
    complete at once: the row is still there, with status [stopped]. It
    completes when the child exits: then the row is gone and the other
    rows are untouched. If the child does not exit it completes when the
    force-kill timer fires, and the row goes without any further signal to
    the child. *)
Theorem delete_of_a_running_bot_completes_later
    (s : Manager) (botId : string) (c : handle) (child : ChildProcess)
    (rmOk : bool) (code : option Z) (signal : option Signal) (rnd : Q)
    (env : LaunchEnv) (kk : KillOutcome) :
  runningBots s !! botId = Some c →
  children s !! c = Some child →
  owner child = botId →
  let s1 := exec (deleteBot botId Delivered rmOk) s in
  let onExit := exec (emitExit c code signal rnd) s1 in
  let onDeadline := exec (fireTimer (nextHandle s) env kk) s1 in
  result (deleteBot botId Delivered rmOk) s = None ∧
  (∀ bot, bots s !! botId = Some bot →
     status <$> bots s1 !! botId = Some st_stopped) ∧
  signals s1 = signals s ++ [(c, "SIGTERM")] ∧
  (bots onExit !! botId = None ∧
   (∀ other, other ≠ botId → bots onExit !! other = bots s !! other) ∧
   signals onExit = signals s1) ∧
  (bots onDeadline = delete botId (bots s1) ∧
   signals onDeadline = signals s1 ∧
   resolved <$> stopCalls onDeadline !! c = Some (Some true)).
Proof.
  intros Hl Hc Ho. cbn zeta.
  destruct child as [o sp pd kl su]. cbn in Ho. subst o.
  destruct (deleteBot_live s botId c _ rmOk Hl Hc)
    as (R & Sc & Ch & Sg & Ti & Ru & Bo).
  set (s1 := exec (deleteBot botId Delivered rmOk) s) in *.
  split; [done|]. split; [|split; [done|split]].
  - intros bot Hb. rewrite Bo, Hb, lookup_insert_eq. done.
  - (* the child exits *)
    unfold emitExit. rewrite exec_gets_bind, Ch, exec_bind.
    cbn [withKilled owner].
    set (sx := exec (onChildExit botId code signal rnd) s1).
    destruct (onChildExit_frame s1 botId code signal rnd)
      as (A & B & C & _). fold sx in A, B, C.
    assert (Bx : ∀ other, other ≠ botId → bots sx !! other = bots s !! other).
    { intros other Hne. subst sx. rewrite onChildExit_unfold.
      destruct (exitCleanup_spec s1 botId code signal)
        as (_&_&_&_&_&_&_& St & Sn).
      assert (E : bots (exec (exitCleanup botId code signal) s1) !! other
                  = bots s !! other).
      { revert Bo. generalize s1. intros s1' Bo.
        destruct s1', s as [? ? ? ? ? ? ? ? bt ? ? ? ? ? ?].
        unfold exitCleanup. mred. mred in Bo.
        mlookup; mrun; destruct (truthy signal); mrun;
          rewrite ?lookup_insert_ne by done; rewrite Bo;
          destruct (bt !! botId); by rewrite ?lookup_insert_ne by done. }
      destruct (crashedUnexpectedly code signal); [|done].
      by destruct (scheduleSmartRetry_frame
                     (exec (exitCleanup botId code signal) s1) botId rnd)
        as [-> _]. }
    rewrite <- A in Sc. rewrite <- B in Ch. rewrite <- C.
    clearbody sx. clear A B C.
    destruct sx. unfold stopOnExit, resume, deleteBotRest, withKilled in *.
    mred in Ch. mred in Sc. mred in Bx. mrun.
    destruct (truthy signal); mrun; mlookup; mrun; destruct rmOk; mrun.
    all: split_and!; try done; try apply lookup_delete_eq.
    all: intros other Hne; rewrite lookup_delete_ne by done; by apply Bx.
  - (* the child does not exit and the deadline passes *)
    assert (Ht : timers s1 !! nextHandle s
                 = Some (mkTimer 5000 (ForceKill botId c)))
      by (by rewrite Ti, lookup_insert_eq).
    clearbody s1. clear Ti Bo Ru Sg R.
    destruct s1. unfold fireTimer, forceKill, resume, deleteBotRest,
      withKilled in *.
    mred in Ch. mred in Sc. mred in Ht. mrun.
    mlookup; mrun; destruct rmOk; mrun; split_and!; try done.
    all: symmetry; by apply delete_id.
Qed.

Lemma delete_of_a_running_bot_completes_later_witness :
  let s := Scenario.running in
  let s1 := exec (deleteBot "bot-1" Delivered true) s in
  let onExit := exec (emitExit 0 (Some 0) None (1 # 2)) s1 in
  let onDeadline := exec (fireTimer (nextHandle s) Scenario.launch Delivered) s1 in
  result (deleteBot "bot-1" Delivered true) s = None ∧
  (∀ bot, bots s !! "bot-1" = Some bot →
     status <$> bots s1 !! "bot-1" = Some st_stopped) ∧
  signals s1 = signals s ++ [(0%nat, "SIGTERM")] ∧
  (bots onExit !! "bot-1" = None ∧
   (∀ other, other ≠ "bot-1" → bots onExit !! other = bots s !! other) ∧
   signals onExit = signals s1) ∧
  (bots onDeadline = delete "bot-1" (bots s1) ∧
   signals onDeadline = signals s1 ∧
   resolved <$> stopCalls onDeadline !! 0%nat = Some (Some true)).
Proof.
  apply (delete_of_a_running_bot_completes_later Scenario.running "bot-1"
           0%nat (mkChildProcess "bot-1" "node" (Some 4242) false true)
           true (Some 0) None (1 # 2)%Q Scenario.launch Delivered
           eq_refl eq_refl eq_refl).
Defined.

(** ** Signals *)

Lemma supervised_boot rows clock : supervised (emptyManager rows clock).
Proof.
  unfold supervised, emptyManager. split_and!.
  - intros c sig H. by apply elem_of_nil in H.
  - apply NoDup_nil_2.
  - intros id c p H. cbn in H. by rewrite lookup_empty in H.
  - intros id1 id2 c H. cbn in H. by rewrite lookup_empty in H.
  - intros id c H. cbn in H. by rewrite lookup_empty in H.
  - intros c [p H]. cbn in H. by rewrite lookup_empty in H.
  - intros c [p H]. cbn in H. by rewrite lookup_empty in H.
Qed.

Lemma supervised_unregister botId :
  preserves supervised
    (modify (λ s, set_runningBots (delete botId (runningBots s)) s)).
Proof.
  intros s (A & B & C & D & E & F & G). destruct s.
  unfold supervised, signalledAreFlagged, oneSignalEach,
    registeredAreUnflagged, registeredOnce, registeredAllocated,
    childrenAllocated, stoppedAreUnregistered in *.
  mred. mred in A. mred in B. mred in C. mred in D. mred in E. mred in F.
  mred in G.
  split_and!; try done.
  - intros id c p [_ H]%lookup_delete_Some. by apply (C id).
  - intros id1 id2 c [_ H1]%lookup_delete_Some [_ H2]%lookup_delete_Some.
    by apply (D _ _ c).
  - intros id c [_ H]%lookup_delete_Some. by apply (E id).
  - intros c H. destruct (G c H) as [G1 G2]. split; [done|].
    intros id [_ H']%lookup_delete_Some. by apply (G2 id).
Qed.

Lemma supervised_fresh : preserves supervised fresh.
Proof.
  intros s (A & B & C & D & E & F & G). destruct s.
  unfold supervised, signalledAreFlagged, oneSignalEach,
    registeredAreUnflagged, registeredOnce, registeredAllocated,
    childrenAllocated, stoppedAreUnregistered in *.
  mred. mred in A. mred in B. mred in C. mred in D. mred in E. mred in F.
  mred in G.
  split_and!; try done.
  - intros id c H. specialize (E id c H). lia.
  - intros c H. specialize (F c H). lia.
  - intros c H. destruct (G c H) as [G1 G2]. split; [lia|done].
Qed.

Lemma supervised_updateStopCall c f :
  preserves supervised (updateStopCall c f).
Proof.
  intros s (A & B & C & D & E & F & G). destruct s.
  unfold supervised, signalledAreFlagged, oneSignalEach,
    registeredAreUnflagged, registeredOnce, registeredAllocated,
    childrenAllocated, stoppedAreUnregistered in *.
  mred. mred in A. mred in B. mred in C. mred in D. mred in E. mred in F.
  mred in G.
  split_and!; try done.
  intros c' H. apply G. destruct (decide (c' = c)) as [->|Hne].
  - rewrite lookup_alter_eq in H. by apply fmap_is_Some in H.
  - by rewrite lookup_alter_ne in H.
Qed.

#[local] Hint Resolve supervised_unregister supervised_fresh
  supervised_updateStopCall : preserve.

Lemma errorListeners_supervised c msg :
  preserves supervised (errorListeners c msg).
Proof. unfold errorListeners. preserve. Qed.

Ltac unfold_supervised :=
  unfold supervised, signalledAreFlagged, oneSignalEach,
    registeredAreUnflagged, registeredOnce, registeredAllocated,
    childrenAllocated, stoppedAreUnregistered in *.

(** A signal is delivered to a child that is not registered and has had
    none. *)
Lemma kill_supervised (s : Manager) c p sig k :
  supervised s →
  children s !! c = Some p →
  (∀ id, runningBots s !! id ≠ Some c) →
  c ∉ (signals s).*1 →
  supervised (exec (kill c sig k) s).
Proof.
  intros HI Hc Hu Hn. destruct k as [| |msg|msg]; try done.
  - destruct HI as (A & B & C & D & E & F & G). destruct s. unfold kill.
    unfold_supervised.
    mred in A. mred in B. mred in C. mred in D. mred in E. mred in F.
    mred in G. mred in Hc. mred in Hu. mred in Hn. mrun.
    split_and!; try done.
    + intros c' sig' [H|[= -> ->]%list_elem_of_singleton]%elem_of_app.
      * rewrite lookup_insert_ne; [by apply (A c' sig')|].
        intros <-. apply Hn. apply list_elem_of_fmap. by exists (c, sig').
      * cbn. by rewrite lookup_insert_eq.
    + rewrite fmap_app. apply NoDup_app. split_and!; [done| |].
      * intros x Hx ->%list_elem_of_singleton. done.
      * apply NoDup_singleton.
    + intros id c' p' Hr. rewrite lookup_insert_ne; [by apply (C id)|].
      intros <-. by apply (Hu id).
    + intros c' [->|[_ H]]%lookup_insert_is_Some; apply F; by rewrite ?Hc.
  - unfold kill. rewrite exec_bind. by apply errorListeners_supervised.
Qed.

Lemma stopBot_supervised botId k : preserves supervised (stopBot botId k).
Proof.
  intros s HI. unfold stopBot. rewrite exec_bind.
  change (exec (childOf botId) s) with s.
  destruct (runningBots s !! botId) as [c|] eqn:Hr;
    [destruct (children s !! c) as [p|] eqn:Hp|].
  2,3: assert (result (childOf botId) s = None) as ->
         by (unfold result, childOf, gets; cbn; rewrite Hr; cbn;
             by rewrite ?Hp);
       match goal with
       | |- supervised (exec ?c _) =>
           assert (R : preserves supervised c) by preserve; by apply R
       end.
  assert (result (childOf botId) s = Some (c, p)) as ->
    by (unfold result, childOf, gets; cbn; rewrite Hr; cbn; by rewrite Hp).
  do 5 rewrite exec_bind.
  match goal with
  | |- supervised (exec ?rest (exec ?kl (exec ?m4 (exec ?m3 (exec ?m2 (exec ?m1 _)))))) =>
      set (s3 := exec m4 (exec m3 (exec m2 (exec m1 s))));
      assert (R : preserves supervised rest)
        by (destruct (result kl s3); preserve);
      apply R; clear R
  end.
  assert (H3 : supervised s3 ∧ children s3 !! c = Some p ∧
               (∀ id, runningBots s3 !! id ≠ Some c) ∧ c ∉ (signals s3).*1).
  { subst s3. destruct HI as (A & B & C & D & E & F & G).
    destruct s as [rb ? ? ? ? ? ? ? ? ? ? sg ? ? ?].
    unfold_supervised.
    mred in A. mred in B. mred in C. mred in D. mred in E. mred in F.
    mred in G. mred in Hr. mred in Hp.
    assert (U : ∀ id, delete botId rb !! id ≠ Some c).
    { intros id [Hne H]%lookup_delete_Some. apply Hne. by apply (D _ _ c). }
    assert (N : c ∉ sg.*1).
    { intros ([c' sig] & -> & Hin)%list_elem_of_fmap. cbn in *.
      specialize (A _ _ Hin). rewrite Hp in A. cbn in A.
      specialize (C _ _ _ Hr Hp). congruence. }
    mcases.
    all: split_and!; try done.
    all: try (intros id c' p' [_ H]%lookup_delete_Some; by apply (C id)).
    all: try (intros id1 id2 c' [_ H1]%lookup_delete_Some
                [_ H2]%lookup_delete_Some; by apply (D _ _ c')).
    all: try (intros id c' [_ H]%lookup_delete_Some; by apply (E id)).
    all: intros c' [->|[_ H]]%lookup_insert_is_Some.
    all: try (split; [by apply (E botId)|done]).
    all: destruct (G c' H) as [G1 G2]; split; [done|].
    all: intros id [_ H']%lookup_delete_Some; by apply (G2 id). }
  destruct H3 as (I3 & C3 & U3 & N3).
  by apply (kill_supervised s3 c p).
Qed.

Lemma forceKill_supervised botId c k :
  preserves supervised (forceKill botId c k).
Proof.
  intros s HI. unfold forceKill. unfold stopCallOf at 1.
  rewrite !exec_gets_bind.
  destruct (stopCalls s !! c) as [call|] eqn:Hs; [|done].
  destruct (children s !! c) as [p|] eqn:Hp; [|done].
  destruct (isResolved call); [done|].
  rewrite exec_bind.
  match goal with
  | |- supervised (exec ?rest _) =>
      assert (R : preserves supervised rest) by preserve
  end.
  apply R. clear R.
  destruct (killed p) eqn:Hk; [done|]. cbn [negb]. rewrite exec_bind.
  match goal with
  | |- supervised (exec ?rest (exec ?kl _)) =>
      assert (R : preserves supervised rest)
        by (destruct (result kl s); preserve);
      apply R; clear R
  end.
  apply (kill_supervised s c p); try done.
  - destruct HI as (_&_&_&_&_&_& G). by apply G.
  - destruct HI as (A &_). intros ([c' sig] & -> & Hin)%list_elem_of_fmap.
    cbn [fst] in Hp. specialize (A _ _ Hin). rewrite Hp in A. cbn in A.
    congruence.
Qed.

(** The spawn at the end of [startBot]. *)
Lemma spawn_supervised botId cmd env :
  preserves supervised
    (c <- fresh ;;
     modify (λ s, set_children
       (<[c := mkChildProcess botId cmd (spawnedPid env) false
                 (spawnedStdin env)]> (children s)) s) ;;
     modify (λ s, set_runningBots (<[botId := c]> (runningBots s)) s) ;;
     setTimeout (MarkRunning botId c) 1000%Q ;;
     ret true).
Proof.
  intros s HI. do 3 rewrite exec_bind.
  match goal with
  | |- supervised (exec ?rest _) =>
      assert (R : preserves supervised rest) by preserve; apply R; clear R
  end.
  destruct HI as (A & B & C & D & E & F & G).
  destruct s as [? ? ? ch ? ? ? ? ? ? ? ? ? nh ?].
  unfold_supervised.
  mred in A. mred in B. mred in C. mred in D. mred in E. mred in F.
  mred in G. mrun.
  assert (Fn : ch !! nh = None).
  { apply eq_None_not_Some. intros H%F. lia. }
  split_and!; try done.
  - intros c sig Hin. rewrite lookup_insert_ne; [by apply (A c sig)|].
    intros <-. specialize (A _ _ Hin). by rewrite Fn in A.
  - intros id c p [[-> <-]|[Hne Hr]]%lookup_insert_Some.
    + rewrite lookup_insert_eq. by intros [= <-].
    + rewrite lookup_insert_ne; [by apply (C id)|].
      intros <-. specialize (E _ _ Hr). lia.
  - intros id1 id2 c [[-> <-]|[Hne1 Hr1]]%lookup_insert_Some
      [[-> Hc]|[Hne2 Hr2]]%lookup_insert_Some; try done.
    + specialize (E _ _ Hr2). lia.
    + subst c. specialize (E _ _ Hr1). lia.
    + by apply (D _ _ c).
  - intros id c [[-> <-]|[Hne Hr]]%lookup_insert_Some; [lia|].
    specialize (E _ _ Hr). lia.
  - intros c [->|[_ H]]%lookup_insert_is_Some; [lia|].
    specialize (F _ H). lia.
  - intros c H. destruct (G c H) as [G1 G2]. split; [lia|].
    intros id [[-> <-]|[Hne Hr]]%lookup_insert_Some; [lia|].
    by apply (G2 id).
Qed.

#[local] Hint Resolve stopBot_supervised forceKill_supervised
  spawn_supervised : preserve.

Lemma handleEvent_supervised (e : Event) : preserves supervised (handleEvent e).
Proof. destruct e; unfold handleEvent; preserve. Qed.

Lemma run_supervised rows clock events :
  supervised (run events (emptyManager rows clock)).
Proof.
  apply preserves_run; [apply handleEvent_supervised|apply supervised_boot].
Qed.

Lemma knownSignals_send c sig :
  sig = "SIGTERM" ∨ sig = "SIGKILL" →
  preserves knownSignals
    (modify (λ s, set_signals (signals s ++ [(c, sig)]) s)).
Proof.
  intros Hs s H. destruct s. unfold knownSignals in *. mred. mred in H.
  intros c' sig' [Hin|[= -> ->]%list_elem_of_singleton]%elem_of_app;
    [by apply (H c')|done].
Qed.

Lemma knownSignals_sigterm c :
  preserves knownSignals
    (modify (λ s, set_signals (signals s ++ [(c, "SIGTERM")]) s)).
Proof. apply knownSignals_send. by left. Qed.

Lemma knownSignals_sigkill c :
  preserves knownSignals
    (modify (λ s, set_signals (signals s ++ [(c, "SIGKILL")]) s)).
Proof. apply knownSignals_send. by right. Qed.

#[local] Hint Resolve knownSignals_sigterm knownSignals_sigkill : preserve.

Lemma handleEvent_knownSignals (e : Event) :
  preserves knownSignals (handleEvent e).
Proof. destruct e; unfold handleEvent; preserve. Qed.

Lemma NoDup_fst_agree {A B} (l : list (A * B)) a b1 b2 :
  NoDup l.*1 → (a, b1) ∈ l → (a, b2) ∈ l → b1 = b2.
Proof.
  induction l as [|[a' b'] l IH]; intros N H1 H2.
  - by apply elem_of_nil in H1.
  - cbn in N. apply NoDup_cons in N as [Nin N].
    apply elem_of_cons in H1 as [[= -> ->]|H1];
      apply elem_of_cons in H2 as [[= ?]|H2]; subst; try done.
    + exfalso. apply Nin. apply list_elem_of_fmap. by exists (a', b2).
    + exfalso. apply Nin. apply list_elem_of_fmap. by exists (a', b1).
    + by apply IH.
Qed.

(** X29. In every run of the supervisor from its initial state, each
    handler running to its end before the next event, each child is
    delivered at most one signal, and that is SIGTERM or SIGKILL. A child
    that SIGTERM was delivered to is never delivered SIGKILL. *)
Theorem no_child_is_signalled_twice
    (rows : gmap string Bot) (clock : Z) (events : list Event) :
  let s := run events (emptyManager rows clock) in
  NoDup (signals s).*1 ∧
  (∀ c sig, (c, sig) ∈ signals s → sig = "SIGTERM" ∨ sig = "SIGKILL") ∧
  (∀ c, (c, "SIGTERM") ∈ signals s → (c, "SIGKILL") ∉ signals s).
Proof.
  intros s. destruct (run_supervised rows clock events) as (_ & B & _).
  fold s in B. split_and!; [done| |].
  - apply (preserves_run knownSignals); [apply handleEvent_knownSignals|].
    intros c sig H. by apply elem_of_nil in H.
  - intros c H1 H2.
    by pose proof (NoDup_fst_agree _ _ _ _ B H1 H2).
Qed.

(** X30. In every run of the supervisor from its initial state, each
    handler running to its end before the next event, a child that is in
    the table of running bots is not flagged [killed] and has been
    delivered no signal. So the test of [killed] in
    [performBotHealthCheck] never finds a flagged child. *)
Theorem registered_child_is_never_flagged
    (rows : gmap string Bot) (clock : Z) (events : list Event)
    (botId : string) (c : handle) (child : ChildProcess) :
  let s := run events (emptyManager rows clock) in
  runningBots s !! botId = Some c →
  children s !! c = Some child →
  killed child = false ∧ (∀ sig, (c, sig) ∉ signals s).
Proof.
  intros s Hr Hc.
  destruct (run_supervised rows clock events) as (A & _ & C & _).
  fold s in A, C. split; [by apply (C botId c)|].
  intros sig Hin. specialize (A _ _ Hin). rewrite Hc in A. cbn in A.
  specialize (C _ _ _ Hr Hc). congruence.
Qed.

Lemma registered_child_is_never_flagged_witness :
  let events :=
    [CallStart "bot-1" Scenario.launch; Elapse 1000;
     TimerDue 1 Scenario.launch Delivered; CallStop "bot-1" Delivered;
     CallStart "bot-1" Scenario.launch] in
  let s := run events (emptyManager Scenario.rows 1000) in
  let child := mkChildProcess "bot-1" "node" (Some 4242) false true in
  killed child = false ∧ (∀ sig, (3%nat, sig) ∉ signals s).
Proof.
  apply (registered_child_is_never_flagged Scenario.rows 1000
           [CallStart "bot-1" Scenario.launch; Elapse 1000;
            TimerDue 1 Scenario.launch Delivered; CallStop "bot-1" Delivered;
            CallStart "bot-1" Scenario.launch]
           "bot-1" 3%nat
           (mkChildProcess "bot-1" "node" (Some 4242) false true)
           eq_refl eq_refl).
Defined.
